(** * mpmc::queue — a bounded multi-producer/multi-consumer ring

    A shallow embedding of [include/mpmc/mpmcqueue.hpp].

    - [size_t] is a 64-bit unsigned integer: a [Z] in [0, 2^64) with the
      wrap-around of every addition and multiplication written out ([wrap]).
    - A [slot] is its [turn] counter and its [storage]; the storage is
      [Some v] while an element lives in it and [None] otherwise.
    - Every access to the shared atomics ([head_], [tail_], a slot's [turn])
      and to a slot's storage is one step of a program-counter machine
      ([step]); the program counters are named after the statements of
      [emplace], [try_emplace], [pop] and [try_pop].  A thread runs alone
      with [run]; other threads may change the queue between two steps of a
      thread ([exec]); any number of threads take their steps in any order
      in [sys_step].  The steps of the threads interleave: every load sees
      the latest store, the memory orders of the accesses ([acquire],
      [release], [relaxed]) are not told apart.
    - What the calls in progress know of the slots of their tickets is the
      invariant [par_inv] of every interleaving.
    - Constructions and destructions of elements, and allocations, are
      recorded as events.
    - Undefined behaviour (an element read or destroyed where none lives, a
      slot constructed outside the allocated block) is [None].
    - [size()] makes two loads: of one state when the thread runs alone
      ([size]), of two states when other threads run ([size_loads]). *)

From Stdlib Require Import ZArith List Lia Bool Permutation.
From stdpp Require Import base tactics option list.
Import ListNotations.
Local Open Scope Z_scope.

(** ** Machine integers *)

(** [std::numeric_limits<size_t>::max() + 1] *)
Definition size_modulus : Z := 2 ^ 64.

(** Unsigned arithmetic on [size_t] is modulo [2^64]. *)
Definition wrap (x : Z) : Z := x mod size_modulus.

(** [static_cast<ptrdiff_t>(x)] of a [size_t] value [x]. *)
Definition to_ptrdiff (x : Z) : Z :=
  if x <? 2 ^ 63 then x else x - size_modulus.

(** [hardware_interference_size], which is also [alignof(slot<T>)]. *)
Definition hardware_interference_size : Z := 64.

(** ** Events observable outside the queue *)

Inductive event :=
| EvConstruct (i : nat)          (* placement-new of a T in slot i *)
| EvDestroy (i : nat)            (* ~T() on the element of slot i *)
| EvAllocate (p n : Z)           (* allocator_.allocate(n) returned p *)
| EvDeallocate (p n : Z).        (* allocator_.deallocate(p, n) *)

Definition is_construct (e : event) : bool :=
  match e with EvConstruct _ => true | _ => false end.

Definition is_destroy (e : event) : bool :=
  match e with EvDestroy _ => true | _ => false end.

Definition constructions (tr : list event) : nat := length (List.filter is_construct tr).
Definition destructions (tr : list event) : nat := length (List.filter is_destroy tr).

Section Queue.

Context {T : Type}.

(** ** Data model *)

(** [template <typename T> struct slot] *)
Record slot := Slot {
  turn : Z;                (* std::atomic<size_t> turn = {0} *)
  storage : option T       (* aligned_storage; Some v while a T lives there *)
}.

(** [class queue]: [slots_] is split into the address returned by the
    allocator and the [capacity_] slots constructed at that address. *)
Record queue := Queue {
  capacity_ : Z;
  slots_ptr : Z;
  slots_ : list slot;
  head_ : Z;
  tail_ : Z
}.

(** ** Ticket arithmetic *)

(** [idx_(i)]: [i % capacity_] *)
Definition idx_ (q : queue) (i : Z) : Z := i mod capacity_ q.

(** [turn_(i)]: [i / capacity_] *)
Definition turn_ (q : queue) (i : Z) : Z := i / capacity_ q.

(** ** Slot operations *)

(** [slot()]: turn = 0, storage raw. *)
Definition slot_init : slot := Slot 0 None.

(** [slot::construct]: placement-new into the storage. *)
Definition slot_construct (v : T) (s : slot) : slot := Slot (turn s) (Some v).

(** [slot::destroy]: runs [~T()] on the stored element; undefined ([None])
    when no element lives in the storage. *)
Definition slot_destroy (s : slot) : option slot :=
  match storage s with
  | Some _ => Some (Slot (turn s) None)
  | None => None
  end.

(** [slot::move]: a reference to the stored element. *)
Definition slot_move (s : slot) : option T := storage s.

(** [slot.turn.store(t)] *)
Definition slot_store_turn (t : Z) (s : slot) : slot := Slot t (storage s).

(** [if (turn & 1)] *)
Definition turn_is_odd (s : slot) : bool := negb (Z.land (turn s) 1 =? 0).

(** [slots_[idx_(i)]] *)
Definition slot_index (q : queue) (i : Z) : nat := Z.to_nat (idx_ q i).

Definition slot_at (q : queue) (i : Z) : option slot :=
  slots_ q !! slot_index q i.

Definition with_slot (q : queue) (i : Z) (s : slot) : queue :=
  Queue (capacity_ q) (slots_ptr q) (<[slot_index q i := s]> (slots_ q))
        (head_ q) (tail_ q).

Definition with_head (q : queue) (h : Z) : queue :=
  Queue (capacity_ q) (slots_ptr q) (slots_ q) h (tail_ q).

Definition with_tail (q : queue) (t : Z) : queue :=
  Queue (capacity_ q) (slots_ptr q) (slots_ q) (head_ q) t.

(** ** Return values *)

Inductive retval :=
| ret_void                         (* emplace, push *)
| ret_bool (b : bool)              (* try_emplace, try_push *)
| ret_pop (v : T)                  (* pop: the value left in the out-parameter *)
| ret_try_pop (b : bool) (v : T).  (* try_pop: result and out-parameter *)

(** ** Program counters *)

Inductive pc :=
(* emplace *)
| emplace_fetch_add (v : T)
| emplace_spin (head : Z) (v : T)
| emplace_construct (head : Z) (v : T)
| emplace_store (head : Z)
(* try_emplace *)
| try_emplace_load (v : T)
| try_emplace_check (head : Z) (v : T)
| try_emplace_cas (head : Z) (v : T)
| try_emplace_construct (head : Z) (v : T)
| try_emplace_store (head : Z)
| try_emplace_reload (prev_head : Z) (v : T)
(* pop *)
| pop_fetch_add (out : T)
| pop_spin (tail : Z) (out : T)
| pop_move (tail : Z) (out : T)
| pop_destroy (tail : Z) (out : T)
| pop_store (tail : Z) (out : T)
(* try_pop *)
| try_pop_load (out : T)
| try_pop_check (tail : Z) (out : T)
| try_pop_cas (tail : Z) (out : T)
| try_pop_move (tail : Z) (out : T)
| try_pop_destroy (tail : Z) (out : T)
| try_pop_store (tail : Z) (out : T)
| try_pop_reload (prev_tail : Z) (out : T)
(* the call has returned *)
| Return (r : retval).

(** ** One atomic step of a thread

    [None] is undefined behaviour (an element read or destroyed where none
    lives, a slot outside the array). *)
Definition step (p : pc) (q : queue) : option (pc * queue * list event) :=
  match p with
  (* auto const head = head_.fetch_add(1); *)
  | emplace_fetch_add v =>
      Some (emplace_spin (head_ q) v, with_head q (wrap (head_ q + 1)), [])
  (* while (turn_(head) * 2 != slot.turn.load(acquire)) ; *)
  | emplace_spin head v =>
      s ← slot_at q head;
      Some (if wrap (turn_ q head * 2) =? turn s
            then emplace_construct head v else emplace_spin head v, q, [])
  (* slot.construct(std::forward<Args>(args)...); *)
  | emplace_construct head v =>
      s ← slot_at q head;
      Some (emplace_store head, with_slot q head (slot_construct v s),
            [EvConstruct (slot_index q head)])
  (* slot.turn.store(turn_(head) * 2 + 1, release); *)
  | emplace_store head =>
      s ← slot_at q head;
      Some (Return ret_void,
            with_slot q head (slot_store_turn (wrap (turn_ q head * 2 + 1)) s), [])
  (* auto head = head_.load(acquire); *)
  | try_emplace_load v =>
      Some (try_emplace_check (head_ q) v, q, [])
  (* if (turn_(head) * 2 == slot.turn.load(acquire)) *)
  | try_emplace_check head v =>
      s ← slot_at q head;
      Some (if wrap (turn_ q head * 2) =? turn s
            then try_emplace_cas head v else try_emplace_reload head v, q, [])
  (* if (head_.compare_exchange_strong(head, head + 1)) *)
  | try_emplace_cas head v =>
      if head_ q =? head
      then Some (try_emplace_construct head v, with_head q (wrap (head + 1)), [])
      else Some (try_emplace_check (head_ q) v, q, [])
  | try_emplace_construct head v =>
      s ← slot_at q head;
      Some (try_emplace_store head, with_slot q head (slot_construct v s),
            [EvConstruct (slot_index q head)])
  (* slot.turn.store(turn_(head) * 2 + 1, release); return true; *)
  | try_emplace_store head =>
      s ← slot_at q head;
      Some (Return (ret_bool true),
            with_slot q head (slot_store_turn (wrap (turn_ q head * 2 + 1)) s), [])
  (* auto const prev_head = head; head = head_.load(acquire);
     if (head == prev_head) return false; *)
  | try_emplace_reload prev_head v =>
      Some (if head_ q =? prev_head
            then Return (ret_bool false) else try_emplace_check (head_ q) v, q, [])
  (* auto const tail = tail_.fetch_add(1); *)
  | pop_fetch_add out =>
      Some (pop_spin (tail_ q) out, with_tail q (wrap (tail_ q + 1)), [])
  (* while (turn_(tail) * 2 + 1 != slot.turn.load(acquire)) ; *)
  | pop_spin tail out =>
      s ← slot_at q tail;
      Some (if wrap (turn_ q tail * 2 + 1) =? turn s
            then pop_move tail out else pop_spin tail out, q, [])
  (* v = slot.move(); *)
  | pop_move tail out =>
      s ← slot_at q tail;
      x ← slot_move s;
      Some (pop_destroy tail x, q, [])
  (* slot.destroy(); *)
  | pop_destroy tail out =>
      s ← slot_at q tail;
      s' ← slot_destroy s;
      Some (pop_store tail out, with_slot q tail s', [EvDestroy (slot_index q tail)])
  (* slot.turn.store(turn_(tail) * 2 + 2, release); *)
  | pop_store tail out =>
      s ← slot_at q tail;
      Some (Return (ret_pop out),
            with_slot q tail (slot_store_turn (wrap (turn_ q tail * 2 + 2)) s), [])
  (* auto tail = tail_.load(acquire); *)
  | try_pop_load out =>
      Some (try_pop_check (tail_ q) out, q, [])
  (* if (turn_(tail) * 2 + 1 == slot.turn.load(acquire)) *)
  | try_pop_check tail out =>
      s ← slot_at q tail;
      Some (if wrap (turn_ q tail * 2 + 1) =? turn s
            then try_pop_cas tail out else try_pop_reload tail out, q, [])
  (* if (tail_.compare_exchange_strong(tail, tail + 1)) *)
  | try_pop_cas tail out =>
      if tail_ q =? tail
      then Some (try_pop_move tail out, with_tail q (wrap (tail + 1)), [])
      else Some (try_pop_check (tail_ q) out, q, [])
  | try_pop_move tail out =>
      s ← slot_at q tail;
      x ← slot_move s;
      Some (try_pop_destroy tail x, q, [])
  | try_pop_destroy tail out =>
      s ← slot_at q tail;
      s' ← slot_destroy s;
      Some (try_pop_store tail out, with_slot q tail s',
            [EvDestroy (slot_index q tail)])
  (* slot.turn.store(turn_(tail) * 2 + 2, release); return true; *)
  | try_pop_store tail out =>
      s ← slot_at q tail;
      Some (Return (ret_try_pop true out),
            with_slot q tail (slot_store_turn (wrap (turn_ q tail * 2 + 2)) s), [])
  (* auto const prev_tail = tail; tail = tail_.load(acquire);
     if (tail == prev_tail) return false; *)
  | try_pop_reload prev_tail out =>
      Some (if tail_ q =? prev_tail
            then Return (ret_try_pop false out) else try_pop_check (tail_ q) out, q, [])
  | Return r => Some (Return r, q, [])
  end.

(** ** A thread running alone *)

Inductive outcome (A : Type) :=
| Done (a : A)         (* the call returned *)
| Spinning             (* still inside a loop when the fuel ran out *)
| Undefined.           (* undefined behaviour *)
Global Arguments Done {A} a.
Global Arguments Spinning {A}.
Global Arguments Undefined {A}.

Fixpoint run (fuel : nat) (p : pc) (q : queue) : outcome (retval * queue * list event) :=
  match p with
  | Return r => Done (r, q, [])
  | _ =>
      match fuel with
      | O => Spinning
      | S fuel' =>
          match step p q with
          | None => Undefined
          | Some (p', q', ev) =>
              match run fuel' p' q' with
              | Done (r, q'', tr) => Done (r, q'', ev ++ tr)
              | Spinning => Spinning
              | Undefined => Undefined
              end
          end
      end
  end.

(** ** The member functions, called by a thread that runs alone *)

(** [emplace(args...)]: the element constructed from [args] is [v]. *)
Definition emplace (fuel : nat) (v : T) (q : queue) := run fuel (emplace_fetch_add v) q.

(** [try_emplace(args...)] *)
Definition try_emplace (fuel : nat) (v : T) (q : queue) := run fuel (try_emplace_load v) q.

(** [push(const T &v)] and [push(P &&v)]: [emplace(v)]. *)
Definition push (fuel : nat) (v : T) (q : queue) := emplace fuel v q.

(** [try_push(const T &v)] and [try_push(P &&v)]: [try_emplace(v)]. *)
Definition try_push (fuel : nat) (v : T) (q : queue) := try_emplace fuel v q.

(** [pop(T &v)]: [out] is the value of [v] before the call. *)
Definition pop (fuel : nat) (out : T) (q : queue) := run fuel (pop_fetch_add out) q.

(** [try_pop(T &v)] *)
Definition try_pop (fuel : nat) (out : T) (q : queue) := run fuel (try_pop_load out) q.

(** [size()]: both loads are of the same state when the thread runs alone. *)
Definition size (q : queue) : Z := to_ptrdiff (wrap (head_ q - tail_ q)).

(** [empty()] *)
Definition empty (q : queue) : bool := size q <=? 0.

(** ** Sequences of calls *)

Inductive op :=
| Emplace (v : T)
| TryEmplace (v : T)
| Pop (out : T)
| TryPop (out : T).

Definition entry (o : op) : pc :=
  match o with
  | Emplace v => emplace_fetch_add v
  | TryEmplace v => try_emplace_load v
  | Pop out => pop_fetch_add out
  | TryPop out => try_pop_load out
  end.

(** Each call gets [fuel] steps and must return before the next one starts. *)
Fixpoint run_ops (fuel : nat) (ops : list op) (q : queue)
  : outcome (list retval * queue * list event) :=
  match ops with
  | [] => Done ([], q, [])
  | o :: ops' =>
      match run fuel (entry o) q with
      | Done (r, q', tr) =>
          match run_ops fuel ops' q' with
          | Done (rs, q'', tr') => Done (r :: rs, q'', tr ++ tr')
          | Spinning => Spinning
          | Undefined => Undefined
          end
      | Spinning => Spinning
      | Undefined => Undefined
      end
  end.

(** The value a call put into the queue, if it did. *)
Definition enqueued_by (o : op) (r : retval) : list T :=
  match o, r with
  | Emplace v, ret_void => [v]
  | TryEmplace v, ret_bool true => [v]
  | _, _ => []
  end.

(** The value a call took out of the queue, if it did. *)
Definition dequeued_by (r : retval) : list T :=
  match r with
  | ret_pop v => [v]
  | ret_try_pop true v => [v]
  | _ => []
  end.

Fixpoint enqueued (ops : list op) (rs : list retval) : list T :=
  match ops, rs with
  | o :: ops', r :: rs' => enqueued_by o r ++ enqueued ops' rs'
  | _, _ => []
  end.

Definition dequeued (rs : list retval) : list T := concat (map dequeued_by rs).

(** ** A thread among others

    The thread takes one step in each of the states [qs], in this order;
    between two of its steps the other threads may have changed the queue
    in any way.  The result is the program counter it ends at. *)
Fixpoint exec (p : pc) (qs : list queue) : option pc :=
  match qs with
  | [] => Some p
  | q :: qs' =>
      match step p q with
      | Some (p', _, _) => exec p' qs'
      | None => None
      end
  end.

Definition returned (p : pc) : bool :=
  match p with Return _ => true | _ => false end.

(** ** Construction and destruction *)

Inductive exception := invalid_argument | bad_alloc.

(** The blocks handed out by the allocator and not yet given back:
    address and number of slots. *)
Definition heap := list (Z * Z).

(** The allocator: [allocate(n)] returns an address or throws ([None]). *)
Definition Allocator := heap -> Z -> option Z.

Fixpoint release (p n : Z) (h : heap) : heap :=
  match h with
  | [] => []
  | (p', n') :: h' =>
      if (p' =? p) && (n' =? n) then h' else (p', n') :: release p n h'
  end.

(** [for (size_t i = 0; i < capacity_; ++i) new (&slots_[i]) slot<T>();] *)
Fixpoint construct_slots (n : nat) : list slot :=
  match n with
  | O => []
  | S n' => construct_slots n' ++ [slot_init]
  end.

(** The same loop in a block of [block] slots: [&slots_[i]] is inside the
    block for [i < block] only, and constructing a slot anywhere else is
    undefined behaviour ([None]). *)
Fixpoint construct_slots_in (block : Z) (n : nat) : option (list slot) :=
  match n with
  | O => Some []
  | S n' =>
      slots ← construct_slots_in block n';
      if Z.of_nat n' <? block then Some (slots ++ [slot_init]) else None
  end.

(** [queue(capacity, alloc)].  [capacity] is a [size_t]: the argument is
    converted to it on the way in ([cap], the value of [capacity_]).  The
    result is an exception or the queue, with the heap and the events;
    [None] is undefined behaviour. *)
Definition queue_ctor (alloc : Allocator) (capacity : Z) (h : heap)
  : option ((exception + queue) * heap * list event) :=
  let cap := wrap capacity in
  if cap <? 1 then Some (inl invalid_argument, h, [])
  else
    let n := wrap (cap + 1) in
    match alloc h n with
    | None => Some (inl bad_alloc, h, [])
    | Some p =>
        let h1 := (p, n) :: h in
        if negb (p mod hardware_interference_size =? 0)
        then Some (inl bad_alloc, release p n h1, [EvAllocate p n; EvDeallocate p n])
        else
          slots ← construct_slots_in n (Z.to_nat cap);
          Some (inr (Queue cap p slots 0 0), h1, [EvAllocate p n])
    end.

(** [~slot()] of the slot at index [i]; [None] is undefined behaviour. *)
Definition slot_dtor (i : nat) (s : slot) : option (list event) :=
  if turn_is_odd s
  then _ ← slot_destroy s; Some [EvDestroy i]
  else Some [].

(** [for (size_t i = 0; i < capacity_; ++i) slots_[i].~slot();] *)
Fixpoint destroy_slots (slots : list slot) (ixs : list nat) : option (list event) :=
  match ixs with
  | [] => Some []
  | i :: ixs' =>
      s ← slots !! i;
      e ← slot_dtor i s;
      es ← destroy_slots slots ixs';
      Some (e ++ es)
  end.

(** [~queue()] *)
Definition queue_dtor (q : queue) (h : heap) : option (heap * list event) :=
  es ← destroy_slots (slots_ q) (seq 0 (Z.to_nat (capacity_ q)));
  let n := wrap (capacity_ q + 1) in
  Some (release (slots_ptr q) n h, es ++ [EvDeallocate (slots_ptr q) n]).

End Queue.

Global Arguments slot : clear implicits.
Global Arguments queue : clear implicits.
Global Arguments retval : clear implicits.
Global Arguments pc : clear implicits.
Global Arguments op : clear implicits.

(** ** The queue of the specification

    A bounded first-in/first-out queue, written from the specification's
    words: a list of at most [C] elements, oldest first.  A blocking call
    that cannot proceed does not return ([None]). *)
Section Fifo.

Context {T : Type}.

Definition fifo_call (C : Z) (o : op T) (l : list T) : option (retval T * list T) :=
  match o with
  | Emplace v =>
      if Z.of_nat (length l) <? C then Some (ret_void, l ++ [v]) else None
  | TryEmplace v =>
      if Z.of_nat (length l) <? C then Some (ret_bool true, l ++ [v])
      else Some (ret_bool false, l)
  | Pop out =>
      match l with
      | x :: l' => Some (ret_pop x, l')
      | [] => None
      end
  | TryPop out =>
      match l with
      | x :: l' => Some (ret_try_pop true x, l')
      | [] => Some (ret_try_pop false out, l)
      end
  end.

Fixpoint fifo_run (C : Z) (ops : list (op T)) (l : list T)
  : option (list (retval T) * list T) :=
  match ops with
  | [] => Some ([], l)
  | o :: ops' =>
      match fifo_call C o l with
      | Some (r, l') =>
          match fifo_run C ops' l' with
          | Some (rs, l'') => Some (r :: rs, l'')
          | None => None
          end
      | None => None
      end
  end.

(** No blocking call of [ops] is made when it cannot proceed: [emplace]
    only while fewer than [C] elements are stored, [pop] only while an
    element is stored; [n] is the number of elements stored. *)
Fixpoint admissible_from (C n : Z) (ops : list (op T)) : bool :=
  match ops with
  | [] => true
  | Emplace _ :: ops' => (n <? C) && admissible_from C (n + 1) ops'
  | TryEmplace _ :: ops' => admissible_from C (if n <? C then n + 1 else n) ops'
  | Pop _ :: ops' => (0 <? n) && admissible_from C (n - 1) ops'
  | TryPop _ :: ops' => admissible_from C (if 0 <? n then n - 1 else n) ops'
  end.

Definition admissible (C : Z) (ops : list (op T)) : bool := admissible_from C 0 ops.

(** The queue right after a successful construction at address [p]. *)
Definition fresh (C p : Z) : queue T :=
  Queue C p (construct_slots (Z.to_nat C)) 0 0.

(** The elements stored for the tickets [tail_ q, head_ q), oldest first. *)
Definition contents (q : queue T) : list T :=
  omap (fun t => slot_at q t ≫= storage) (seqZ (tail_ q) (head_ q - tail_ q)).

End Fifo.

(** ** Requirements on the element type

    The type traits the header asks about [T]. *)
Record type_traits := {
  is_nothrow_copy_assignable : bool;
  is_nothrow_move_assignable : bool;
  is_nothrow_destructible : bool;
  is_nothrow_copy_constructible : bool;
  is_nothrow_move_constructible : bool
}.

(** The two [static_assert]s at the head of [class queue]. *)
Definition queue_static_assert (tt : type_traits) : bool :=
  (is_nothrow_copy_assignable tt || is_nothrow_move_assignable tt)
  && is_nothrow_destructible tt.

(** The member functions that take or give a [T]. *)
Inductive member :=
| push_copy                  (* push(const T &) *)
| try_push_copy              (* try_push(const T &) *)
| push_forward_rvalue        (* push(P &&) with an rvalue of T *)
| try_push_forward_rvalue    (* try_push(P &&) with an rvalue of T *)
| pop_out                    (* pop(T &) *)
| try_pop_out.               (* try_pop(T &) *)

(** A call of the member compiles: the class is well-formed, and so is the
    member ([static_assert] of [push(const T &)]; [enable_if] of
    [push(P &&)], followed by the [static_assert] of [emplace]). *)
Definition instantiates (tt : type_traits) (m : member) : bool :=
  queue_static_assert tt &&
  match m with
  | push_copy | try_push_copy => is_nothrow_copy_constructible tt
  | push_forward_rvalue | try_push_forward_rvalue => is_nothrow_move_constructible tt
  | pop_out | try_pop_out => true
  end.

(** A type with a copy constructor that may throw and a nothrow copy
    assignment. *)
Definition throwing_copy_constructor : type_traits :=
  {| is_nothrow_copy_assignable := true;
     is_nothrow_move_assignable := true;
     is_nothrow_destructible := true;
     is_nothrow_copy_constructible := false;
     is_nothrow_move_constructible := false |}.

(** ** Ghost definitions and invariants *)

Section Invariants.

Context {T : Type}.
Implicit Types (q : queue T) (s : slot T) (p : pc T) (l : list T) (v x out : T).

(** The queue after the producer of ticket [head_ q] has published [v]. *)
Definition after_emplace q v : queue T :=
  with_slot (with_head q (wrap (head_ q + 1))) (head_ q)
            (Slot (wrap (turn_ q (head_ q) * 2 + 1)) (Some v)).

(** The queue after the consumer of ticket [tail_ q] has freed its slot. *)
Definition after_pop q : queue T :=
  with_slot (with_tail q (wrap (tail_ q + 1))) (tail_ q)
            (Slot (wrap (turn_ q (tail_ q) * 2 + 2)) None).

(** The number of slots whose turn is odd. *)
Definition live_count q : nat := length (List.filter turn_is_odd (slots_ q)).

(** The storage of the slot holds an element. *)
Definition occupied s : bool :=
  match storage s with Some _ => true | None => false end.

(** The number of slots whose storage holds an element. *)
Definition stored_count q : nat := length (List.filter occupied (slots_ q)).

(** The indices among [ixs] of the slots whose turn is odd. *)
Definition odd_slots (slots : list (slot T)) (ixs : list nat) : list nat :=
  List.filter (fun i => match slots !! i with
                        | Some s => turn_is_odd s
                        | None => false
                        end) ixs.

(** [ring q l]: the queue holds the elements [l], oldest first, and fewer
    than 2^63 tickets have been handed out.  The tickets
    [tail_ q, head_ q) are those of the elements waiting for a consumer, the
    tickets [head_ q, tail_ q + capacity_ q) those of the free slots. *)
Record ring (q : queue T) (l : list T) : Prop := {
  ring_capacity : 1 <= capacity_ q < size_modulus;
  ring_slots : length (slots_ q) = Z.to_nat (capacity_ q);
  ring_tail : 0 <= tail_ q;
  ring_head : head_ q = tail_ q + Z.of_nat (length l);
  ring_fits : Z.of_nat (length l) <= capacity_ q;
  ring_nowrap : head_ q < 2 ^ 63;
  ring_full : forall k x, l !! k = Some x ->
    slot_at q (tail_ q + Z.of_nat k)
    = Some (Slot (2 * turn_ q (tail_ q + Z.of_nat k) + 1) (Some x));
  ring_free : forall t, head_ q <= t < tail_ q + capacity_ q ->
    slot_at q t = Some (Slot (2 * turn_ q t) None);
  ring_live : live_count q = length l
}.

(** [quiescent q]: no call is in progress on [q]; the storage of a slot
    holds an element exactly when its turn is odd. *)
Record quiescent (q : queue T) : Prop := {
  quiescent_capacity : 1 <= capacity_ q;
  quiescent_slots : length (slots_ q) = Z.to_nat (capacity_ q);
  quiescent_parity : forall i s, slots_ q !! i = Some s -> turn_is_odd s = occupied s;
  quiescent_turn : forall i s, slots_ q !! i = Some s -> 0 <= turn s < size_modulus
}.

(** The statements of [try_emplace] that read [head_]: the first load, the
    compare-exchange (which on failure stores the value found into [head])
    and the reload. *)
Definition loads_head p : bool :=
  match p with
  | try_emplace_load _ | try_emplace_cas _ _ | try_emplace_reload _ _ => true
  | _ => false
  end.

(** The statements of [try_pop] that read [tail_]. *)
Definition loads_tail p : bool :=
  match p with
  | try_pop_load _ | try_pop_cas _ _ | try_pop_reload _ _ => true
  | _ => false
  end.

(** The program counters of a call [try_emplace(v)]. *)
Definition in_try_emplace v p : Prop :=
  match p with
  | try_emplace_load v' | try_emplace_check _ v' | try_emplace_cas _ v'
  | try_emplace_construct _ v' | try_emplace_reload _ v' => v' = v
  | try_emplace_store _ | Return (ret_bool _) => True
  | _ => False
  end.

(** The program counters of a call [try_pop(out)]. *)
Definition in_try_pop out p : Prop :=
  match p with
  | try_pop_load out' | try_pop_check _ out' | try_pop_cas _ out'
  | try_pop_move _ out' | try_pop_reload _ out' => out' = out
  | try_pop_destroy _ _ | try_pop_store _ _ | Return (ret_try_pop true _) => True
  | Return (ret_try_pop false out') => out' = out
  | _ => False
  end.

(** The non-blocking call has won its compare-exchange: it holds a ticket
    and will return true. *)
Definition committed p : bool :=
  match p with
  | try_emplace_construct _ _ | try_emplace_store _ | Return (ret_bool true)
  | try_pop_move _ _ | try_pop_destroy _ _ | try_pop_store _ _
  | Return (ret_try_pop true _) => true
  | _ => false
  end.

End Invariants.

Section Protocol.

Context {T : Type}.
Implicit Types (q : queue T) (s : slot T) (p : pc T) (o : op T) (l : list T) (v x out : T).

(** ** The ticket protocol

    What a call in progress knows about the slot of the ticket it holds or
    has read. *)
Inductive role :=
| ProdPeek            (* has read head_, no claim on the slot *)
| ProdCas             (* has seen the slot free for its copy of head_ *)
| ProdWait            (* holds a head ticket, waits for its turn *)
| ProdEmpty           (* its turn: the slot is empty, to be constructed *)
| ProdFull            (* has constructed, not yet published *)
| ConsPeek            (* has read tail_, no claim on the slot *)
| ConsCas             (* has seen the slot full for its copy of tail_ *)
| ConsWait            (* holds a tail ticket, waits for its turn *)
| ConsTake            (* its turn: the element is to be moved out *)
| ConsFull (x : T)    (* has moved x out, not yet destroyed *)
| ConsEmpty.          (* has destroyed, not yet published *)

Definition role_of p : option (Z * role) :=
  match p with
  | try_emplace_check h _ | try_emplace_reload h _ => Some (h, ProdPeek)
  | try_emplace_cas h _ => Some (h, ProdCas)
  | emplace_spin h _ => Some (h, ProdWait)
  | emplace_construct h _ | try_emplace_construct h _ => Some (h, ProdEmpty)
  | emplace_store h | try_emplace_store h => Some (h, ProdFull)
  | try_pop_check t _ | try_pop_reload t _ => Some (t, ConsPeek)
  | try_pop_cas t _ => Some (t, ConsCas)
  | pop_spin t _ => Some (t, ConsWait)
  | pop_move t _ | try_pop_move t _ => Some (t, ConsTake)
  | pop_destroy t x | try_pop_destroy t x => Some (t, ConsFull x)
  | pop_store t _ | try_pop_store t _ => Some (t, ConsEmpty)
  | _ => None
  end.

(** The call holds a ticket handed out by [head_]. *)
Definition holds_head (r : role) : bool :=
  match r with ProdWait | ProdEmpty | ProdFull => true | _ => false end.

(** The call holds a ticket handed out by [tail_]. *)
Definition holds_tail (r : role) : bool :=
  match r with ConsWait | ConsTake | ConsFull _ | ConsEmpty => true | _ => false end.

(** The call is between the end of its wait and its publication: it is the
    only one to touch the slot. *)
Definition owns (r : role) : bool :=
  match r with
  | ProdEmpty | ProdFull | ConsTake | ConsFull _ | ConsEmpty => true
  | _ => false
  end.

Definition producer (r : role) : bool :=
  match r with
  | ProdPeek | ProdCas | ProdWait | ProdEmpty | ProdFull => true
  | _ => false
  end.

(** What the role says of the slot [s] of a ticket of generation [g]. *)
Definition role_ok (r : role) (g : Z) s : Prop :=
  match r with
  | ProdPeek | ConsPeek => True
  | ProdCas => 2 * g <= turn s
  | ProdWait => turn s <= 2 * g
  | ProdEmpty => turn s = 2 * g /\ storage s = None
  | ProdFull => turn s = 2 * g /\ is_Some (storage s)
  | ConsCas => 2 * g + 1 <= turn s
  | ConsWait => turn s <= 2 * g + 1
  | ConsTake => turn s = 2 * g + 1 /\ is_Some (storage s)
  | ConsFull x => turn s = 2 * g + 1 /\ storage s = Some x
  | ConsEmpty => turn s = 2 * g + 1 /\ storage s = None
  end.

(** A ticket held is below the counter that handed it out; a copy of the
    counter is not above it. *)
Definition ticket_ok (r : role) (t : Z) q : Prop :=
  0 <= t /\
  if producer r
  then (if holds_head r then t < head_ q else t <= head_ q)
  else (if holds_tail r then t < tail_ q else t <= tail_ q).

(** The argument of an enqueueing call. *)
Definition value_of o : option T :=
  match o with Emplace v | TryEmplace v => Some v | _ => None end.

(** The argument a program counter still carries. *)
Definition pc_value p : option T :=
  match p with
  | emplace_fetch_add v | emplace_spin _ v | emplace_construct _ v
  | try_emplace_load v | try_emplace_check _ v | try_emplace_cas _ v
  | try_emplace_construct _ v | try_emplace_reload _ v => Some v
  | _ => None
  end.

(** A thread is the call it makes and the program counter it is at. *)
Definition thread_ok q (th : op T * pc T) : Prop :=
  (forall v, pc_value th.2 = Some v -> value_of th.1 = Some v) /\
  forall t r, role_of th.2 = Some (t, r) ->
    ticket_ok r t q /\ forall s, slot_at q t = Some s -> role_ok r (turn_ q t) s.

(** The value the thread has put into the queue, once constructed. *)
Definition produced (th : op T * pc T) : list T :=
  match th.2 with
  | emplace_store _ | try_emplace_store _
  | Return ret_void | Return (ret_bool true) =>
      match value_of th.1 with Some v => [v] | None => [] end
  | _ => []
  end.

(** The value the thread has taken out of the queue, once destroyed there. *)
Definition consumed (th : op T * pc T) : list T :=
  match th.2 with
  | pop_store _ x | try_pop_store _ x
  | Return (ret_pop x) | Return (ret_try_pop true x) => [x]
  | _ => []
  end.

(** The elements that live in the slots, in the order of the indices. *)
Definition stored q : list T := omap storage (slots_ q).

(** The invariant of the queue shared by the threads [ths], while fewer
    than [n] tickets have been handed out by each counter. *)
Record par_inv (n : Z) q (ths : list (op T * pc T)) : Prop := {
  par_capacity : 1 <= capacity_ q;
  par_slots : length (slots_ q) = Z.to_nat (capacity_ q);
  par_head : 0 <= head_ q <= n;
  par_tail : 0 <= tail_ q <= n;
  inv_threads : forall i th, ths !! i = Some th -> thread_ok q th;
  par_head_unique : forall i j th th' t r r',
    ths !! i = Some th -> ths !! j = Some th' ->
    role_of th.2 = Some (t, r) -> role_of th'.2 = Some (t, r') ->
    holds_head r = true -> holds_head r' = true -> i = j;
  par_tail_unique : forall i j th th' t r r',
    ths !! i = Some th -> ths !! j = Some th' ->
    role_of th.2 = Some (t, r) -> role_of th'.2 = Some (t, r') ->
    holds_tail r = true -> holds_tail r' = true -> i = j;
  par_head_free : forall t s,
    head_ q <= t -> slot_at q t = Some s -> turn s <= 2 * turn_ q t;
  par_tail_free : forall t s,
    tail_ q <= t -> slot_at q t = Some s -> turn s <= 2 * turn_ q t + 1;
  par_turn : forall k s, slots_ q !! k = Some s -> 0 <= turn s;
  par_parity : forall k s, slots_ q !! k = Some s ->
    turn_is_odd s = occupied s \/
    exists i th t r, ths !! i = Some th /\ role_of th.2 = Some (t, r) /\
                     owns r = true /\ slot_index q t = k;
  par_conserved :
    concat (map produced ths) ≡ₚ concat (map consumed ths) ++ stored q
}.

(** The program counters of each call. *)
Definition pc_of o p : bool :=
  match o, p with
  | Emplace _, (emplace_fetch_add _ | emplace_spin _ _ | emplace_construct _ _
               | emplace_store _ | Return ret_void)
  | TryEmplace _, (try_emplace_load _ | try_emplace_check _ _ | try_emplace_cas _ _
                  | try_emplace_construct _ _ | try_emplace_store _
                  | try_emplace_reload _ _ | Return (ret_bool _))
  | Pop _, (pop_fetch_add _ | pop_spin _ _ | pop_move _ _ | pop_destroy _ _
           | pop_store _ _ | Return (ret_pop _))
  | TryPop _, (try_pop_load _ | try_pop_check _ _ | try_pop_cas _ _ | try_pop_move _ _
              | try_pop_destroy _ _ | try_pop_store _ _ | try_pop_reload _ _
              | Return (ret_try_pop _ _)) => true
  | _, _ => false
  end.

(** At any time a thread may enter a call, and any call in progress may
    take its next step. *)
Inductive sys_step :
  queue T * list (op T * pc T) -> queue T * list (op T * pc T) -> Prop :=
| sys_call q ths o :
    sys_step (q, ths) (q, ths ++ [(o, entry o)])
| sys_thread q ths i o p p' q' ev :
    ths !! i = Some (o, p) -> step p q = Some (p', q', ev) ->
    sys_step (q, ths) (q', <[i:=(o, p')]> ths).

(** The states reached from a fresh queue in [n] steps. *)
Inductive sys_reachable (C addr : Z) : nat -> queue T * list (op T * pc T) -> Prop :=
| reachable_fresh : sys_reachable C addr 0 (fresh C addr, [])
| reachable_step n st st' :
    sys_reachable C addr n st -> sys_step st st' ->
    sys_reachable C addr (S n) st'.

(** A schedule says which thread enters a call or takes a step next. *)
Inductive action :=
| Call (o : op T)
| Step (i : nat).

Definition sys_do (st : queue T * list (op T * pc T)) (a : action)
  : option (queue T * list (op T * pc T)) :=
  match a with
  | Call o => Some (st.1, st.2 ++ [(o, entry o)])
  | Step i =>
      th ← st.2 !! i;
      r ← step th.2 st.1;
      Some (r.1.2, <[i:=(th.1, r.1.1)]> st.2)
  end.

Fixpoint sys_run (st : queue T * list (op T * pc T)) (acts : list action)
  : option (queue T * list (op T * pc T)) :=
  match acts with
  | [] => Some st
  | a :: acts' => st' ← sys_do st a; sys_run st' acts'
  end.

(** The constructions and destructions of elements the step of an action
    performs. *)
Definition events_by (st : queue T * list (op T * pc T)) (a : action) : list event :=
  match a with
  | Call _ => []
  | Step i =>
      match st.2 !! i ≫= (fun th => step th.2 st.1) with
      | Some r => r.2
      | None => []
      end
  end.

(** The events of a schedule, in the order of its steps. *)
Fixpoint sys_events (st : queue T * list (op T * pc T)) (acts : list action)
  : list event :=
  match acts with
  | [] => []
  | a :: acts' =>
      events_by st a ++
      match sys_do st a with
      | Some st' => sys_events st' acts'
      | None => []
      end
  end.

End Protocol.

(** ** Tickets taken and slots claimed *)

Section Tickets.

Context {T : Type}.
Implicit Types (p : pc T).

(** The ticket of the slot whose storage the call constructs, moves from or
    destroys next, or whose turn it stores next: the call has left its wait
    (or won its compare-exchange) and has not yet published the turn. *)
Definition claimed_slot p : option Z :=
  match p with
  | emplace_construct h _ | emplace_store h
  | try_emplace_construct h _ | try_emplace_store h => Some h
  | pop_move t _ | pop_destroy t _ | pop_store t _
  | try_pop_move t _ | try_pop_destroy t _ | try_pop_store t _ => Some t
  | _ => None
  end.

(** The call has taken a ticket from [head_], by [fetch_add] or by a
    successful compare-exchange. *)
Definition took_head p : bool :=
  match p with
  | emplace_spin _ _ | emplace_construct _ _ | emplace_store _
  | try_emplace_construct _ _ | try_emplace_store _
  | Return ret_void | Return (ret_bool true) => true
  | _ => false
  end.

(** The call has taken a ticket from [tail_]. *)
Definition took_tail p : bool :=
  match p with
  | pop_spin _ _ | pop_move _ _ | pop_destroy _ _ | pop_store _ _
  | try_pop_move _ _ | try_pop_destroy _ _ | try_pop_store _ _
  | Return (ret_pop _) | Return (ret_try_pop true _) => true
  | _ => false
  end.

(** The call has a ticket of [head_] and has not yet constructed its
    element. *)
Definition enqueue_pending p : bool :=
  match p with
  | emplace_spin _ _ | emplace_construct _ _ | try_emplace_construct _ _ => true
  | _ => false
  end.

(** The call has a ticket of [tail_] and has not yet destroyed the element
    it takes out. *)
Definition dequeue_pending p : bool :=
  match p with
  | pop_spin _ _ | pop_move _ _ | pop_destroy _ _
  | try_pop_move _ _ | try_pop_destroy _ _ => true
  | _ => false
  end.

(** The call has constructed its element and not yet stored the odd turn
    that publishes it. *)
Definition unpublished p : bool :=
  match p with
  | emplace_store _ | try_emplace_store _ => true
  | _ => false
  end.

(** The call has destroyed the element of its slot and not yet stored the
    even turn that frees the slot. *)
Definition unreleased p : bool :=
  match p with
  | pop_store _ _ | try_pop_store _ _ => true
  | _ => false
  end.

(** The number of calls whose program counter satisfies [f]. *)
Definition count (f : pc T -> bool) (ths : list (op T * pc T)) : nat :=
  length (List.filter (fun th => f th.2) ths).

(** The steps the call still takes before it returns, once it has claimed
    its slot. *)
Definition remaining p : nat :=
  match p with
  | pop_move _ _ | try_pop_move _ _ => 3
  | emplace_construct _ _ | try_emplace_construct _ _
  | pop_destroy _ _ | try_pop_destroy _ _ => 2
  | emplace_store _ | try_emplace_store _ | pop_store _ _ | try_pop_store _ _ => 1
  | _ => 0
  end.

(** [size()] while other threads run: its two loads are two steps, which
    steps of the other threads may separate, and the language does not fix
    which of the two operands of the subtraction is loaded first.
    [head_first] tells the order, [q1] is the queue at the first load and
    [q2] the queue at the second. *)
Definition size_loads (head_first : bool) (q1 q2 : queue T) : Z :=
  if head_first
  then to_ptrdiff (wrap (head_ q1 - tail_ q2))
  else to_ptrdiff (wrap (head_ q2 - tail_ q1)).

End Tickets.

(** ** The allocator used where [new] does not align *)

(** What a call of [aligned_allocator<T>::allocate] does: it returns the
    address of a block or throws. *)
Inductive allocation :=
| Allocated (p : Z)
| Throws_bad_array_new_length
| Throws_bad_alloc.

(** [std::numeric_limits<std::size_t>::max()] *)
Definition size_max : Z := size_modulus - 1.

(** [aligned_allocator<T>::allocate(n)] for a type [T] of size [sizeof_T]
    and alignment [alignof_T].  [memalign alignment size] stands for
    [posix_memalign(&p, alignment, size)] and for
    [_aligned_malloc(size, alignment)]: the address of the block, or [None]
    when the call fails. *)
Definition aligned_allocate (sizeof_T alignof_T : Z) (memalign : Z -> Z -> option Z)
    (n : Z) : allocation :=
  if n >? size_max / sizeof_T then Throws_bad_array_new_length
  else match memalign alignof_T (wrap (sizeof_T * n)) with
       | Some p => Allocated p
       | None => Throws_bad_alloc
       end.

(** [aligned_allocator<slot<T>>] as the allocator of a queue; the slots
    have size [sizeof_slot] and alignment [hardware_interference_size]. *)
Definition aligned_allocator (sizeof_slot : Z) (memalign : heap -> Z -> Z -> option Z)
    : Allocator :=
  fun h n =>
    match aligned_allocate sizeof_slot hardware_interference_size (memalign h) n with
    | Allocated p => Some p
    | _ => None
    end.

(** ** Runs of blocking calls *)

Section Runs.

Context {T : Type}.

(** The values of the calls [emplace(v)] among [ops]. *)
Definition pushed (ops : list (op T)) : list T :=
  omap (fun o => match o with Emplace v => Some v | _ => None end) ops.

Definition is_pop (o : op T) : bool :=
  match o with Pop _ => true | _ => false end.

(** The call is an [emplace] or a [pop]. *)
Definition blocking (o : op T) : bool :=
  match o with Emplace _ | Pop _ => true | _ => false end.

End Runs.

(** ** The fuzz test of [mpmc_queue_test.cpp] *)

(** [for (auto j = i; j < num_ops; j += num_threads)]: the values [j]
    takes, [fuel] bounding the number of iterations. *)
Fixpoint fuzz_loop (fuel : nat) (j num_ops num_threads : Z) : list Z :=
  match fuel with
  | O => []
  | S fuel' =>
      if j <? num_ops
      then j :: fuzz_loop fuel' (wrap (j + num_threads)) num_ops num_threads
      else []
  end.

(** The values [j] of thread [i]: producer [i] calls [q.push(j)] for each,
    consumer [i] calls [q.pop(v)] once for each. *)
Definition fuzz_thread (num_ops num_threads i : Z) : list Z :=
  fuzz_loop (Z.to_nat num_ops) i num_ops num_threads.

(** The values pushed by the producers [0 .. num_threads - 1]. *)
Definition fuzz_values (num_ops num_threads : Z) : list Z :=
  concat (map (fuzz_thread num_ops num_threads) (seqZ 0 num_threads)).

(** [thread_sum += v] for the values [vs] a consumer pops, in [uint64_t]. *)
Definition thread_sum (vs : list Z) : Z :=
  fold_left (fun a v => wrap (a + v)) vs 0.

(** [sum += thread_sum] by the consumers, whose values are [vss]. *)
Definition fuzz_sum (vss : list (list Z)) : Z :=
  fold_left (fun a vs => wrap (a + thread_sum vs)) vss 0.

(** [num_ops * (num_ops - 1) / 2] in [uint64_t]. *)
Definition fuzz_expected (num_ops : Z) : Z :=
  wrap (num_ops * wrap (num_ops - 1)) / 2.

(** The sum of a list of integers. *)
Definition total (l : list Z) : Z := foldr Z.add 0 l.

(** ** The elements constructed and moved out along a schedule *)

Section History.

Context {T : Type}.
Implicit Types (st : queue T * list (op T * pc T)) (p : pc T) (q : queue T).

(** The head ticket the call holds and has not yet constructed for. *)
Definition unbuilt p : option Z :=
  match p with
  | emplace_spin h _ | emplace_construct h _ | try_emplace_construct h _ => Some h
  | _ => None
  end.

(** The tail ticket the call holds and has not yet moved from. *)
Definition untaken p : option Z :=
  match p with
  | pop_spin t _ | pop_move t _ | try_pop_move t _ => Some t
  | _ => None
  end.

(** [slot.construct(args...)]: the ticket and the element the next step of
    the call constructs. *)
Definition constructs p : list (Z * T) :=
  match p with
  | emplace_construct h v | try_emplace_construct h v => [(h, v)]
  | _ => []
  end.

(** [v = slot.move()]: the ticket and the element the next step of the
    call moves out of the queue [q]. *)
Definition moves q p : list (Z * T) :=
  match p with
  | pop_move t _ | try_pop_move t _ =>
      match slot_at q t ≫= slot_move with
      | Some x => [(t, x)]
      | None => []
      end
  | _ => []
  end.

Definition constructed_by st (a : action (T:=T)) : list (Z * T) :=
  match a with
  | Step i => match st.2 !! i with Some th => constructs th.2 | None => [] end
  | Call _ => []
  end.

Definition moved_by st (a : action (T:=T)) : list (Z * T) :=
  match a with
  | Step i => match st.2 !! i with Some th => moves st.1 th.2 | None => [] end
  | Call _ => []
  end.

(** The elements constructed along the schedule [acts] from the state
    [st], each with its ticket, in the order of their construction. *)
Fixpoint constructed st (acts : list (action (T:=T))) : list (Z * T) :=
  match acts with
  | [] => []
  | a :: acts' =>
      constructed_by st a ++
      match sys_do st a with
      | Some st' => constructed st' acts'
      | None => []
      end
  end.

(** The elements moved out along the schedule. *)
Fixpoint moved st (acts : list (action (T:=T))) : list (Z * T) :=
  match acts with
  | [] => []
  | a :: acts' =>
      moved_by st a ++
      match sys_do st a with
      | Some st' => moved st' acts'
      | None => []
      end
  end.

(** The element a dequeueing call has moved out of its slot. *)
Definition moved_out (th : op T * pc T) : list T :=
  match th.2 with
  | pop_destroy _ x | try_pop_destroy _ x | pop_store _ x | try_pop_store _ x
  | Return (ret_pop x) | Return (ret_try_pop true x) => [x]
  | _ => []
  end.

(** What the elements constructed ([made]) and moved out ([taken]) so far
    have to do with the queue and the calls in progress. *)
Record hist_inv q (ths : list (op T * pc T)) (made taken : list (Z * T)) : Prop := {
  hist_slots : forall k s x, slots_ q !! k = Some s -> storage s = Some x ->
    exists t, 0 <= t /\ slot_index q t = k /\
      2 * turn_ q t <= turn s <= 2 * turn_ q t + 1 /\ (t, x) ∈ made;
  hist_made : forall t v, (t, v) ∈ made ->
    0 <= t < head_ q /\ forall j th, ths !! j = Some th -> unbuilt th.2 <> Some t;
  hist_taken : forall t x, (t, x) ∈ taken ->
    0 <= t < tail_ q /\ forall j th, ths !! j = Some th -> untaken th.2 <> Some t;
  hist_made_once : NoDup (map fst made);
  hist_taken_once : NoDup (map fst taken);
  hist_delivered : forall t x, (t, x) ∈ taken -> (t, x) ∈ made;
  hist_produced : concat (map produced ths) ≡ₚ map snd made;
  hist_moved_out : concat (map moved_out ths) ≡ₚ map snd taken
}.

End History.

(** ** The element type of the test program *)

(** [test_type::constructed], the set of the objects alive, fed with the
    constructions and destructions of elements in the slots (an object in
    slot [i] is known by its address, which is that of the storage of the
    slot).  The constructors assert that the object is not in the set, the
    destructor that it is; [None] is a failed assertion. *)
Fixpoint test_type_replay (live : list nat) (tr : list event) : option (list nat) :=
  match tr with
  | [] => Some live
  | EvConstruct i :: tr' =>
      if decide (i ∈ live) then None else test_type_replay (i :: live) tr'
  | EvDestroy i :: tr' =>
      if decide (i ∈ live)
      then test_type_replay (filter (fun j => j <> i) live) tr'
      else None
  | _ :: tr' => test_type_replay live tr'
  end.

(** ** The addresses of the slots *)

(** [&slots_[i]], for slots of size [sizeof_slot]. *)
Definition slot_address {T} (q : queue T) (sizeof_slot i : Z) : Z :=
  slots_ptr q + i * sizeof_slot.

(** The cache line of the byte at address [a]. *)
Definition cache_line (a : Z) : Z := a / hardware_interference_size.

(** ** Concrete queues of integers, for the scenarios of the test program *)

(** Two producers' worth of calls on a queue of capacity 2. *)
Definition demo_ops : list (op Z) :=
  [Emplace 10; TryEmplace 20; TryEmplace 30; Pop 0; Emplace 40; TryPop 0; Pop 0; TryPop 7].

Definition demo_rs : list (retval Z) :=
  [ret_void; ret_bool true; ret_bool false; ret_pop 10; ret_void;
   ret_try_pop true 20; ret_pop 40; ret_try_pop false 7].

Definition demo_queue : queue Z :=
  Queue 2 4096 [Slot 4 None; Slot 2 None] 3 3.

Definition demo_trace : list event :=
  [EvConstruct 0; EvConstruct 1; EvDestroy 0; EvConstruct 0; EvDestroy 1; EvDestroy 0]%nat.

(** A queue of capacity 2 holding one element. *)
Definition demo_half : queue Z := Queue 2 4096 [Slot 1 (Some 10); Slot 0 None] 1 0.

(** A consumer has taken its ticket on the empty queue and waits. *)
Definition demo_waiting : queue Z * list (op Z * pc Z) :=
  (with_tail (fresh 2 4096) 1, [(Pop 0, pop_spin 0 0)]).

(** On a queue of capacity 2 a consumer takes its ticket first and waits;
    a producer then puts 7 in, and the consumer takes it out. *)
Definition demo_schedule : list (action (T:=Z)) :=
  [Call (Pop 0); Step 0%nat; Step 0%nat; Call (Emplace 7); Step 1%nat; Step 1%nat;
   Step 1%nat; Step 0%nat; Step 1%nat; Step 0%nat; Step 0%nat; Step 0%nat; Step 0%nat].

Definition demo_done : queue Z :=
  Queue 2 4096 [Slot 2 None; Slot 0 None] 1 1.

(** On a queue of capacity 1 a producer has constructed 7 and not yet stored
    the turn; a second producer has the next ticket and waits. *)
Definition demo_full_schedule : list (action (T:=Z)) :=
  [Call (Emplace 7); Step 0%nat; Step 0%nat; Step 0%nat;
   Call (Emplace 8); Step 1%nat; Step 1%nat; Step 1%nat].

Definition demo_full : queue Z * list (op Z * pc Z) :=
  (Queue 1 4096 [Slot 0 (Some 7)] 2 0,
   [(Emplace 7, emplace_store 0); (Emplace 8, emplace_spin 1 8)]).

(** ** Schedules for the examples *)

(** A producer has taken its ticket and has left its wait. *)
Definition demo_claim_schedule : list (action (T:=Z)) :=
  [Call (Emplace 7); Step 0%nat; Step 0%nat].

Definition demo_claimed : queue Z * list (op Z * pc Z) :=
  (with_head (fresh 2 4096) 1, [(Emplace 7, emplace_construct 0 7)]).

(** The fuzz test with two values and two threads of each kind: the second
    producer and the first consumer are the first to take their tickets. *)
Definition fuzz_schedule : list (action (T:=Z)) :=
  [Call (Emplace 0); Call (Emplace 1); Call (Pop 9); Call (Pop 9);
   Step 2%nat; Step 1%nat; Step 0%nat; Step 3%nat;
   Step 0%nat; Step 0%nat; Step 0%nat;
   Step 3%nat; Step 3%nat; Step 3%nat; Step 3%nat;
   Step 1%nat; Step 1%nat; Step 1%nat;
   Step 2%nat; Step 2%nat; Step 2%nat; Step 2%nat].

Definition fuzz_ops : list (op Z) := [Emplace 0; Emplace 1; Pop 9; Pop 9].

Definition fuzz_rs : list (retval Z) := [ret_void; ret_void; ret_pop 1; ret_pop 0].

Definition fuzz_done : queue Z := Queue 2 4096 [Slot 2 None; Slot 2 None] 2 2.

(** [size()] among a producer and, between its two loads, a consumer and a
    second producer that take their tickets: the queues at the two loads. *)
Definition demo_first_load : list (action (T:=Z)) := [Call (Emplace 7); Step 0%nat].

Definition demo_second_load : list (action (T:=Z)) :=
  [Call (Pop 0); Step 1%nat; Call (Emplace 8); Step 2%nat].

Definition demo_loads : queue Z * queue Z :=
  (with_head (fresh 2 4096) 1, with_tail (with_head (fresh 2 4096) 2) 1).

(** A non-blocking producer has seen its slot free; a blocking producer
    takes the ticket before the compare-exchange. *)
Definition demo_retry_schedule : list (action (T:=Z)) :=
  [Call (TryEmplace 5); Step 0%nat; Step 0%nat; Call (Emplace 7); Step 1%nat].

Definition demo_retry : queue Z * list (op Z * pc Z) :=
  (with_head (fresh 2 4096) 1,
   [(TryEmplace 5, try_emplace_cas 0 5); (Emplace 7, emplace_spin 0 7)]).

Global Arguments wrap : simpl never.
Global Arguments run : simpl never.
Global Arguments idx_ : simpl never.
Global Arguments turn_ : simpl never.
Global Arguments slot_index : simpl never.
Global Arguments slot_at : simpl never.
Global Arguments with_slot : simpl never.
Global Arguments with_head : simpl never.
Global Arguments with_tail : simpl never.

(** * Properties *)

(** ** Machine integers *)

Lemma size_modulus_eq : size_modulus = 18446744073709551616.
Proof. reflexivity. Qed.

Lemma wrap_small x : 0 <= x < size_modulus -> wrap x = x.
Proof. intros H. unfold wrap. by apply Z.mod_small. Qed.

Lemma wrap_range x : 0 <= wrap x < size_modulus.
Proof. unfold wrap. apply Z.mod_pos_bound. by rewrite size_modulus_eq. Qed.

Lemma wrap_odd x : Z.odd (wrap x) = Z.odd x.
Proof.
  unfold wrap. rewrite (Z.div_mod x size_modulus) at 2 by (rewrite size_modulus_eq; lia).
  rewrite Z.add_comm, size_modulus_eq.
  replace (18446744073709551616 * (x `div` 18446744073709551616))
    with (2 * (9223372036854775808 * (x `div` 18446744073709551616))) by lia.
  by rewrite Z.odd_add_mul_2.
Qed.

Section Theory.

Context {T : Type}.
Implicit Types (q : queue T) (s : slot T) (p : pc T) (l : list T) (v x out : T).

Lemma turn_is_odd_odd s : turn_is_odd s = Z.odd (turn s).
Proof.
  unfold turn_is_odd. change 1 with (Z.ones 1). rewrite Z.land_ones by lia.
  rewrite Zmod_odd. by destruct (Z.odd (turn s)).
Qed.

(** ** Projections of the updated queue *)

Lemma slot_at_with_head q h i : slot_at (with_head q h) i = slot_at q i.
Proof. reflexivity. Qed.

Lemma slot_at_with_tail q t i : slot_at (with_tail q t) i = slot_at q i.
Proof. reflexivity. Qed.

Lemma slot_index_with_slot q i s j : slot_index (with_slot q i s) j = slot_index q j.
Proof. reflexivity. Qed.

Lemma turn_with_slot q i s j : turn_ (with_slot q i s) j = turn_ q j.
Proof. reflexivity. Qed.

Lemma slot_at_with_slot_eq q i s s0 :
  slot_at q i = Some s0 -> slot_at (with_slot q i s) i = Some s.
Proof.
  unfold slot_at, with_slot, slot_index, idx_. simpl. intros H.
  apply list_lookup_insert_eq. by eapply lookup_lt_Some.
Qed.

Lemma slot_at_with_slot_ne q i s j :
  slot_index q i <> slot_index q j -> slot_at (with_slot q i s) j = slot_at q j.
Proof.
  unfold slot_at, with_slot, slot_index, idx_. simpl. intros H.
  by apply list_lookup_insert_ne.
Qed.

Lemma with_slot_with_slot q i s s' :
  with_slot (with_slot q i s) i s' = with_slot q i s'.
Proof.
  unfold with_slot, slot_index, idx_. simpl. by rewrite list_insert_insert_eq.
Qed.

(** ** Running alone *)

Lemma run_step fuel p q :
  returned p = false ->
  run (S fuel) p q =
    match step p q with
    | None => Undefined
    | Some (p', q', ev) =>
        match run fuel p' q' with
        | Done (r, q'', tr) => Done (r, q'', ev ++ tr)
        | Spinning => Spinning
        | Undefined => Undefined
        end
    end.
Proof. by destruct p. Qed.

Lemma run_return fuel r q : run fuel (Return r) q = Done (r, q, []).
Proof. by destruct fuel. Qed.

(** More fuel does not change the result of a call that returned. *)
Lemma run_mono fuel fuel' p q a :
  run fuel p q = Done a -> (fuel <= fuel')%nat -> run fuel' p q = Done a.
Proof.
  revert fuel' p q a. induction fuel as [|fuel IH]; intros fuel' p q a H Hle.
  - destruct p; simpl in H; try discriminate. by rewrite run_return.
  - destruct (returned p) eqn:Hp.
    + destruct p; try discriminate. rewrite run_return in *. done.
    + destruct fuel' as [|fuel']; [lia|].
      rewrite run_step in * by done.
      destruct (step p q) as [[[p' q'] ev]|]; [|done].
      destruct (run fuel p' q') as [[[r q''] tr]| |] eqn:Hrun; try done.
      rewrite (IH fuel' p' q' _ Hrun) by lia. done.
Qed.

(** The same holds for undefined behaviour. *)
Lemma run_mono_undefined fuel fuel' p q :
  run fuel p q = Undefined -> (fuel <= fuel')%nat -> run fuel' p q = Undefined.
Proof.
  revert fuel' p q. induction fuel as [|fuel IH]; intros fuel' p q H Hle.
  - destruct p; simpl in H; discriminate.
  - destruct (returned p) eqn:Hp.
    + destruct p; try discriminate.
    + destruct fuel' as [|fuel']; [lia|].
      rewrite run_step in * by done.
      destruct (step p q) as [[[p' q'] ev]|]; [|done].
      destruct (run fuel p' q') as [[[r q''] tr]| |] eqn:Hrun; try done.
      rewrite (IH fuel' p' q' Hrun) by lia. done.
Qed.

(** ** What each call does when the thread runs alone *)

Lemma turn_with_head q h j : turn_ (with_head q h) j = turn_ q j.
Proof. reflexivity. Qed.

Lemma turn_with_tail q t j : turn_ (with_tail q t) j = turn_ q j.
Proof. reflexivity. Qed.

Lemma slot_index_with_head q h j : slot_index (with_head q h) j = slot_index q j.
Proof. reflexivity. Qed.

Lemma slot_index_with_tail q t j : slot_index (with_tail q t) j = slot_index q j.
Proof. reflexivity. Qed.

Ltac queue_simpl :=
  rewrite ?slot_at_with_head, ?slot_at_with_tail, ?turn_with_head, ?turn_with_tail,
    ?slot_index_with_head, ?slot_index_with_tail, ?slot_index_with_slot,
    ?turn_with_slot, ?with_slot_with_slot.

Ltac queue_simpl_in H :=
  rewrite ?slot_at_with_head, ?slot_at_with_tail, ?turn_with_head, ?turn_with_tail,
    ?slot_index_with_head, ?slot_index_with_tail, ?slot_index_with_slot,
    ?turn_with_slot, ?with_slot_with_slot in H.

Ltac run_one := (rewrite run_step by done); simpl step; cbn beta iota; queue_simpl.

Lemma emplace_returns fuel q v s :
  slot_at q (head_ q) = Some s ->
  turn s = wrap (turn_ q (head_ q) * 2) ->
  (4 <= fuel)%nat ->
  emplace fuel v q
  = Done (ret_void, after_emplace q v, [EvConstruct (slot_index q (head_ q))]).
Proof.
  intros Hs Ht Hfuel. apply run_mono with 4%nat; [|done].
  unfold emplace, after_emplace.
  run_one. run_one. rewrite Hs. simpl. rewrite Ht, Z.eqb_refl.
  run_one. rewrite Hs. simpl.
  run_one. erewrite slot_at_with_slot_eq by (queue_simpl; done). simpl.
  queue_simpl. rewrite ?run_return. done.
Qed.

Lemma emplace_spin_forever fuel q h v s :
  slot_at q h = Some s ->
  turn s <> wrap (turn_ q h * 2) ->
  run fuel (emplace_spin h v) q = Spinning.
Proof.
  intros Hs Ht. induction fuel as [|fuel IH]; [done|].
  run_one. rewrite Hs. simpl.
  destruct (Z.eqb_spec (wrap (turn_ q h * 2)) (turn s)); [congruence|].
  by rewrite IH.
Qed.

Lemma emplace_spins fuel q v s :
  slot_at q (head_ q) = Some s ->
  turn s <> wrap (turn_ q (head_ q) * 2) ->
  emplace fuel v q = Spinning.
Proof.
  intros Hs Ht. unfold emplace. destruct fuel as [|fuel]; [done|].
  run_one. by erewrite emplace_spin_forever.
Qed.

Lemma try_emplace_returns_true fuel q v s :
  slot_at q (head_ q) = Some s ->
  turn s = wrap (turn_ q (head_ q) * 2) ->
  (5 <= fuel)%nat ->
  try_emplace fuel v q
  = Done (ret_bool true, after_emplace q v, [EvConstruct (slot_index q (head_ q))]).
Proof.
  intros Hs Ht Hfuel. apply run_mono with 5%nat; [|done].
  unfold try_emplace, after_emplace.
  run_one. run_one. rewrite Hs. simpl. rewrite Ht, Z.eqb_refl.
  run_one. rewrite Z.eqb_refl.
  run_one. rewrite Hs. simpl.
  run_one. erewrite slot_at_with_slot_eq by (queue_simpl; done). simpl.
  queue_simpl. rewrite ?run_return. done.
Qed.

Lemma try_emplace_returns_false fuel q v s :
  slot_at q (head_ q) = Some s ->
  turn s <> wrap (turn_ q (head_ q) * 2) ->
  (3 <= fuel)%nat ->
  try_emplace fuel v q = Done (ret_bool false, q, []).
Proof.
  intros Hs Ht Hfuel. apply run_mono with 3%nat; [|done].
  unfold try_emplace.
  run_one. run_one. rewrite Hs. simpl.
  destruct (Z.eqb_spec (wrap (turn_ q (head_ q) * 2)) (turn s)); [congruence|].
  run_one. rewrite Z.eqb_refl. rewrite ?run_return. done.
Qed.

Lemma pop_returns fuel q out t x :
  slot_at q (tail_ q) = Some (Slot t (Some x)) ->
  t = wrap (turn_ q (tail_ q) * 2 + 1) ->
  (5 <= fuel)%nat ->
  pop fuel out q
  = Done (ret_pop x, after_pop q, [EvDestroy (slot_index q (tail_ q))]).
Proof.
  intros Hs Ht Hfuel. apply run_mono with 5%nat; [|done].
  unfold pop, after_pop.
  run_one. run_one. rewrite Hs. simpl. rewrite Ht, Z.eqb_refl.
  run_one. rewrite Hs. simpl.
  run_one. rewrite Hs. simpl.
  run_one. erewrite slot_at_with_slot_eq by (queue_simpl; done). simpl.
  queue_simpl. rewrite ?run_return. done.
Qed.

Lemma pop_spin_forever fuel q t out s :
  slot_at q t = Some s ->
  turn s <> wrap (turn_ q t * 2 + 1) ->
  run fuel (pop_spin t out) q = Spinning.
Proof.
  intros Hs Ht. induction fuel as [|fuel IH]; [done|].
  run_one. rewrite Hs. simpl.
  destruct (Z.eqb_spec (wrap (turn_ q t * 2 + 1)) (turn s)); [congruence|].
  by rewrite IH.
Qed.

Lemma pop_spins fuel q out s :
  slot_at q (tail_ q) = Some s ->
  turn s <> wrap (turn_ q (tail_ q) * 2 + 1) ->
  pop fuel out q = Spinning.
Proof.
  intros Hs Ht. unfold pop. destruct fuel as [|fuel]; [done|].
  run_one. by erewrite pop_spin_forever.
Qed.

Lemma try_pop_returns_true fuel q out t x :
  slot_at q (tail_ q) = Some (Slot t (Some x)) ->
  t = wrap (turn_ q (tail_ q) * 2 + 1) ->
  (6 <= fuel)%nat ->
  try_pop fuel out q
  = Done (ret_try_pop true x, after_pop q, [EvDestroy (slot_index q (tail_ q))]).
Proof.
  intros Hs Ht Hfuel. apply run_mono with 6%nat; [|done].
  unfold try_pop, after_pop.
  run_one. run_one. rewrite Hs. simpl. rewrite Ht, Z.eqb_refl.
  run_one. rewrite Z.eqb_refl.
  run_one. rewrite Hs. simpl.
  run_one. rewrite Hs. simpl.
  run_one. erewrite slot_at_with_slot_eq by (queue_simpl; done). simpl.
  queue_simpl. rewrite ?run_return. done.
Qed.

Lemma try_pop_returns_false fuel q out s :
  slot_at q (tail_ q) = Some s ->
  turn s <> wrap (turn_ q (tail_ q) * 2 + 1) ->
  (3 <= fuel)%nat ->
  try_pop fuel out q = Done (ret_try_pop false out, q, []).
Proof.
  intros Hs Ht Hfuel. apply run_mono with 3%nat; [|done].
  unfold try_pop.
  run_one. run_one. rewrite Hs. simpl.
  destruct (Z.eqb_spec (wrap (turn_ q (tail_ q) * 2 + 1)) (turn s)); [congruence|].
  run_one. rewrite Z.eqb_refl. rewrite ?run_return. done.
Qed.

(** ** Ticket arithmetic *)

Lemma idx_range q t : 1 <= capacity_ q -> 0 <= idx_ q t < capacity_ q.
Proof. intros H. unfold idx_. apply Z.mod_pos_bound. lia. Qed.

Lemma turn_range q t : 1 <= capacity_ q -> 0 <= t -> 0 <= turn_ q t <= t.
Proof.
  intros HC Ht. unfold turn_. split.
  - apply Z.div_pos; lia.
  - apply Z.div_le_upper_bound; nia.
Qed.

Lemma idx_add_capacity q t : 1 <= capacity_ q -> idx_ q (t + capacity_ q) = idx_ q t.
Proof.
  intros H. unfold idx_.
  replace (t + capacity_ q) with (t + 1 * capacity_ q) by lia.
  apply Z.mod_add. lia.
Qed.

Lemma turn_add_capacity q t :
  1 <= capacity_ q -> turn_ q (t + capacity_ q) = turn_ q t + 1.
Proof.
  intros H. unfold turn_.
  replace (t + capacity_ q) with (t + 1 * capacity_ q) by lia.
  apply Z.div_add. lia.
Qed.

(** Two tickets less than [capacity_] apart use different slots. *)
Lemma idx_ne q t t' :
  1 <= capacity_ q -> t <> t' -> - capacity_ q < t - t' < capacity_ q ->
  idx_ q t <> idx_ q t'.
Proof.
  intros HC Hne Hd. unfold idx_. intros Heq.
  pose proof (Z.div_mod t (capacity_ q)) as H1.
  pose proof (Z.div_mod t' (capacity_ q)) as H2.
  rewrite Heq in H1.
  set (d := t `div` capacity_ q - t' `div` capacity_ q).
  assert (Hd' : t - t' = capacity_ q * d) by (unfold d; lia).
  assert (d = 0) by nia.
  subst d. lia.
Qed.

Lemma slot_index_ne q t t' :
  1 <= capacity_ q -> t <> t' -> - capacity_ q < t - t' < capacity_ q ->
  slot_index q t <> slot_index q t'.
Proof.
  intros HC Hne Hd. unfold slot_index.
  pose proof (idx_range q t HC). pose proof (idx_range q t' HC).
  pose proof (idx_ne q t t' HC Hne Hd). lia.
Qed.

Lemma slot_index_lt q t :
  1 <= capacity_ q -> length (slots_ q) = Z.to_nat (capacity_ q) ->
  (slot_index q t < length (slots_ q))%nat.
Proof.
  intros HC Hlen. unfold slot_index. pose proof (idx_range q t HC). lia.
Qed.

(** ** Counting the slots whose turn is odd *)

Lemma filter_length_le {A} (f : A -> bool) (xs : list A) :
  (length (List.filter f xs) <= length xs)%nat.
Proof. induction xs as [|a xs IH]; simpl; [lia|]. destruct (f a); simpl; lia. Qed.

Lemma filter_length_insert {A} (f : A -> bool) (xs : list A) i a b :
  xs !! i = Some a ->
  (length (List.filter f (<[i:=b]> xs)) + (if f a then 1 else 0)
   = length (List.filter f xs) + (if f b then 1 else 0))%nat.
Proof.
  revert i. induction xs as [|c xs IH]; intros i Hi; [done|].
  destruct i as [|i]; simpl in *.
  - injection Hi as ->. destruct (f a), (f b); simpl; lia.
  - specialize (IH i Hi). destruct (f c); simpl; lia.
Qed.

(** ** The ring invariant of a quiescent queue *)

Lemma slots_after_emplace q v :
  slots_ (after_emplace q v)
  = <[slot_index q (head_ q) := Slot (wrap (turn_ q (head_ q) * 2 + 1)) (Some v)]> (slots_ q).
Proof. reflexivity. Qed.

Lemma slots_after_pop q :
  slots_ (after_pop q)
  = <[slot_index q (tail_ q) := Slot (wrap (turn_ q (tail_ q) * 2 + 2)) None]> (slots_ q).
Proof. reflexivity. Qed.

Lemma slot_at_after_emplace_eq q v :
  1 <= capacity_ q -> length (slots_ q) = Z.to_nat (capacity_ q) ->
  slot_at (after_emplace q v) (head_ q)
  = Some (Slot (wrap (turn_ q (head_ q) * 2 + 1)) (Some v)).
Proof.
  intros HC Hlen. unfold slot_at. rewrite slots_after_emplace.
  apply list_lookup_insert_eq. by apply slot_index_lt.
Qed.

Lemma slot_at_after_emplace_ne q v t :
  slot_index q (head_ q) <> slot_index q t ->
  slot_at (after_emplace q v) t = slot_at q t.
Proof.
  intros Hne. unfold slot_at. rewrite slots_after_emplace.
  by apply list_lookup_insert_ne.
Qed.

Lemma slot_at_after_pop_eq q :
  1 <= capacity_ q -> length (slots_ q) = Z.to_nat (capacity_ q) ->
  slot_at (after_pop q) (tail_ q)
  = Some (Slot (wrap (turn_ q (tail_ q) * 2 + 2)) None).
Proof.
  intros HC Hlen. unfold slot_at. rewrite slots_after_pop.
  apply list_lookup_insert_eq. by apply slot_index_lt.
Qed.

Lemma slot_at_after_pop_ne q t :
  slot_index q (tail_ q) <> slot_index q t ->
  slot_at (after_pop q) t = slot_at q t.
Proof.
  intros Hne. unfold slot_at. rewrite slots_after_pop.
  by apply list_lookup_insert_ne.
Qed.

Lemma slot_at_idx q t t' : idx_ q t = idx_ q t' -> slot_at q t = slot_at q t'.
Proof. intros H. unfold slot_at, slot_index. by rewrite H. Qed.

Lemma odd_double t : Z.odd (2 * t) = false.
Proof. by rewrite Z.odd_mul. Qed.

Lemma odd_double_succ t : Z.odd (2 * t + 1) = true.
Proof. by rewrite Z.add_comm, Z.odd_add_mul_2. Qed.

Lemma odd_twice_succ t : Z.odd (t * 2 + 1) = true.
Proof. rewrite Z.mul_comm. apply odd_double_succ. Qed.

Lemma odd_twice_plus_two t : Z.odd (t * 2 + 2) = false.
Proof. replace (t * 2 + 2) with (2 * (t + 1)) by lia. apply odd_double. Qed.

Lemma odd_twice t : Z.odd (t * 2) = false.
Proof. rewrite Z.mul_comm. apply odd_double. Qed.

Lemma live_count_after_emplace q v s :
  slot_at q (head_ q) = Some s -> turn_is_odd s = false ->
  live_count (after_emplace q v) = S (live_count q).
Proof.
  intros Hs Hodd. unfold live_count. rewrite slots_after_emplace.
  pose proof (filter_length_insert turn_is_odd (slots_ q) _ _
    (Slot (wrap (turn_ q (head_ q) * 2 + 1)) (Some v)) Hs) as H.
  rewrite Hodd, turn_is_odd_odd in H. simpl turn in H.
  rewrite wrap_odd, odd_twice_succ in H. lia.
Qed.

Lemma live_count_after_pop q s :
  slot_at q (tail_ q) = Some s -> turn_is_odd s = true ->
  S (live_count (after_pop q)) = live_count q.
Proof.
  intros Hs Hodd. unfold live_count. rewrite slots_after_pop.
  pose proof (filter_length_insert turn_is_odd (slots_ q) _ _
    (Slot (wrap (turn_ q (tail_ q) * 2 + 2)) None) Hs) as H.
  rewrite Hodd, turn_is_odd_odd in H. simpl turn in H.
  rewrite wrap_odd, odd_twice_plus_two in H. lia.
Qed.

Lemma capacity_after_emplace q v : capacity_ (after_emplace q v) = capacity_ q.
Proof. reflexivity. Qed.
Lemma head_after_emplace q v : head_ (after_emplace q v) = wrap (head_ q + 1).
Proof. reflexivity. Qed.
Lemma tail_after_emplace q v : tail_ (after_emplace q v) = tail_ q.
Proof. reflexivity. Qed.
Lemma turn_after_emplace q v t : turn_ (after_emplace q v) t = turn_ q t.
Proof. reflexivity. Qed.
Lemma slots_ptr_after_emplace q v : slots_ptr (after_emplace q v) = slots_ptr q.
Proof. reflexivity. Qed.
Lemma capacity_after_pop q : capacity_ (after_pop q) = capacity_ q.
Proof. reflexivity. Qed.
Lemma head_after_pop q : head_ (after_pop q) = head_ q.
Proof. reflexivity. Qed.
Lemma tail_after_pop q : tail_ (after_pop q) = wrap (tail_ q + 1).
Proof. reflexivity. Qed.
Lemma turn_after_pop q t : turn_ (after_pop q) t = turn_ q t.
Proof. reflexivity. Qed.
Lemma slots_ptr_after_pop q : slots_ptr (after_pop q) = slots_ptr q.
Proof. reflexivity. Qed.

Ltac after_simpl :=
  rewrite ?capacity_after_emplace, ?head_after_emplace, ?tail_after_emplace,
    ?turn_after_emplace, ?capacity_after_pop, ?head_after_pop, ?tail_after_pop,
    ?turn_after_pop.

Lemma pow63_eq : 2 ^ 63 = 9223372036854775808.
Proof. reflexivity. Qed.

Ltac word_bounds := pose proof size_modulus_eq; pose proof pow63_eq.

(** The slot of the head ticket while the queue is not full. *)
Lemma ring_head_free q l :
  ring q l -> Z.of_nat (length l) < capacity_ q ->
  slot_at q (head_ q) = Some (Slot (wrap (turn_ q (head_ q) * 2)) None).
Proof.
  intros [HC Hlen Ht Hh Hfit Hnw Hfull Hfree Hlive] Hlt.
  rewrite (Hfree (head_ q)) by lia.
  pose proof (turn_range q (head_ q) ltac:(lia) ltac:(lia)).
  word_bounds.
  rewrite wrap_small by lia. do 2 f_equal. lia.
Qed.

(** The slot of the head ticket while the queue is full: it still holds
    the oldest element. *)
Lemma ring_head_full q l :
  ring q l -> Z.of_nat (length l) = capacity_ q ->
  exists x, slot_at q (head_ q) = Some (Slot (wrap (turn_ q (head_ q) * 2) - 1) (Some x)).
Proof.
  intros [HC Hlen Ht Hh Hfit Hnw Hfull Hfree Hlive] Heq.
  destruct l as [|x l]; [simpl in Heq; lia|]. exists x.
  rewrite (slot_at_idx q (head_ q) (tail_ q)).
  2:{ rewrite Hh, Heq. apply idx_add_capacity. lia. }
  specialize (Hfull 0%nat x eq_refl). rewrite Z.add_0_r in Hfull. rewrite Hfull.
  rewrite Hh, Heq, turn_add_capacity by lia.
  pose proof (turn_range q (tail_ q) ltac:(lia) ltac:(lia)).
  word_bounds.
  rewrite wrap_small by lia. do 2 f_equal. lia.
Qed.

(** The slot of the tail ticket while the queue is not empty. *)
Lemma ring_tail_full q x l :
  ring q (x :: l) ->
  slot_at q (tail_ q) = Some (Slot (wrap (turn_ q (tail_ q) * 2 + 1)) (Some x)).
Proof.
  intros [HC Hlen Ht Hh Hfit Hnw Hfull Hfree Hlive].
  specialize (Hfull 0%nat x eq_refl). rewrite Z.add_0_r in Hfull. rewrite Hfull.
  simpl length in Hh.
  pose proof (turn_range q (tail_ q) ltac:(lia) ltac:(lia)).
  word_bounds.
  rewrite wrap_small by lia. do 2 f_equal. lia.
Qed.

(** The slot of the tail ticket while the queue is empty. *)
Lemma ring_tail_free q :
  ring q [] ->
  slot_at q (tail_ q) = Some (Slot (wrap (turn_ q (tail_ q) * 2 + 1) - 1) None).
Proof.
  intros [HC Hlen Ht Hh Hfit Hnw Hfull Hfree Hlive].
  simpl length in Hh.
  rewrite (Hfree (tail_ q)) by lia.
  pose proof (turn_range q (tail_ q) ltac:(lia) ltac:(lia)).
  word_bounds.
  rewrite wrap_small by lia. do 2 f_equal. lia.
Qed.

Lemma ring_emplace q l v :
  ring q l -> Z.of_nat (length l) < capacity_ q -> head_ q + 1 < 2 ^ 63 ->
  ring (after_emplace q v) (l ++ [v]).
Proof.
  intros Hring Hlt Hnw'.
  pose proof (ring_head_free q l Hring Hlt) as Hslot.
  destruct Hring as [HC Hlen Ht Hh Hfit Hnw Hfull Hfree Hlive].
  word_bounds.
  assert (Hwh : wrap (head_ q + 1) = head_ q + 1) by (apply wrap_small; lia).
  constructor; after_simpl; rewrite ?Hwh, ?length_app; simpl length; try lia.
  - rewrite ?slots_after_emplace, length_insert. done.
  - intros k x Hk. after_simpl. apply lookup_app_Some in Hk as [Hk | [Hge Hk]].
    + pose proof (lookup_lt_Some _ _ _ Hk).
      rewrite slot_at_after_emplace_ne by (apply slot_index_ne; lia).
      by apply Hfull.
    + apply list_lookup_singleton_Some in Hk as [Hk ->].
      replace (tail_ q + Z.of_nat k) with (head_ q) by lia.
      rewrite slot_at_after_emplace_eq by (done || lia).
      pose proof (turn_range q (head_ q) ltac:(lia) ltac:(lia)).
      rewrite wrap_small by lia. do 2 f_equal. lia.
  - intros t Hrange. after_simpl.
    rewrite slot_at_after_emplace_ne by (apply slot_index_ne; lia).
    apply Hfree. lia.
  - erewrite live_count_after_emplace; [lia|by apply Hfree; lia|].
    rewrite turn_is_odd_odd. apply odd_double.
Qed.

Lemma ring_pop q x l : ring q (x :: l) -> ring (after_pop q) l.
Proof.
  intros Hring.
  pose proof (ring_tail_full q x l Hring) as Hslot.
  destruct Hring as [HC Hlen Ht Hh Hfit Hnw Hfull Hfree Hlive].
  word_bounds. simpl length in *.
  assert (Hwt : wrap (tail_ q + 1) = tail_ q + 1) by (apply wrap_small; lia).
  constructor; after_simpl; rewrite ?Hwt; try lia.
  - rewrite ?slots_after_pop, length_insert. done.
  - intros k y Hk. after_simpl. rewrite ?Hwt.
    pose proof (lookup_lt_Some _ _ _ Hk).
    rewrite slot_at_after_pop_ne by (apply slot_index_ne; lia).
    replace (tail_ q + 1 + Z.of_nat k) with (tail_ q + Z.of_nat (S k)) by lia.
    by apply Hfull.
  - intros t Hrange. after_simpl.
    destruct (decide (t = tail_ q + capacity_ q)) as [->|Hne].
    + rewrite (slot_at_idx _ _ (tail_ q)).
      2:{ unfold idx_. rewrite capacity_after_pop. apply (idx_add_capacity q). lia. }
      rewrite slot_at_after_pop_eq by (done || lia).
      rewrite turn_add_capacity by lia.
      pose proof (turn_range q (tail_ q) ltac:(lia) ltac:(lia)).
      rewrite wrap_small by lia. do 2 f_equal. lia.
    + rewrite slot_at_after_pop_ne by (apply slot_index_ne; lia).
      apply Hfree. lia.
  - pose proof (Hfull 0%nat x eq_refl) as Hhd. rewrite Z.add_0_r in Hhd.
    pose proof (live_count_after_pop q _ Hhd) as Hcnt.
    rewrite turn_is_odd_odd in Hcnt. specialize (Hcnt (odd_double_succ _)). lia.
Qed.

(** ** Every call refines the queue of the specification *)

Lemma constructions_app tr tr' :
  constructions (tr ++ tr') = (constructions tr + constructions tr')%nat.
Proof. unfold constructions. by rewrite List.filter_app, length_app. Qed.

Lemma destructions_app tr tr' :
  destructions (tr ++ tr') = (destructions tr + destructions tr')%nat.
Proof. unfold destructions. by rewrite List.filter_app, length_app. Qed.

Lemma ring_call q l o fuel :
  ring q l -> head_ q + 1 < 2 ^ 63 -> (6 <= fuel)%nat ->
  match fifo_call (capacity_ q) o l with
  | Some (r, l') =>
      exists q' tr,
        run fuel (entry o) q = Done (r, q', tr) /\ ring q' l' /\
        capacity_ q' = capacity_ q /\ slots_ptr q' = slots_ptr q /\
        head_ q <= head_ q' <= head_ q + 1 /\
        (constructions tr + length l = destructions tr + length l')%nat
  | None => forall fuel', run fuel' (entry o) q = Spinning
  end.
Proof.
  intros Hring Hnw Hfuel. word_bounds.
  pose proof (ring_capacity _ _ Hring) as HC.
  pose proof (ring_fits _ _ Hring) as Hfit.
  pose proof (ring_tail _ _ Hring) as Htl.
  pose proof (ring_head _ _ Hring) as Hhd.
  destruct o as [v|v|out|out]; simpl.
  - (* emplace *)
    destruct (Z.ltb_spec (Z.of_nat (length l)) (capacity_ q)) as [Hlt|Hge].
    + exists (after_emplace q v), [EvConstruct (slot_index q (head_ q))].
      split; [|split; [|split; [|split; [|split]]]]; try done.
      * eapply emplace_returns; [by eapply ring_head_free|done|lia].
      * by apply ring_emplace.
      * rewrite head_after_emplace, wrap_small; lia.
      * rewrite length_app. simpl. unfold constructions, destructions. simpl. lia.
    + intros fuel'. destruct (ring_head_full q l Hring ltac:(lia)) as [x Hx].
      eapply emplace_spins; [exact Hx|]. simpl. lia.
  - (* try_emplace *)
    destruct (Z.ltb_spec (Z.of_nat (length l)) (capacity_ q)) as [Hlt|Hge].
    + exists (after_emplace q v), [EvConstruct (slot_index q (head_ q))].
      split; [|split; [|split; [|split; [|split]]]]; try done.
      * eapply try_emplace_returns_true; [by eapply ring_head_free|done|lia].
      * by apply ring_emplace.
      * rewrite head_after_emplace, wrap_small; lia.
      * rewrite length_app. simpl. unfold constructions, destructions. simpl. lia.
    + exists q, []. destruct (ring_head_full q l Hring ltac:(lia)) as [x Hx].
      split; [|split; [|split; [|split; [|split]]]]; try done; [|lia].
      eapply try_emplace_returns_false; [exact Hx| |lia]. simpl. lia.
  - (* pop *)
    destruct l as [|x l].
    + intros fuel'. eapply pop_spins; [by apply ring_tail_free|]. simpl. lia.
    + exists (after_pop q), [EvDestroy (slot_index q (tail_ q))].
      split; [|split; [|split; [|split; [|split]]]]; try done.
      * eapply pop_returns; [by eapply ring_tail_full|done|lia].
      * by eapply ring_pop.
      * rewrite head_after_pop. lia.
  - (* try_pop *)
    destruct l as [|x l].
    + exists q, [].
      split; [|split; [|split; [|split; [|split]]]]; try done; [|lia].
      eapply try_pop_returns_false; [by apply ring_tail_free| |lia]. simpl. lia.
    + exists (after_pop q), [EvDestroy (slot_index q (tail_ q))].
      split; [|split; [|split; [|split; [|split]]]]; try done.
      * eapply try_pop_returns_true; [by eapply ring_tail_full|done|lia].
      * by eapply ring_pop.
      * rewrite head_after_pop. lia.
Qed.

(** ** The freshly constructed queue *)

Lemma construct_slots_replicate n : construct_slots (T:=T) n = replicate n slot_init.
Proof.
  induction n as [|n IH]; [done|]. simpl construct_slots.
  by rewrite IH, replicate_S_end.
Qed.

Lemma live_count_fresh (C addr : Z) : live_count (fresh (T:=T) C addr) = 0%nat.
Proof.
  unfold live_count, fresh. simpl. rewrite construct_slots_replicate.
  induction (Z.to_nat C) as [|n IH]; [done|]. simpl. done.
Qed.

Lemma ring_fresh (C addr : Z) : 1 <= C < size_modulus -> ring (fresh (T:=T) C addr) [].
Proof.
  intros HC. word_bounds.
  constructor; simpl; try lia.
  - by rewrite construct_slots_replicate, length_replicate.
  - intros k x Hk. done.
  - intros t Ht. unfold slot_at, slot_index, idx_, turn_. simpl.
    rewrite Z.mod_small, Z.div_small by lia.
    rewrite construct_slots_replicate. apply lookup_replicate_2. lia.
  - apply live_count_fresh.
Qed.

(** ** The contents of a quiescent queue *)

Lemma omap_seqZ_lookup (f : Z -> option T) l start :
  (forall k x, l !! k = Some x -> f (start + Z.of_nat k) = Some x) ->
  omap f (seqZ start (Z.of_nat (length l))) = l.
Proof.
  revert start. induction l as [|x l IH]; intros start Hf.
  - by rewrite seqZ_nil.
  - rewrite seqZ_cons by (simpl length; lia). simpl omap.
    pose proof (Hf 0%nat x eq_refl) as Hx. rewrite Z.add_0_r in Hx. rewrite Hx.
    f_equal. replace (Z.pred (Z.of_nat (S (length l)))) with (Z.of_nat (length l)) by lia.
    apply IH. intros k y Hk.
    replace (Z.succ start + Z.of_nat k) with (start + Z.of_nat (S k)) by lia.
    by apply Hf.
Qed.

Lemma ring_contents q l : ring q l -> contents q = l.
Proof.
  intros Hring. unfold contents.
  rewrite (ring_head _ _ Hring).
  replace (tail_ q + Z.of_nat (length l) - tail_ q) with (Z.of_nat (length l)) by lia.
  apply omap_seqZ_lookup. intros k x Hk.
  by rewrite (ring_full _ _ Hring k x Hk).
Qed.

(** ** Sequences of calls refine the queue of the specification *)

Lemma run_ops_mono fuel fuel' ops q a :
  run_ops fuel ops q = Done a -> (fuel <= fuel')%nat -> run_ops fuel' ops q = Done a.
Proof.
  revert q a. induction ops as [|o ops IH]; intros q a H Hle; [done|].
  simpl in *.
  destruct (run fuel (entry o) q) as [[[r q'] tr]| |] eqn:Hrun; try done.
  rewrite (run_mono _ _ _ _ _ Hrun Hle).
  destruct (run_ops fuel ops q') as [[[rs q''] tr']| |] eqn:Hops; try done.
  by rewrite (IH _ _ Hops Hle).
Qed.

Lemma ring_run_ops ops q l fuel :
  ring q l -> head_ q + Z.of_nat (length ops) < 2 ^ 63 -> (6 <= fuel)%nat ->
  match fifo_run (capacity_ q) ops l with
  | Some (rs, l') =>
      exists q' tr,
        run_ops fuel ops q = Done (rs, q', tr) /\ ring q' l' /\
        capacity_ q' = capacity_ q /\ slots_ptr q' = slots_ptr q /\
        head_ q' <= head_ q + Z.of_nat (length ops) /\
        (constructions tr + length l = destructions tr + length l')%nat
  | None => run_ops fuel ops q = Spinning
  end.
Proof.
  revert q l. induction ops as [|o ops IH]; intros q l Hring Hnw Hfuel.
  - simpl. exists q, []. repeat (split; [done|]). split; [lia|done].
  - simpl length in Hnw. simpl fifo_run. simpl run_ops.
    pose proof (ring_call q l o fuel Hring ltac:(lia) Hfuel) as Hcall.
    destruct (fifo_call (capacity_ q) o l) as [[r l1]|].
    + destruct Hcall as (q1 & tr1 & Hrun & Hring1 & HC1 & Hp1 & Hh1 & Hbal1).
      rewrite Hrun.
      specialize (IH q1 l1 Hring1 ltac:(lia) Hfuel). rewrite HC1 in IH.
      destruct (fifo_run (capacity_ q) ops l1) as [[rs l2]|].
      * destruct IH as (q2 & tr2 & Hrun2 & Hring2 & HC2 & Hp2 & Hh2 & Hbal2).
        rewrite Hrun2. exists q2, (tr1 ++ tr2).
        split; [done|]. split; [done|]. split; [congruence|]. split; [congruence|].
        split; [simpl length; lia|].
        rewrite constructions_app, destructions_app. lia.
      * by rewrite IH.
    + by rewrite Hcall.
Qed.

(** The values put in, after those already waiting, are the values taken
    out followed by those still waiting. *)
Lemma fifo_call_order C o l r l' :
  fifo_call C o l = Some (r, l') -> l ++ enqueued_by o r = dequeued_by r ++ l'.
Proof.
  destruct o as [v|v|out|out]; simpl.
  - destruct (_ <? _); [|done]. by intros [= <- <-].
  - destruct (_ <? _); intros [= <- <-]; simpl; [done|apply app_nil_r].
  - destruct l; [done|]. intros [= <- <-]. simpl. by rewrite app_nil_r.
  - destruct l; intros [= <- <-]; simpl; by rewrite ?app_nil_r.
Qed.

Lemma fifo_run_order C ops l rs l' :
  fifo_run C ops l = Some (rs, l') -> l ++ enqueued ops rs = dequeued rs ++ l'.
Proof.
  revert l rs. induction ops as [|o ops IH]; intros l rs H; simpl in H.
  - injection H as <- <-. simpl. apply app_nil_r.
  - destruct (fifo_call C o l) as [[r l1]|] eqn:Hcall; [|done].
    destruct (fifo_run C ops l1) as [[rs' l2]|] eqn:Hrun; [|done].
    injection H as <- <-. simpl. unfold dequeued. simpl.
    rewrite app_assoc, (fifo_call_order _ _ _ _ _ Hcall), <- !app_assoc.
    f_equal. by apply IH.
Qed.

(** A sequence of calls that returned, with whatever fuel, is a run of the
    queue of the specification. *)
Lemma run_ops_fifo fuel ops q l rs q' tr :
  ring q l -> head_ q + Z.of_nat (length ops) < 2 ^ 63 ->
  run_ops fuel ops q = Done (rs, q', tr) ->
  exists l', fifo_run (capacity_ q) ops l = Some (rs, l') /\ ring q' l' /\
    capacity_ q' = capacity_ q /\ slots_ptr q' = slots_ptr q /\
    head_ q' <= head_ q + Z.of_nat (length ops) /\
    (constructions tr + length l = destructions tr + length l')%nat.
Proof.
  intros Hring Hnw Hrun.
  pose proof (run_ops_mono fuel (fuel + 6) ops q _ Hrun ltac:(lia)) as Hrun'.
  pose proof (ring_run_ops ops q l (fuel + 6) Hring Hnw ltac:(lia)) as H.
  destruct (fifo_run (capacity_ q) ops l) as [[rs' l']|]; [|congruence].
  destruct H as (q2 & tr2 & Hrun2 & Hring2 & HC2 & Hp2 & Hh2 & Hbal2).
  rewrite Hrun2 in Hrun'. injection Hrun' as <- <- <-.
  by exists l'.
Qed.

(** ** The parity invariant of a quiescent queue

    It holds whatever the values of the counters are, wrapped or not. *)

Lemma quiescent_slot_at q t :
  quiescent q -> exists s, slot_at q t = Some s /\ turn_is_odd s = occupied s.
Proof.
  intros [HC Hlen Hpar Hrange].
  destruct (lookup_lt_is_Some_2 (slots_ q) (slot_index q t)) as [s Hs].
  { by apply slot_index_lt. }
  exists s. split; [done|]. by eapply Hpar.
Qed.

Lemma quiescent_fresh (C addr : Z) : 1 <= C -> quiescent (fresh (T:=T) C addr).
Proof.
  intros HC. constructor; simpl; [done|..].
  - by rewrite construct_slots_replicate, length_replicate.
  - intros i s. rewrite construct_slots_replicate.
    intros [-> _]%lookup_replicate. done.
  - intros i s. rewrite construct_slots_replicate.
    intros [-> _]%lookup_replicate. simpl. rewrite size_modulus_eq. lia.
Qed.

Lemma quiescent_after_emplace q v : quiescent q -> quiescent (after_emplace q v).
Proof.
  intros [HC Hlen Hpar Hrange]. constructor; after_simpl; [done|..].
  - by rewrite slots_after_emplace, length_insert.
  - intros i s. rewrite slots_after_emplace.
    intros [(_ & <- & _) | (_ & Hs)]%list_lookup_insert_Some; [|by eapply Hpar].
    rewrite turn_is_odd_odd. simpl. by rewrite wrap_odd, odd_twice_succ.
  - intros i s. rewrite slots_after_emplace.
    intros [(_ & <- & _) | (_ & Hs)]%list_lookup_insert_Some; [|by eapply Hrange].
    apply wrap_range.
Qed.

Lemma quiescent_after_pop q : quiescent q -> quiescent (after_pop q).
Proof.
  intros [HC Hlen Hpar Hrange]. constructor; after_simpl; [done|..].
  - by rewrite slots_after_pop, length_insert.
  - intros i s. rewrite slots_after_pop.
    intros [(_ & <- & _) | (_ & Hs)]%list_lookup_insert_Some; [|by eapply Hpar].
    rewrite turn_is_odd_odd. simpl. by rewrite wrap_odd, odd_twice_plus_two.
  - intros i s. rewrite slots_after_pop.
    intros [(_ & <- & _) | (_ & Hs)]%list_lookup_insert_Some; [|by eapply Hrange].
    apply wrap_range.
Qed.

Lemma run_agrees fuel fuel' p q a :
  run fuel' p q = Done a -> (fuel <= fuel')%nat ->
  run fuel p q = Done a \/ run fuel p q = Spinning.
Proof.
  intros H Hle. destruct (run fuel p q) as [a0| |] eqn:E; [left|by right|exfalso].
  - rewrite (run_mono _ _ _ _ _ E Hle) in H. done.
  - rewrite (run_mono_undefined _ _ _ _ E Hle) in H. done.
Qed.

(** A call on a quiescent queue returns to a quiescent queue, or spins; its
    behaviour is never undefined.  The constructions and destructions it
    performs are those of the change of the number of odd turns. *)
Lemma quiescent_call q o fuel :
  quiescent q ->
  match run fuel (entry o) q with
  | Done (r, q', tr) =>
      quiescent q' /\ capacity_ q' = capacity_ q /\ slots_ptr q' = slots_ptr q /\
      (constructions tr + live_count q = destructions tr + live_count q')%nat
  | Spinning => True
  | Undefined => False
  end.
Proof.
  intros Hq.
  destruct o as [v|v|out|out]; simpl entry.
  - destruct (quiescent_slot_at q (head_ q) Hq) as (s & Hs & Hpar).
    destruct (decide (turn s = wrap (turn_ q (head_ q) * 2))) as [Ht|Ht].
    + pose proof (emplace_returns (fuel + 4) q v s Hs Ht ltac:(lia)) as Hret.
      destruct (run_agrees fuel _ _ _ _ Hret ltac:(lia)) as [-> | ->]; [|done].
      split; [by apply quiescent_after_emplace|]. do 2 (split; [done|]).
      rewrite (live_count_after_emplace q v s Hs).
      { unfold constructions, destructions. simpl. lia. }
      by rewrite turn_is_odd_odd, Ht, wrap_odd, odd_twice.
    + by rewrite (emplace_spins fuel q v s Hs Ht : run _ _ _ = _).
  - destruct (quiescent_slot_at q (head_ q) Hq) as (s & Hs & Hpar).
    destruct (decide (turn s = wrap (turn_ q (head_ q) * 2))) as [Ht|Ht].
    + pose proof (try_emplace_returns_true (fuel + 5) q v s Hs Ht ltac:(lia)) as Hret.
      destruct (run_agrees fuel _ _ _ _ Hret ltac:(lia)) as [-> | ->]; [|done].
      split; [by apply quiescent_after_emplace|]. do 2 (split; [done|]).
      rewrite (live_count_after_emplace q v s Hs).
      { unfold constructions, destructions. simpl. lia. }
      by rewrite turn_is_odd_odd, Ht, wrap_odd, odd_twice.
    + pose proof (try_emplace_returns_false (fuel + 3) q v s Hs Ht ltac:(lia)) as Hret.
      destruct (run_agrees fuel _ _ _ _ Hret ltac:(lia)) as [-> | ->]; [|done].
      by repeat (split; [done|]).
  - destruct (quiescent_slot_at q (tail_ q) Hq) as (s & Hs & Hpar).
    destruct (decide (turn s = wrap (turn_ q (tail_ q) * 2 + 1))) as [Ht|Ht].
    + assert (Hodd : turn_is_odd s = true)
        by (by rewrite turn_is_odd_odd, Ht, wrap_odd, odd_twice_succ).
      destruct s as [t [x|]]; [|by rewrite Hodd in Hpar].
      pose proof (pop_returns (fuel + 5) q out t x Hs Ht ltac:(lia)) as Hret.
      destruct (run_agrees fuel _ _ _ _ Hret ltac:(lia)) as [-> | ->]; [|done].
      split; [by apply quiescent_after_pop|]. do 2 (split; [done|]).
      pose proof (live_count_after_pop q _ Hs Hodd).
      unfold constructions, destructions. simpl. lia.
    + by rewrite (pop_spins fuel q out s Hs Ht : run _ _ _ = _).
  - destruct (quiescent_slot_at q (tail_ q) Hq) as (s & Hs & Hpar).
    destruct (decide (turn s = wrap (turn_ q (tail_ q) * 2 + 1))) as [Ht|Ht].
    + assert (Hodd : turn_is_odd s = true)
        by (by rewrite turn_is_odd_odd, Ht, wrap_odd, odd_twice_succ).
      destruct s as [t [x|]]; [|by rewrite Hodd in Hpar].
      pose proof (try_pop_returns_true (fuel + 6) q out t x Hs Ht ltac:(lia)) as Hret.
      destruct (run_agrees fuel _ _ _ _ Hret ltac:(lia)) as [-> | ->]; [|done].
      split; [by apply quiescent_after_pop|]. do 2 (split; [done|]).
      pose proof (live_count_after_pop q _ Hs Hodd).
      unfold constructions, destructions. simpl. lia.
    + pose proof (try_pop_returns_false (fuel + 3) q out s Hs Ht ltac:(lia)) as Hret.
      destruct (run_agrees fuel _ _ _ _ Hret ltac:(lia)) as [-> | ->]; [|done].
      by repeat (split; [done|]).
Qed.

Lemma quiescent_run_ops ops q fuel :
  quiescent q ->
  match run_ops fuel ops q with
  | Done (rs, q', tr) =>
      quiescent q' /\ capacity_ q' = capacity_ q /\ slots_ptr q' = slots_ptr q /\
      (constructions tr + live_count q = destructions tr + live_count q')%nat
  | Spinning => True
  | Undefined => False
  end.
Proof.
  revert q. induction ops as [|o ops IH]; intros q Hq; simpl.
  - by repeat (split; [done|]).
  - pose proof (quiescent_call q o fuel Hq) as Hcall.
    destruct (run fuel (entry o) q) as [[[r q1] tr1]| |]; [|done..].
    destruct Hcall as (Hq1 & HC1 & Hp1 & Hbal1).
    specialize (IH q1 Hq1).
    destruct (run_ops fuel ops q1) as [[[rs q2] tr2]| |]; [|done..].
    destruct IH as (Hq2 & HC2 & Hp2 & Hbal2).
    split; [done|]. split; [congruence|]. split; [congruence|].
    rewrite constructions_app, destructions_app. lia.
Qed.

Lemma admissible_fifo_run C ops l :
  admissible_from C (Z.of_nat (length l)) ops = true ->
  exists rs l', fifo_run C ops l = Some (rs, l').
Proof.
  revert l. induction ops as [|o ops IH]; intros l H; simpl in *; [by eauto|].
  destruct o as [v|v|out|out]; simpl.
  - apply andb_prop in H as [Hlt H]. rewrite Hlt.
    destruct (IH (l ++ [v])) as (rs & l' & ->); [|by eauto].
    rewrite length_app. simpl. by replace (Z.of_nat (length l + 1)) with (Z.of_nat (length l) + 1) by lia.
  - destruct (Z.of_nat (length l) <? C).
    + destruct (IH (l ++ [v])) as (rs & l' & ->); [|by eauto].
      rewrite length_app. simpl. by replace (Z.of_nat (length l + 1)) with (Z.of_nat (length l) + 1) by lia.
    + destruct (IH l H) as (rs & l' & ->). by eauto.
  - apply andb_prop in H as [Hlt H]. destruct l as [|x l]; [done|].
    destruct (IH l) as (rs & l' & ->); [|by eauto].
    simpl length in H. by replace (Z.of_nat (length l)) with (Z.of_nat (S (length l)) - 1) by lia.
  - destruct l as [|x l].
    + destruct (IH [] H) as (rs & l' & ->). by eauto.
    + destruct (IH l) as (rs & l' & ->); [|by eauto].
      simpl length in H.
      replace (0 <? Z.of_nat (S (length l))) with true in H by (symmetry; apply Z.ltb_lt; lia).
      by replace (Z.of_nat (length l)) with (Z.of_nat (S (length l)) - 1) by lia.
Qed.

Lemma ring_size q l : ring q l -> size q = Z.of_nat (length l).
Proof.
  intros [HC Hlen Ht Hh Hfit Hnw Hfull Hfree Hlive]. word_bounds.
  unfold size, to_ptrdiff. rewrite wrap_small by lia.
  destruct (Z.ltb_spec (head_ q - tail_ q) (2 ^ 63)); lia.
Qed.

Section ProtocolTheory.

Implicit Types (o : op T) (th : op T * pc T) (ths : list (op T * pc T)) (r : role (T:=T)).

(** ** Tickets that share a slot *)

Lemma ticket_div_mod q t :
  1 <= capacity_ q -> t = capacity_ q * turn_ q t + idx_ q t.
Proof. intros HC. unfold turn_, idx_. apply Z.div_mod. lia. Qed.

Lemma slot_index_eq_idx q t t' :
  1 <= capacity_ q -> slot_index q t = slot_index q t' -> idx_ q t = idx_ q t'.
Proof.
  intros HC H. unfold slot_index in H.
  pose proof (idx_range q t HC). pose proof (idx_range q t' HC). lia.
Qed.

Lemma same_slot_gen q t t' :
  1 <= capacity_ q -> slot_index q t = slot_index q t' ->
  turn_ q t = turn_ q t' -> t = t'.
Proof.
  intros HC Hi Hg. apply slot_index_eq_idx in Hi; [|done].
  rewrite (ticket_div_mod q t HC), (ticket_div_mod q t' HC). congruence.
Qed.

Lemma same_slot_lt q t t' :
  1 <= capacity_ q -> slot_index q t = slot_index q t' ->
  t < t' -> turn_ q t < turn_ q t'.
Proof.
  intros HC Hi Hlt. apply slot_index_eq_idx in Hi; [|done].
  pose proof (ticket_div_mod q t HC). pose proof (ticket_div_mod q t' HC).
  pose proof (idx_range q t HC). nia.
Qed.

Lemma same_slot_le q t t' :
  1 <= capacity_ q -> slot_index q t = slot_index q t' ->
  t <= t' -> turn_ q t <= turn_ q t'.
Proof.
  intros HC Hi Hle. destruct (decide (t = t')) as [->|]; [lia|].
  pose proof (same_slot_lt q t t' HC Hi). lia.
Qed.

(** ** Lists updated in place *)

Lemma concat_map_insert_same {A B} (f : A -> list B) (xs : list A) i a a' :
  xs !! i = Some a -> f a' = f a ->
  concat (map f (<[i:=a']> xs)) = concat (map f xs).
Proof.
  revert i. induction xs as [|b xs IH]; intros i Hi Hf; [done|].
  destruct i as [|i]; simpl in *.
  - injection Hi as ->. by rewrite Hf.
  - f_equal. by apply IH.
Qed.

Lemma concat_map_insert_cons {A B} (f : A -> list B) (xs : list A) i a a' b :
  xs !! i = Some a -> f a' = b :: f a ->
  concat (map f (<[i:=a']> xs)) ≡ₚ b :: concat (map f xs).
Proof.
  revert i. induction xs as [|c xs IH]; intros i Hi Hf; [done|].
  destruct i as [|i]; simpl in *.
  - injection Hi as ->. by rewrite Hf.
  - rewrite (IH i Hi Hf). by rewrite Permutation_middle.
Qed.

Lemma omap_insert_same {A B} (f : A -> option B) (xs : list A) i a a' :
  xs !! i = Some a -> f a' = f a -> omap f (<[i:=a']> xs) = omap f xs.
Proof.
  revert i. induction xs as [|b xs IH]; intros i Hi Hf; [done|].
  destruct i as [|i]; simpl in *.
  - injection Hi as ->. by rewrite Hf.
  - destruct (f b); [f_equal|]; by apply IH.
Qed.

Lemma omap_insert_fill {A B} (f : A -> option B) (xs : list A) i a a' b :
  xs !! i = Some a -> f a = None -> f a' = Some b ->
  omap f (<[i:=a']> xs) ≡ₚ b :: omap f xs.
Proof.
  revert i. induction xs as [|c xs IH]; intros i Hi Hf Hf'; [done|].
  destruct i as [|i]; simpl in *.
  - injection Hi as ->. by rewrite Hf, Hf'.
  - destruct (f c) as [y|]; [|by apply IH].
    etrans; [apply Permutation_cons; [done|]; by apply (IH i)|apply perm_swap].
Qed.

Lemma omap_insert_clear {A B} (f : A -> option B) (xs : list A) i a a' b :
  xs !! i = Some a -> f a = Some b -> f a' = None ->
  b :: omap f (<[i:=a']> xs) ≡ₚ omap f xs.
Proof.
  revert i. induction xs as [|c xs IH]; intros i Hi Hf Hf'; [done|].
  destruct i as [|i]; simpl in *.
  - injection Hi as ->. by rewrite Hf, Hf'.
  - destruct (f c) as [y|]; [|by apply IH].
    etrans; [apply perm_swap|]. apply Permutation_cons; [done|]. by apply (IH i).
Qed.

(** ** Roles *)

Lemma holds_head_producer r : holds_head r = true -> producer r = true.
Proof. by destruct r. Qed.

Lemma holds_head_not_tail r : holds_head r = true -> holds_tail r = false.
Proof. by destruct r. Qed.

Lemma holds_tail_consumer r : holds_tail r = true -> producer r = false.
Proof. by destruct r. Qed.

Lemma owner_turn r g s :
  owns r = true -> role_ok r g s ->
  (holds_head r = true /\ turn s = 2 * g) \/ (holds_tail r = true /\ turn s = 2 * g + 1).
Proof. destruct r; simpl; try done; intros _ [? ?]; by eauto. Qed.

Lemma role_ok_same_turn r g s s' :
  owns r = false -> turn s' = turn s -> role_ok r g s -> role_ok r g s'.
Proof. destruct r; simpl; try done; intros _ ->; done. Qed.

Lemma role_ok_greater_turn r g s s' :
  holds_head r = false -> holds_tail r = false ->
  turn s <= turn s' -> role_ok r g s -> role_ok r g s'.
Proof. destruct r; simpl; try done; intros _ _ ?; lia. Qed.

Lemma par_slot_at n q ths t : par_inv n q ths -> is_Some (slot_at q t).
Proof.
  intros Hinv. apply lookup_lt_is_Some_2, slot_index_lt.
  - apply (par_capacity _ _ _ Hinv).
  - apply (par_slots _ _ _ Hinv).
Qed.

(** The role of a thread describes the slot of its ticket. *)
Lemma par_role n q ths i th t r :
  par_inv n q ths -> ths !! i = Some th -> role_of th.2 = Some (t, r) ->
  ticket_ok r t q /\ exists s, slot_at q t = Some s /\ role_ok r (turn_ q t) s.
Proof.
  intros Hinv Hi Hr.
  destruct (inv_threads _ _ _ Hinv i th Hi) as [_ Hok].
  destruct (Hok t r Hr) as [Htk Hs]. split; [done|].
  destruct (par_slot_at n q ths t Hinv) as [s Hsl]. exists s. by eauto.
Qed.

(** Two threads never own the same slot. *)
Lemma owner_unique n q ths i j th th' t t' r r' :
  par_inv n q ths ->
  ths !! i = Some th -> ths !! j = Some th' ->
  role_of th.2 = Some (t, r) -> role_of th'.2 = Some (t', r') ->
  owns r = true -> owns r' = true ->
  slot_index q t = slot_index q t' -> i = j.
Proof.
  intros Hinv Hi Hj Hr Hr' Ho Ho' Hidx.
  destruct (par_role _ _ _ _ _ _ _ Hinv Hi Hr) as (_ & s & Hs & Hok).
  destruct (par_role _ _ _ _ _ _ _ Hinv Hj Hr') as (_ & s' & Hs' & Hok').
  assert (s' = s) as -> by (unfold slot_at in *; rewrite Hidx in Hs; congruence).
  pose proof (par_capacity _ _ _ Hinv) as HC.
  destruct (owner_turn _ _ _ Ho Hok) as [[Hh Ht]|[Hh Ht]];
    destruct (owner_turn _ _ _ Ho' Hok') as [[Hh' Ht']|[Hh' Ht']]; try lia.
  - assert (t = t') as <- by (apply (same_slot_gen q); [done..|lia]).
    by eapply (par_head_unique _ _ _ Hinv i j).
  - assert (t = t') as <- by (apply (same_slot_gen q); [done..|lia]).
    by eapply (par_tail_unique _ _ _ Hinv i j).
Qed.

Lemma par_inv_weaken n n' q ths : par_inv n q ths -> n <= n' -> par_inv n' q ths.
Proof.
  intros [] Hle. constructor; try done; lia.
Qed.

(** ** One thread changes, the invariant stays *)

(** Tickets stay unique when a thread keeps its ticket, gives it up, or
    takes one that no other thread holds. *)
Lemma unique_insert (holds : role (T:=T) -> bool) ths i th th' :
  (forall i j a b t r r',
     ths !! i = Some a -> ths !! j = Some b ->
     role_of a.2 = Some (t, r) -> role_of b.2 = Some (t, r') ->
     holds r = true -> holds r' = true -> i = j) ->
  ths !! i = Some th ->
  (forall t r', role_of th'.2 = Some (t, r') -> holds r' = true ->
     (exists r, role_of th.2 = Some (t, r) /\ holds r = true) \/
     (forall j b r, ths !! j = Some b -> role_of b.2 = Some (t, r) ->
                    holds r = true -> False)) ->
  forall i1 j1 a b t r r',
    <[i:=th']> ths !! i1 = Some a -> <[i:=th']> ths !! j1 = Some b ->
    role_of a.2 = Some (t, r) -> role_of b.2 = Some (t, r') ->
    holds r = true -> holds r' = true -> i1 = j1.
Proof.
  intros Huniq Hi Hnew i1 j1 a b t r r' Ha Hb Hra Hrb Hh Hh'.
  apply list_lookup_insert_Some in Ha as [(<- & <- & _)|(Hne1 & Ha)];
    apply list_lookup_insert_Some in Hb as [(<- & <- & _)|(Hne2 & Hb)]; try done.
  - destruct (Hnew t r Hra Hh) as [(r0 & Hr0 & Hh0)|Hfresh].
    + by apply (Huniq i j1 th b t r0 r').
    + by destruct (Hfresh j1 b r').
  - destruct (Hnew t r' Hrb Hh') as [(r0 & Hr0 & Hh0)|Hfresh].
    + by apply (Huniq i1 i a th t r r0).
    + by destruct (Hfresh i1 a r).
  - by apply (Huniq i1 j1 a b t r r').
Qed.

(** Parity or an owner, for the slots that a step leaves alone. *)
Lemma parity_insert q ths i th th' k s :
  ths !! i = Some th ->
  (forall t r, role_of th.2 = Some (t, r) -> owns r = true -> slot_index q t = k ->
     exists r', role_of th'.2 = Some (t, r') /\ owns r' = true) ->
  (turn_is_odd s = occupied s \/
   exists i th t r, ths !! i = Some th /\ role_of th.2 = Some (t, r) /\
                    owns r = true /\ slot_index q t = k) ->
  turn_is_odd s = occupied s \/
  exists i0 th0 t r, <[i:=th']> ths !! i0 = Some th0 /\ role_of th0.2 = Some (t, r) /\
                     owns r = true /\ slot_index q t = k.
Proof.
  intros Hi Hkeep [Hpar|(i0 & th0 & t & r & Hi0 & Hr & Ho & Hk)]; [by left|right].
  destruct (decide (i0 = i)) as [->|Hne].
  - assert (th0 = th) as -> by congruence.
    destruct (Hkeep t r Hr Ho Hk) as (r' & Hr' & Ho').
    exists i, th', t, r'. split; [|done].
    apply list_lookup_insert_eq. by eapply lookup_lt_Some.
  - exists i0, th0, t, r. split; [|done]. by rewrite list_lookup_insert_ne.
Qed.

(** A step that leaves the queue as it is. *)
Lemma par_inv_quiet n q ths i th p' :
  par_inv n q ths -> ths !! i = Some th ->
  thread_ok q (th.1, p') ->
  (forall t r', role_of p' = Some (t, r') -> holds_head r' = true ->
     exists r, role_of th.2 = Some (t, r) /\ holds_head r = true) ->
  (forall t r', role_of p' = Some (t, r') -> holds_tail r' = true ->
     exists r, role_of th.2 = Some (t, r) /\ holds_tail r = true) ->
  (forall t r, role_of th.2 = Some (t, r) -> owns r = true ->
     exists r', role_of p' = Some (t, r') /\ owns r' = true) ->
  produced (th.1, p') = produced th -> consumed (th.1, p') = consumed th ->
  par_inv n q (<[i:=(th.1, p')]> ths).
Proof.
  intros Hinv Hi Hok Hhead Htail Hown Hprod Hcons.
  destruct Hinv as [HC Hlen Hh Ht Hths Hhu Htu Hhf Htf Hnn Hpar Hcv].
  constructor; try done.
  - intros j thj [(<- & <- & _)|(Hne & Hj)]%list_lookup_insert_Some; [done|by eauto].
  - apply (unique_insert holds_head ths i th (th.1, p') Hhu Hi).
    intros t r' Hr' Hh'. left. by apply (Hhead t r').
  - apply (unique_insert holds_tail ths i th (th.1, p') Htu Hi).
    intros t r' Hr' Hh'. left. by apply (Htail t r').
  - intros k s Hs. apply (parity_insert q ths i th); [done| |by apply Hpar].
    intros t r Hr Ho _. by apply (Hown t r).
  - by rewrite !(concat_map_insert_same _ ths i th).
Qed.

Lemma owns_holds r : owns r = true -> holds_head r = true \/ holds_tail r = true.
Proof. destruct r; simpl; by eauto. Qed.

Lemma thread_ok_with_head q th h' :
  thread_ok q th -> head_ q <= h' -> thread_ok (with_head q h') th.
Proof.
  intros [Hv Hr] Hle. split; [done|]. intros t r Htr.
  destruct (Hr t r Htr) as [[Ht0 Htk] Hs]. split; [|done].
  split; [done|]. change (head_ (with_head q h')) with h'.
  change (tail_ (with_head q h')) with (tail_ q).
  destruct (producer r), (holds_head r); try done; lia.
Qed.

Lemma thread_ok_with_tail q th t' :
  thread_ok q th -> tail_ q <= t' -> thread_ok (with_tail q t') th.
Proof.
  intros [Hv Hr] Hle. split; [done|]. intros t r Htr.
  destruct (Hr t r Htr) as [[Ht0 Htk] Hs]. split; [|done].
  split; [done|]. change (tail_ (with_tail q t')) with t'.
  change (head_ (with_tail q t')) with (head_ q).
  destruct (producer r), (holds_tail r); try done; lia.
Qed.

(** A thread takes the ticket [head_ q]. *)
Lemma par_inv_head n q ths i th p' r' :
  par_inv n q ths -> ths !! i = Some th -> head_ q + 1 <= n ->
  role_of p' = Some (head_ q, r') -> holds_head r' = true ->
  (forall t r, role_of th.2 = Some (t, r) -> holds_head r = false /\ holds_tail r = false) ->
  thread_ok (with_head q (head_ q + 1)) (th.1, p') ->
  produced (th.1, p') = produced th -> consumed (th.1, p') = consumed th ->
  par_inv n (with_head q (head_ q + 1)) (<[i:=(th.1, p')]> ths).
Proof.
  intros Hinv Hi Hn Hr' Hh' Hold Hok Hprod Hcons.
  pose proof Hinv as [HC Hlen Hh Ht Hths Hhu Htu Hhf Htf Hnn Hpar Hcv].
  constructor; try done.
  - change (head_ (with_head q (head_ q + 1))) with (head_ q + 1). lia.
  - intros j thj [(<- & <- & _)|(Hne & Hj)]%list_lookup_insert_Some; [done|].
    apply thread_ok_with_head; [by eauto|lia].
  - apply (unique_insert holds_head ths i th (th.1, p') Hhu Hi).
    intros t r Hr Hhr. right. simpl in Hr. rewrite Hr' in Hr. injection Hr as <- <-.
    intros j b r Hj Hrb Hhb.
    destruct (par_role _ _ _ _ _ _ _ Hinv Hj Hrb) as ([_ Htk] & _).
    rewrite (holds_head_producer _ Hhb), Hhb in Htk. lia.
  - apply (unique_insert holds_tail ths i th (th.1, p') Htu Hi).
    intros t r Hr Hhr. simpl in Hr. rewrite Hr' in Hr. injection Hr as <- <-.
    by rewrite (holds_head_not_tail _ Hh') in Hhr.
  - intros t s Hle Hs. apply Hhf; [|done].
    change (head_ (with_head q (head_ q + 1))) with (head_ q + 1) in Hle. lia.
  - intros k s Hs. apply (parity_insert q ths i th); [done| |by apply Hpar].
    intros t r Hr Ho _. destruct (Hold t r Hr) as [H1 H2].
    destruct (owns_holds r Ho); congruence.
  - by rewrite !(concat_map_insert_same _ ths i th).
Qed.

(** A thread takes the ticket [tail_ q]. *)
Lemma par_inv_tail n q ths i th p' r' :
  par_inv n q ths -> ths !! i = Some th -> tail_ q + 1 <= n ->
  role_of p' = Some (tail_ q, r') -> holds_tail r' = true ->
  (forall t r, role_of th.2 = Some (t, r) -> holds_head r = false /\ holds_tail r = false) ->
  thread_ok (with_tail q (tail_ q + 1)) (th.1, p') ->
  produced (th.1, p') = produced th -> consumed (th.1, p') = consumed th ->
  par_inv n (with_tail q (tail_ q + 1)) (<[i:=(th.1, p')]> ths).
Proof.
  intros Hinv Hi Hn Hr' Hh' Hold Hok Hprod Hcons.
  pose proof Hinv as [HC Hlen Hh Ht Hths Hhu Htu Hhf Htf Hnn Hpar Hcv].
  constructor; try done.
  - change (tail_ (with_tail q (tail_ q + 1))) with (tail_ q + 1). lia.
  - intros j thj [(<- & <- & _)|(Hne & Hj)]%list_lookup_insert_Some; [done|].
    apply thread_ok_with_tail; [by eauto|lia].
  - apply (unique_insert holds_head ths i th (th.1, p') Hhu Hi).
    intros t r Hr Hhr. simpl in Hr. rewrite Hr' in Hr. injection Hr as <- <-.
    by rewrite (holds_head_not_tail _ Hhr) in Hh'.
  - apply (unique_insert holds_tail ths i th (th.1, p') Htu Hi).
    intros t r Hr Hhr. right. simpl in Hr. rewrite Hr' in Hr. injection Hr as <- <-.
    intros j b r Hj Hrb Hhb.
    destruct (par_role _ _ _ _ _ _ _ Hinv Hj Hrb) as ([_ Htk] & _).
    rewrite (holds_tail_consumer _ Hhb), Hhb in Htk. lia.
  - intros t s Hle Hs. apply Htf; [|done].
    change (tail_ (with_tail q (tail_ q + 1))) with (tail_ q + 1) in Hle. lia.
  - intros k s Hs. apply (parity_insert q ths i th); [done| |by apply Hpar].
    intros t r Hr Ho _. destruct (Hold t r Hr) as [H1 H2].
    destruct (owns_holds r Ho); congruence.
  - by rewrite !(concat_map_insert_same _ ths i th).
Qed.

Lemma slot_at_with_slot_cases q t s' t0 s0 :
  slot_at (with_slot q t s') t0 = Some s0 ->
  (slot_index q t0 = slot_index q t /\ s0 = s') \/
  (slot_index q t0 <> slot_index q t /\ slot_at q t0 = Some s0).
Proof.
  unfold slot_at. rewrite slot_index_with_slot. unfold with_slot. simpl.
  intros [(-> & -> & _)|(Hne & H)]%list_lookup_insert_Some; [by left|right]. by eauto.
Qed.

Lemma stored_with_slot q t s' : stored (with_slot q t s') = omap storage (<[slot_index q t:=s']> (slots_ q)).
Proof. reflexivity. Qed.

(** The owner of a slot writes its storage. *)
Lemma par_inv_write n q ths i th p' t r r' s s' :
  par_inv n q ths -> ths !! i = Some th ->
  role_of th.2 = Some (t, r) -> owns r = true ->
  role_of p' = Some (t, r') -> owns r' = true ->
  holds_head r' = holds_head r -> holds_tail r' = holds_tail r ->
  producer r' = producer r ->
  slot_at q t = Some s -> turn s' = turn s -> role_ok r' (turn_ q t) s' ->
  (forall v, pc_value p' = Some v -> value_of th.1 = Some v) ->
  concat (map produced (<[i:=(th.1, p')]> ths))
    ≡ₚ concat (map consumed (<[i:=(th.1, p')]> ths)) ++ stored (with_slot q t s') ->
  par_inv n (with_slot q t s') (<[i:=(th.1, p')]> ths).
Proof.
  intros Hinv Hi Hr Ho Hr' Ho' Hhh Hht Hpr Hs Hturn Hok' Hval Hcons.
  pose proof Hinv as [HC Hlen Hh Ht Hths Hhu Htu Hhf Htf Hnn Hpar Hcv].
  destruct (par_role _ _ _ _ _ _ _ Hinv Hi Hr) as (Htk & s0 & Hs0 & Hok).
  assert (s0 = s) as -> by congruence.
  constructor; try done.
  - unfold with_slot. simpl. by rewrite length_insert.
  - intros j thj [(<- & <- & _)|(Hne & Hj)]%list_lookup_insert_Some.
    + split; [done|]. intros t0 r0 Hr0. simpl in Hr0. rewrite Hr' in Hr0.
      injection Hr0 as <- <-. split.
      * unfold ticket_ok in *. by rewrite Hpr, Hhh, Hht.
      * intros s1 Hs1. rewrite (slot_at_with_slot_eq q t s' s Hs) in Hs1.
        injection Hs1 as <-. by rewrite turn_with_slot.
    + destruct (Hths j thj Hj) as [Hvj Hrj]. split; [done|].
      intros tj rj Htrj. destruct (Hrj tj rj Htrj) as [Htkj Hsj]. split; [done|].
      intros s1 Hs1. rewrite turn_with_slot.
      apply slot_at_with_slot_cases in Hs1 as [[Hidx ->]|[Hidx Hs1]]; [|by eauto].
      assert (Hsj' : slot_at q tj = Some s) by (unfold slot_at in *; by rewrite Hidx).
      destruct (owns rj) eqn:Hoj.
      * exfalso. apply Hne. symmetry.
        by eapply (owner_unique n q ths j i thj th tj t rj r).
      * eapply role_ok_same_turn; [done..|]. by apply Hsj.
  - apply (unique_insert holds_head ths i th (th.1, p') Hhu Hi).
    intros t0 r0 Hr0 Hh0. left. simpl in Hr0. rewrite Hr' in Hr0.
    injection Hr0 as <- <-. exists r. split; [done|congruence].
  - apply (unique_insert holds_tail ths i th (th.1, p') Htu Hi).
    intros t0 r0 Hr0 Hh0. left. simpl in Hr0. rewrite Hr' in Hr0.
    injection Hr0 as <- <-. exists r. split; [done|congruence].
  - intros t0 s1 Hle Hs1. rewrite turn_with_slot.
    apply slot_at_with_slot_cases in Hs1 as [[Hidx ->]|[Hidx Hs1]]; [|by eauto].
    rewrite Hturn. apply Hhf; [done|]. unfold slot_at in *. by rewrite Hidx.
  - intros t0 s1 Hle Hs1. rewrite turn_with_slot.
    apply slot_at_with_slot_cases in Hs1 as [[Hidx ->]|[Hidx Hs1]]; [|by eauto].
    rewrite Hturn. apply Htf; [done|]. unfold slot_at in *. by rewrite Hidx.
  - intros k s1 Hs1. unfold with_slot in Hs1. simpl in Hs1.
    apply list_lookup_insert_Some in Hs1 as [(<- & <- & _)|(Hne & Hs1)]; [|by eauto].
    rewrite Hturn. by eapply Hnn.
  - intros k s1 Hs1. unfold with_slot in Hs1. simpl in Hs1.
    apply list_lookup_insert_Some in Hs1 as [(<- & <- & _)|(Hne & Hs1)].
    + right. exists i, (th.1, p'), t, r'. split; [|done].
      apply list_lookup_insert_eq. by eapply lookup_lt_Some.
    + apply (parity_insert q ths i th); [done| |by apply Hpar].
      intros t0 r0 Hr0 _ _. rewrite Hr in Hr0. injection Hr0 as <- <-. by eauto.
Qed.

(** What another thread knows of a slot survives its publication. *)
Lemma role_ok_publish r g s rj gj s' :
  owns r = true -> role_ok r g s ->
  owns rj = false -> role_ok rj gj s ->
  (holds_head r = true -> holds_head rj = true -> g <> gj) ->
  (holds_tail r = true -> holds_tail rj = true -> g <> gj) ->
  turn s' = turn s + 1 ->
  role_ok rj gj s'.
Proof.
  intros Ho Hok Hoj Hokj Hh Ht Hturn.
  destruct (owner_turn _ _ _ Ho Hok) as [[Hhr Hts]|[Hhr Hts]];
    destruct rj; simpl in *; try done; try lia.
  - specialize (Hh Hhr eq_refl). lia.
  - specialize (Ht Hhr eq_refl). lia.
Qed.

(** The owner of a slot publishes its turn. *)
Lemma par_inv_publish n q ths i th p' t r s s' :
  par_inv n q ths -> ths !! i = Some th ->
  role_of th.2 = Some (t, r) -> owns r = true ->
  role_of p' = None ->
  (forall v, pc_value p' = Some v -> value_of th.1 = Some v) ->
  slot_at q t = Some s ->
  turn s' = turn s + 1 -> storage s' = storage s ->
  turn_is_odd s' = occupied s' ->
  produced (th.1, p') = produced th -> consumed (th.1, p') = consumed th ->
  par_inv n (with_slot q t s') (<[i:=(th.1, p')]> ths).
Proof.
  intros Hinv Hi Hr Ho Hr' Hval Hs Hturn Hst Hparity Hprod Hcons.
  pose proof Hinv as [HC Hlen Hh Ht Hths Hhu Htu Hhf Htf Hnn Hpar Hcv].
  destruct (par_role _ _ _ _ _ _ _ Hinv Hi Hr) as ([Ht0 Htk] & s0 & Hs0 & Hok).
  assert (s0 = s) as -> by congruence.
  constructor; try done.
  - unfold with_slot. simpl. by rewrite length_insert.
  - intros j thj [(<- & <- & _)|(Hne & Hj)]%list_lookup_insert_Some.
    + split; [done|]. intros t0 r0 Hr0. simpl in Hr0. congruence.
    + destruct (Hths j thj Hj) as [Hvj Hrj]. split; [done|].
      intros tj rj Htrj. destruct (Hrj tj rj Htrj) as [Htkj Hsj]. split; [done|].
      intros s1 Hs1. rewrite turn_with_slot.
      apply slot_at_with_slot_cases in Hs1 as [[Hidx ->]|[Hidx Hs1]]; [|by eauto].
      assert (Hsj' : slot_at q tj = Some s) by (unfold slot_at in *; by rewrite Hidx).
      destruct (owns rj) eqn:Hoj.
      { exfalso. apply Hne. symmetry.
        by eapply (owner_unique n q ths j i thj th tj t rj r). }
      apply (role_ok_publish r (turn_ q t) s); try done; [by apply Hsj|..].
      * intros Hhr Hhj Hg. apply Hne.
        assert (t = tj) as <- by (by apply (same_slot_gen q)).
        by apply (Hhu i j th thj t r rj).
      * intros Hhr Hhj Hg. apply Hne.
        assert (t = tj) as <- by (by apply (same_slot_gen q)).
        by apply (Htu i j th thj t r rj).
  - apply (unique_insert holds_head ths i th (th.1, p') Hhu Hi).
    intros t0 r0 Hr0 Hh0. simpl in Hr0. congruence.
  - apply (unique_insert holds_tail ths i th (th.1, p') Htu Hi).
    intros t0 r0 Hr0 Hh0. simpl in Hr0. congruence.
  - intros t0 s1 Hle Hs1. rewrite turn_with_slot.
    apply slot_at_with_slot_cases in Hs1 as [[Hidx ->]|[Hidx Hs1]]; [|by eauto].
    assert (Hs0' : slot_at q t0 = Some s) by (unfold slot_at in *; by rewrite Hidx).
    pose proof (Hhf t0 s Hle Hs0') as Hold.
    change (head_ (with_slot q t s')) with (head_ q) in Hle.
    destruct (owner_turn _ _ _ Ho Hok) as [[Hhr Hts]|[Hhr Hts]]; [|lia].
    rewrite (holds_head_producer _ Hhr), Hhr in Htk.
    pose proof (same_slot_lt q t t0 HC (eq_sym Hidx) ltac:(lia)). lia.
  - intros t0 s1 Hle Hs1. rewrite turn_with_slot.
    apply slot_at_with_slot_cases in Hs1 as [[Hidx ->]|[Hidx Hs1]]; [|by eauto].
    assert (Hs0' : slot_at q t0 = Some s) by (unfold slot_at in *; by rewrite Hidx).
    pose proof (Htf t0 s Hle Hs0') as Hold.
    change (tail_ (with_slot q t s')) with (tail_ q) in Hle.
    destruct (owner_turn _ _ _ Ho Hok) as [[Hhr Hts]|[Hhr Hts]]; [lia|].
    rewrite (holds_tail_consumer _ Hhr), Hhr in Htk.
    pose proof (same_slot_lt q t t0 HC (eq_sym Hidx) ltac:(lia)). lia.
  - intros k s1 Hs1. unfold with_slot in Hs1. simpl in Hs1.
    apply list_lookup_insert_Some in Hs1 as [(<- & <- & _)|(Hne & Hs1)]; [|by eauto].
    rewrite Hturn. pose proof (Hnn _ _ Hs). lia.
  - intros k s1 Hs1. unfold with_slot in Hs1. simpl in Hs1.
    apply list_lookup_insert_Some in Hs1 as [(<- & <- & _)|(Hne & Hs1)]; [by left|].
    apply (parity_insert q ths i th); [done| |by apply Hpar].
    intros t0 r0 Hr0 _ Hk. rewrite Hr in Hr0. injection Hr0 as <- <-. done.
  - rewrite !(concat_map_insert_same _ ths i th) by done.
    by rewrite stored_with_slot, (omap_insert_same storage (slots_ q) _ s).
Qed.

(** ** The slot at the end of a wait *)

(** A slot whose turn is that of the producer of [h] is empty, unless a
    producer that holds [h] already owns it. *)
Lemma slot_free_empty n q ths h s :
  par_inv n q ths -> slot_at q h = Some s -> turn s = 2 * turn_ q h ->
  (forall j thj r, ths !! j = Some thj -> role_of thj.2 = Some (h, r) ->
     owns r = true -> holds_head r = true -> False) ->
  storage s = None.
Proof.
  intros Hinv Hs Hturn Hnone.
  destruct (par_parity _ _ _ Hinv _ _ Hs) as [Hpar|(j & thj & t0 & r0 & Hj & Hr0 & Ho & Hk)].
  - rewrite turn_is_odd_odd, Hturn, odd_double in Hpar.
    unfold occupied in Hpar. by destruct (storage s).
  - exfalso.
    destruct (par_role _ _ _ _ _ _ _ Hinv Hj Hr0) as (_ & s0 & Hs0 & Hok).
    assert (s0 = s) as -> by (unfold slot_at in *; rewrite Hk in Hs0; congruence).
    destruct (owner_turn _ _ _ Ho Hok) as [[Hh Ht]|[Hh Ht]]; [|lia].
    assert (t0 = h) as ->.
    { apply (same_slot_gen q); [apply (par_capacity _ _ _ Hinv)|done|lia]. }
    by eapply Hnone.
Qed.

(** A slot whose turn is that of the consumer of [t] holds an element,
    unless a consumer that holds [t] already owns it. *)
Lemma slot_full_occupied n q ths t s :
  par_inv n q ths -> slot_at q t = Some s -> turn s = 2 * turn_ q t + 1 ->
  (forall j thj r, ths !! j = Some thj -> role_of thj.2 = Some (t, r) ->
     owns r = true -> holds_tail r = true -> False) ->
  is_Some (storage s).
Proof.
  intros Hinv Hs Hturn Hnone.
  destruct (par_parity _ _ _ Hinv _ _ Hs) as [Hpar|(j & thj & t0 & r0 & Hj & Hr0 & Ho & Hk)].
  - rewrite turn_is_odd_odd, Hturn, odd_double_succ in Hpar.
    unfold occupied in Hpar. by destruct (storage s); eauto.
  - exfalso.
    destruct (par_role _ _ _ _ _ _ _ Hinv Hj Hr0) as (_ & s0 & Hs0 & Hok).
    assert (s0 = s) as -> by (unfold slot_at in *; rewrite Hk in Hs0; congruence).
    destruct (owner_turn _ _ _ Ho Hok) as [[Hh Ht]|[Hh Ht]]; [lia|].
    assert (t0 = t) as ->.
    { apply (same_slot_gen q); [apply (par_capacity _ _ _ Hinv)|done|lia]. }
    by eapply Hnone.
Qed.

(** A thread enters a call. *)
Lemma par_inv_call n q ths o :
  par_inv n q ths -> par_inv n q (ths ++ [(o, entry o)]).
Proof.
  intros [HC Hlen Hh Ht Hths Hhu Htu Hhf Htf Hnn Hpar Hcv].
  assert (Hnew : forall i th, (ths ++ [(o, entry o)]) !! i = Some th ->
            ths !! i = Some th \/ (th = (o, entry o) /\ role_of th.2 = None)).
  { intros i th [Hi|[_ Hi]]%lookup_app_Some; [by left|right].
    apply list_lookup_singleton_Some in Hi as [_ <-]. split; [done|]. by destruct o. }
  constructor; try done.
  - intros i th [Hi|[-> Hr]]%Hnew; [by eauto|].
    split; [|intros t r Htr; simpl in *; congruence].
    intros v. by destruct o; simpl; intros [= ->].
  - intros i j th th' t r r' [Hi|[-> Hr1]]%Hnew [Hj|[-> Hr2]]%Hnew; try congruence.
    by apply Hhu.
  - intros i j th th' t r r' [Hi|[-> Hr1]]%Hnew [Hj|[-> Hr2]]%Hnew; try congruence.
    by apply Htu.
  - intros k s Hs. destruct (Hpar k s Hs) as [?|(i & th & t & r & Hi & ?)]; [by left|right].
    exists i, th, t, r. split; [|done]. by apply lookup_app_l_Some.
  - rewrite !map_app, !concat_app. simpl.
    replace (produced (o, entry o)) with (@nil T) by (by destruct o).
    replace (consumed (o, entry o)) with (@nil T) by (by destruct o).
    by rewrite !app_nil_r.
Qed.

(** ** Every step keeps the invariant *)

Lemma wrap_expected q h :
  1 <= capacity_ q -> 0 <= h -> h + 1 < 2 ^ 63 ->
  wrap (turn_ q h * 2) = 2 * turn_ q h /\
  wrap (turn_ q h * 2 + 1) = 2 * turn_ q h + 1 /\
  wrap (turn_ q h * 2 + 2) = 2 * turn_ q h + 2.
Proof.
  intros HC Hh Hlt. word_bounds. pose proof (turn_range q h HC Hh).
  rewrite !wrap_small by lia. lia.
Qed.

Lemma thread_role q o p t r :
  thread_ok q (o, p) -> role_of p = Some (t, r) ->
  ticket_ok r t q /\ forall s, slot_at q t = Some s -> role_ok r (turn_ q t) s.
Proof. intros [_ H] Hr. by apply H. Qed.

Lemma thread_value q o p v :
  thread_ok q (o, p) -> pc_value p = Some v -> value_of o = Some v.
Proof. intros [H _] Hv. by apply H. Qed.

(** A step to a program counter that holds no ticket. *)
Lemma par_inv_quiet_free n q ths i o p p' :
  par_inv n q ths -> ths !! i = Some (o, p) ->
  thread_ok q (o, p') ->
  (forall t r, role_of p' = Some (t, r) -> holds_head r = false /\ holds_tail r = false) ->
  (forall t r, role_of p = Some (t, r) -> owns r = false) ->
  produced (o, p') = produced (o, p) -> consumed (o, p') = consumed (o, p) ->
  par_inv n q (<[i:=(o, p')]> ths).
Proof.
  intros Hinv Hi Hok Hnew Hold Hprod Hcons.
  apply (par_inv_quiet n q ths i (o, p) p'); try done.
  - intros t r' Hr' Hh. destruct (Hnew t r' Hr'). congruence.
  - intros t r' Hr' Hh. destruct (Hnew t r' Hr'). congruence.
  - intros t r Hr Ho. simpl in Hr. rewrite (Hold t r Hr) in Ho. done.
Qed.

(** A step that keeps the ticket. *)
Lemma par_inv_quiet_keep n q ths i o p p' t r r' :
  par_inv n q ths -> ths !! i = Some (o, p) ->
  role_of p = Some (t, r) -> role_of p' = Some (t, r') ->
  holds_head r' = holds_head r -> holds_tail r' = holds_tail r ->
  (owns r = true -> owns r' = true) ->
  thread_ok q (o, p') ->
  produced (o, p') = produced (o, p) -> consumed (o, p') = consumed (o, p) ->
  par_inv n q (<[i:=(o, p')]> ths).
Proof.
  intros Hinv Hi Hr Hr' Hhh Hht Ho Hok Hprod Hcons.
  apply (par_inv_quiet n q ths i (o, p) p'); try done.
  - intros t0 r0 Hr0 Hh. rewrite Hr' in Hr0. injection Hr0 as <- <-.
    exists r. split; [done|congruence].
  - intros t0 r0 Hr0 Hh. rewrite Hr' in Hr0. injection Hr0 as <- <-.
    exists r. split; [done|congruence].
  - intros t0 r0 Hr0 Ho0. simpl in Hr0. rewrite Hr in Hr0. injection Hr0 as <- <-.
    exists r'. by eauto.
Qed.

(** The step of a thread that stays where it is. *)
Lemma par_inv_stay n q ths i o p :
  par_inv n q ths -> ths !! i = Some (o, p) -> par_inv n q (<[i:=(o, p)]> ths).
Proof. intros Hinv Hi. by rewrite list_insert_id. Qed.

Ltac step_slot Hstep s Hs :=
  match type of Hstep with
  | context [slot_at ?q ?t] =>
      destruct (slot_at q t) as [s|] eqn:Hs; simpl in Hstep; [|done]
  end.

Lemma thread_step_inv n q ths i o p p' q' ev :
  par_inv n q ths -> n + 1 < 2 ^ 63 ->
  ths !! i = Some (o, p) -> step p q = Some (p', q', ev) ->
  par_inv (n + 1) q' (<[i:=(o, p')]> ths).
Proof.
  intros Hinv Hn Hi Hstep.
  pose proof (par_capacity _ _ _ Hinv) as HC.
  pose proof (par_head _ _ _ Hinv) as Hhd.
  pose proof (par_tail _ _ _ Hinv) as Htl.
  pose proof (inv_threads _ _ _ Hinv i _ Hi) as Hok.
  pose proof (par_inv_weaken n (n + 1) q ths Hinv ltac:(lia)) as Hinv'.
  word_bounds.
  destruct p; simpl in Hstep.
  - (* emplace_fetch_add *)
    injection Hstep as <- <- <-. rewrite wrap_small by lia.
    apply (par_inv_head (n + 1) q ths i (o, emplace_fetch_add v) _ ProdWait);
      try done; [lia|].
    split.
    + intros v0 Hv0. by apply (thread_value q o (emplace_fetch_add v)).
    + intros t r [= <- <-]. split.
      * split; [lia|]. simpl. change (head_ (with_head q (head_ q + 1))) with (head_ q + 1). lia.
      * intros s Hs. simpl. apply (par_head_free _ _ _ Hinv); [lia|done].
  - (* emplace_spin *)
    destruct (thread_role q o _ _ _ Hok eq_refl) as [[Ht0 Htk] Hrole]. simpl in Htk.
    step_slot Hstep s Hs. injection Hstep as <- <- <-.
    destruct (wrap_expected q head HC Ht0 ltac:(lia)) as (He0 & He1 & He2).
    rewrite He0. destruct (Z.eqb_spec (2 * turn_ q head) (turn s)) as [Heq|Hne].
    + apply (par_inv_quiet_keep (n + 1) q ths i o (emplace_spin head v) _ head ProdWait ProdEmpty);
        try done.
      split; [intros v0 Hv0; by apply (thread_value q o (emplace_spin head v))|].
      intros t r [= <- <-]. split; [done|]. intros s1 Hs1.
      assert (s1 = s) as -> by congruence.
      split; [done|]. apply (slot_free_empty (n + 1) q ths head s Hinv' Hs); [done|].
      intros j thj r Hj Hr Ho Hh.
      assert (i = j) as <-.
      { by apply (par_head_unique _ _ _ Hinv i j (o, emplace_spin head v) thj head ProdWait r). }
      rewrite Hi in Hj. injection Hj as <-. simpl in Hr. injection Hr as <-. done.
    + by apply par_inv_stay.
  - (* emplace_construct *)
    step_slot Hstep s Hs. injection Hstep as <- <- <-.
    destruct (thread_role q o _ _ _ Hok eq_refl) as [[Ht0 Htk] Hrole]. simpl in Htk.
    destruct (Hrole s Hs) as [Hturn Hnone].
    pose proof (thread_value q o _ v Hok eq_refl) as Hv.
    apply (par_inv_write (n + 1) q ths i (o, emplace_construct head v) (emplace_store head)
             head ProdEmpty ProdFull s (slot_construct v s)); try done.
    rewrite stored_with_slot.
    rewrite (concat_map_insert_cons produced ths i (o, emplace_construct head v) _ v Hi)
      by (unfold produced; simpl; by rewrite Hv).
    rewrite (concat_map_insert_same consumed ths i (o, emplace_construct head v)) by done.
    rewrite (omap_insert_fill storage (slots_ q) _ s (slot_construct v s) v Hs Hnone eq_refl).
    rewrite (par_conserved _ _ _ Hinv). by rewrite Permutation_middle.
  - (* emplace_store *)
    step_slot Hstep s Hs. injection Hstep as <- <- <-.
    destruct (thread_role q o _ _ _ Hok eq_refl) as [[Ht0 Htk] Hrole]. simpl in Htk.
    destruct (Hrole s Hs) as [Hturn Hsome].
    destruct (wrap_expected q head HC Ht0 ltac:(lia)) as (He0 & He1 & He2). rewrite He1.
    apply (par_inv_publish (n + 1) q ths i (o, emplace_store head) (Return ret_void)
             head ProdFull s _); try done.
    + simpl. lia.
    + rewrite turn_is_odd_odd. simpl. rewrite odd_double_succ.
      unfold occupied. simpl. by destruct Hsome as [x ->].
  - (* try_emplace_load *)
    injection Hstep as <- <- <-.
    apply (par_inv_quiet_free (n + 1) q ths i o (try_emplace_load v)); try done.
    + split; [intros v0 Hv0; by apply (thread_value q o (try_emplace_load v))|].
      intros t r [= <- <-]. split; [|done]. split; simpl; lia.
    + by intros t r [= <- <-].
  - (* try_emplace_check *)
    step_slot Hstep s Hs. injection Hstep as <- <- <-.
    destruct (thread_role q o _ _ _ Hok eq_refl) as [[Ht0 Htk] Hrole]. simpl in Htk.
    destruct (wrap_expected q head HC Ht0 ltac:(lia)) as (He0 & He1 & He2).
    rewrite He0.
    apply (par_inv_quiet_free (n + 1) q ths i o (try_emplace_check head v)); try done.
    + split; [intros v0 Hv0; apply (thread_value q o (try_emplace_check head v));
              [done|by destruct (_ =? _)]|].
      destruct (Z.eqb_spec (2 * turn_ q head) (turn s)) as [Heq|Hne];
        intros t r [= <- <-]; (split; [done|]); [|done].
      intros s1 Hs1. assert (s1 = s) as -> by congruence. simpl. lia.
    + by destruct (_ =? _); intros t r [= <- <-].
    + by intros t r [= <- <-].
    + by destruct (_ =? _).
    + by destruct (_ =? _).
  - (* try_emplace_cas *)
    destruct (thread_role q o _ _ _ Hok eq_refl) as [[Ht0 Htk] Hrole]. simpl in Htk.
    destruct (Z.eqb_spec (head_ q) head) as [<-|Hne]; injection Hstep as <- <- <-.
    + rewrite wrap_small by lia.
      apply (par_inv_head (n + 1) q ths i (o, try_emplace_cas (head_ q) v) _ ProdEmpty);
        try done; [lia|by intros t r [= <- <-]|].
      split; [intros v0 Hv0; by apply (thread_value q o (try_emplace_cas (head_ q) v))|].
      intros t r [= <- <-]. split.
      * split; [lia|]. simpl.
        change (head_ (with_head q (head_ q + 1))) with (head_ q + 1). lia.
      * intros s Hs. change (slot_at q (head_ q) = Some s) in Hs.
        change (turn_ (with_head q (head_ q + 1)) (head_ q)) with (turn_ q (head_ q)).
        pose proof (Hrole s Hs) as Hge. simpl in Hge.
        pose proof (par_head_free _ _ _ Hinv (head_ q) s ltac:(lia) Hs) as Hle.
        assert (Hturn : turn s = 2 * turn_ q (head_ q)) by lia.
        split; [done|]. apply (slot_free_empty n q ths (head_ q) s Hinv Hs Hturn).
        intros j thj r Hj Hr Ho Hh.
        destruct (par_role _ _ _ _ _ _ _ Hinv Hj Hr) as ([_ Hlt] & _).
        rewrite (holds_head_producer r Hh), Hh in Hlt. lia.
    + apply (par_inv_quiet_free (n + 1) q ths i o (try_emplace_cas head v)); try done.
      * split; [intros v0 Hv0; by apply (thread_value q o (try_emplace_cas head v))|].
        intros t r [= <- <-]. split; [|done]. split; simpl; lia.
      * by intros t r [= <- <-].
      * by intros t r [= <- <-].
  - (* try_emplace_construct *)
    step_slot Hstep s Hs. injection Hstep as <- <- <-.
    destruct (thread_role q o _ _ _ Hok eq_refl) as [[Ht0 Htk] Hrole]. simpl in Htk.
    destruct (Hrole s Hs) as [Hturn Hnone].
    pose proof (thread_value q o _ v Hok eq_refl) as Hv.
    apply (par_inv_write (n + 1) q ths i (o, try_emplace_construct head v)
             (try_emplace_store head) head ProdEmpty ProdFull s (slot_construct v s));
      try done.
    rewrite stored_with_slot.
    rewrite (concat_map_insert_cons produced ths i (o, try_emplace_construct head v) _ v Hi)
      by (unfold produced; simpl; by rewrite Hv).
    rewrite (concat_map_insert_same consumed ths i (o, try_emplace_construct head v)) by done.
    rewrite (omap_insert_fill storage (slots_ q) _ s (slot_construct v s) v Hs Hnone eq_refl).
    rewrite (par_conserved _ _ _ Hinv). by rewrite Permutation_middle.
  - (* try_emplace_store *)
    step_slot Hstep s Hs. injection Hstep as <- <- <-.
    destruct (thread_role q o _ _ _ Hok eq_refl) as [[Ht0 Htk] Hrole]. simpl in Htk.
    destruct (Hrole s Hs) as [Hturn Hsome].
    destruct (wrap_expected q head HC Ht0 ltac:(lia)) as (He0 & He1 & He2). rewrite He1.
    apply (par_inv_publish (n + 1) q ths i (o, try_emplace_store head) (Return (ret_bool true))
             head ProdFull s _); try done.
    + simpl. lia.
    + rewrite turn_is_odd_odd. simpl. rewrite odd_double_succ.
      unfold occupied. simpl. by destruct Hsome as [x ->].
  - (* try_emplace_reload *)
    injection Hstep as <- <- <-.
    apply (par_inv_quiet_free (n + 1) q ths i o (try_emplace_reload prev_head v)); try done.
    + split; [intros v0 Hv0; apply (thread_value q o (try_emplace_reload prev_head v));
              [done|by destruct (_ =? _)]|].
      destruct (_ =? _); intros t r [= <- <-]. split; [|done]. split; simpl; lia.
    + by destruct (_ =? _); intros t r [= <- <-].
    + by intros t r [= <- <-].
    + by destruct (_ =? _).
    + by destruct (_ =? _).
  - (* pop_fetch_add *)
    injection Hstep as <- <- <-. rewrite wrap_small by lia.
    apply (par_inv_tail (n + 1) q ths i (o, pop_fetch_add out) _ ConsWait);
      try done; [lia|].
    split; [done|].
    intros t r [= <- <-]. split.
    + split; [lia|]. simpl. change (tail_ (with_tail q (tail_ q + 1))) with (tail_ q + 1). lia.
    + intros s Hs. simpl. apply (par_tail_free _ _ _ Hinv); [lia|done].
  - (* pop_spin *)
    step_slot Hstep s Hs. injection Hstep as <- <- <-.
    destruct (thread_role q o _ _ _ Hok eq_refl) as [[Ht0 Htk] Hrole]. simpl in Htk.
    destruct (wrap_expected q tail HC Ht0 ltac:(lia)) as (He0 & He1 & He2).
    rewrite He1. destruct (Z.eqb_spec (2 * turn_ q tail + 1) (turn s)) as [Heq|Hne].
    + apply (par_inv_quiet_keep (n + 1) q ths i o (pop_spin tail out) _ tail ConsWait ConsTake);
        try done.
      split; [done|].
      intros t r [= <- <-]. split; [done|]. intros s1 Hs1.
      assert (s1 = s) as -> by congruence.
      split; [done|]. apply (slot_full_occupied (n + 1) q ths tail s Hinv' Hs); [done|].
      intros j thj r Hj Hr Ho Hh.
      assert (i = j) as <-.
      { by apply (par_tail_unique _ _ _ Hinv i j (o, pop_spin tail out) thj tail ConsWait r). }
      rewrite Hi in Hj. injection Hj as <-. simpl in Hr. injection Hr as <-. done.
    + by apply par_inv_stay.
  - (* pop_move *)
    step_slot Hstep s Hs. destruct (slot_move s) as [x|] eqn:Hx; simpl in Hstep; [|done].
    injection Hstep as <- <- <-.
    destruct (thread_role q o _ _ _ Hok eq_refl) as [[Ht0 Htk] Hrole]. simpl in Htk.
    destruct (Hrole s Hs) as [Hturn Hsome].
    apply (par_inv_quiet_keep (n + 1) q ths i o (pop_move tail out) _ tail ConsTake (ConsFull x));
      try done.
    split; [done|]. intros t r [= <- <-]. split; [done|].
    intros s1 Hs1. by assert (s1 = s) as -> by congruence.
  - (* pop_destroy *)
    step_slot Hstep s Hs.
    destruct (thread_role q o _ _ _ Hok eq_refl) as [[Ht0 Htk] Hrole]. simpl in Htk.
    destruct (Hrole s Hs) as [Hturn Hsome].
    unfold slot_destroy in Hstep. rewrite Hsome in Hstep. simpl in Hstep.
    injection Hstep as <- <- <-.
    apply (par_inv_write (n + 1) q ths i (o, pop_destroy tail out) (pop_store tail out)
             tail (ConsFull out) ConsEmpty s (Slot (turn s) None)); try done.
    rewrite stored_with_slot.
    rewrite (concat_map_insert_same produced ths i (o, pop_destroy tail out)) by done.
    rewrite (concat_map_insert_cons consumed ths i (o, pop_destroy tail out) _ out Hi) by done.
    rewrite (par_conserved _ _ _ Hinv).
    rewrite <- (omap_insert_clear storage (slots_ q) _ s (Slot (turn s) None) out Hs Hsome eq_refl).
    simpl. by rewrite Permutation_middle.
  - (* pop_store *)
    step_slot Hstep s Hs. injection Hstep as <- <- <-.
    destruct (thread_role q o _ _ _ Hok eq_refl) as [[Ht0 Htk] Hrole]. simpl in Htk.
    destruct (Hrole s Hs) as [Hturn Hnone].
    destruct (wrap_expected q tail HC Ht0 ltac:(lia)) as (He0 & He1 & He2). rewrite He2.
    apply (par_inv_publish (n + 1) q ths i (o, pop_store tail out) (Return (ret_pop out))
             tail ConsEmpty s _); try done.
    + simpl. lia.
    + rewrite turn_is_odd_odd. simpl.
      replace (2 * turn_ q tail + 2) with (2 * (turn_ q tail + 1)) by lia.
      rewrite odd_double. unfold occupied. simpl. by rewrite Hnone.
  - (* try_pop_load *)
    injection Hstep as <- <- <-.
    apply (par_inv_quiet_free (n + 1) q ths i o (try_pop_load out)); try done.
    + split; [done|].
      intros t r [= <- <-]. split; [|done]. split; simpl; lia.
    + by intros t r [= <- <-].
  - (* try_pop_check *)
    step_slot Hstep s Hs. injection Hstep as <- <- <-.
    destruct (thread_role q o _ _ _ Hok eq_refl) as [[Ht0 Htk] Hrole]. simpl in Htk.
    destruct (wrap_expected q tail HC Ht0 ltac:(lia)) as (He0 & He1 & He2).
    rewrite He1.
    apply (par_inv_quiet_free (n + 1) q ths i o (try_pop_check tail out)); try done.
    + split; [by destruct (_ =? _)|].
      destruct (Z.eqb_spec (2 * turn_ q tail + 1) (turn s)) as [Heq|Hne];
        intros t r [= <- <-]; (split; [done|]); [|done].
      intros s1 Hs1. assert (s1 = s) as -> by congruence. simpl. lia.
    + by destruct (_ =? _); intros t r [= <- <-].
    + by intros t r [= <- <-].
    + by destruct (_ =? _).
    + by destruct (_ =? _).
  - (* try_pop_cas *)
    destruct (thread_role q o _ _ _ Hok eq_refl) as [[Ht0 Htk] Hrole]. simpl in Htk.
    destruct (Z.eqb_spec (tail_ q) tail) as [<-|Hne]; injection Hstep as <- <- <-.
    + rewrite wrap_small by lia.
      apply (par_inv_tail (n + 1) q ths i (o, try_pop_cas (tail_ q) out) _ ConsTake);
        try done; [lia|by intros t r [= <- <-]|].
      split; [done|].
      intros t r [= <- <-]. split.
      * split; [lia|]. simpl.
        change (tail_ (with_tail q (tail_ q + 1))) with (tail_ q + 1). lia.
      * intros s Hs. change (slot_at q (tail_ q) = Some s) in Hs.
        change (turn_ (with_tail q (tail_ q + 1)) (tail_ q)) with (turn_ q (tail_ q)).
        pose proof (Hrole s Hs) as Hge. simpl in Hge.
        pose proof (par_tail_free _ _ _ Hinv (tail_ q) s ltac:(lia) Hs) as Hle.
        assert (Hturn : turn s = 2 * turn_ q (tail_ q) + 1) by lia.
        split; [done|]. apply (slot_full_occupied n q ths (tail_ q) s Hinv Hs Hturn).
        intros j thj r Hj Hr Ho Hh.
        destruct (par_role _ _ _ _ _ _ _ Hinv Hj Hr) as ([_ Hlt] & _).
        rewrite (holds_tail_consumer r Hh), Hh in Hlt. lia.
    + apply (par_inv_quiet_free (n + 1) q ths i o (try_pop_cas tail out)); try done.
      * split; [done|].
        intros t r [= <- <-]. split; [|done]. split; simpl; lia.
      * by intros t r [= <- <-].
      * by intros t r [= <- <-].
  - (* try_pop_move *)
    step_slot Hstep s Hs. destruct (slot_move s) as [x|] eqn:Hx; simpl in Hstep; [|done].
    injection Hstep as <- <- <-.
    destruct (thread_role q o _ _ _ Hok eq_refl) as [[Ht0 Htk] Hrole]. simpl in Htk.
    destruct (Hrole s Hs) as [Hturn Hsome].
    apply (par_inv_quiet_keep (n + 1) q ths i o (try_pop_move tail out) _ tail ConsTake (ConsFull x));
      try done.
    split; [done|]. intros t r [= <- <-]. split; [done|].
    intros s1 Hs1. by assert (s1 = s) as -> by congruence.
  - (* try_pop_destroy *)
    step_slot Hstep s Hs.
    destruct (thread_role q o _ _ _ Hok eq_refl) as [[Ht0 Htk] Hrole]. simpl in Htk.
    destruct (Hrole s Hs) as [Hturn Hsome].
    unfold slot_destroy in Hstep. rewrite Hsome in Hstep. simpl in Hstep.
    injection Hstep as <- <- <-.
    apply (par_inv_write (n + 1) q ths i (o, try_pop_destroy tail out) (try_pop_store tail out)
             tail (ConsFull out) ConsEmpty s (Slot (turn s) None)); try done.
    rewrite stored_with_slot.
    rewrite (concat_map_insert_same produced ths i (o, try_pop_destroy tail out)) by done.
    rewrite (concat_map_insert_cons consumed ths i (o, try_pop_destroy tail out) _ out Hi) by done.
    rewrite (par_conserved _ _ _ Hinv).
    rewrite <- (omap_insert_clear storage (slots_ q) _ s (Slot (turn s) None) out Hs Hsome eq_refl).
    simpl. by rewrite Permutation_middle.
  - (* try_pop_store *)
    step_slot Hstep s Hs. injection Hstep as <- <- <-.
    destruct (thread_role q o _ _ _ Hok eq_refl) as [[Ht0 Htk] Hrole]. simpl in Htk.
    destruct (Hrole s Hs) as [Hturn Hnone].
    destruct (wrap_expected q tail HC Ht0 ltac:(lia)) as (He0 & He1 & He2). rewrite He2.
    apply (par_inv_publish (n + 1) q ths i (o, try_pop_store tail out) (Return (ret_try_pop true out))
             tail ConsEmpty s _); try done.
    + simpl. lia.
    + rewrite turn_is_odd_odd. simpl.
      replace (2 * turn_ q tail + 2) with (2 * (turn_ q tail + 1)) by lia.
      rewrite odd_double. unfold occupied. simpl. by rewrite Hnone.
  - (* try_pop_reload *)
    injection Hstep as <- <- <-.
    apply (par_inv_quiet_free (n + 1) q ths i o (try_pop_reload prev_tail out)); try done.
    + split; [by destruct (_ =? _)|].
      destruct (_ =? _); intros t r [= <- <-]. split; [|done]. split; simpl; lia.
    + by destruct (_ =? _); intros t r [= <- <-].
    + by intros t r [= <- <-].
    + by destruct (_ =? _).
    + by destruct (_ =? _).
  - (* Return *)
    injection Hstep as <- <- <-. by apply par_inv_stay.
Qed.


(** ** The invariant holds in every state of every interleaving *)

Lemma stored_fresh (C addr : Z) : stored (fresh (T:=T) C addr) = [].
Proof.
  unfold stored, fresh. simpl. rewrite construct_slots_replicate.
  by induction (Z.to_nat C) as [|k IH].
Qed.

Lemma par_inv_fresh (C addr : Z) : 1 <= C -> par_inv 0 (fresh (T:=T) C addr) [].
Proof.
  intros HC.
  assert (Hinit : forall k s, slots_ (fresh (T:=T) C addr) !! k = Some s -> s = slot_init).
  { intros k s. simpl. rewrite construct_slots_replicate. by intros [-> _]%lookup_replicate. }
  constructor; simpl; try done.
  - by rewrite construct_slots_replicate, length_replicate.
  - intros t s Ht Hs. apply Hinit in Hs as ->. simpl.
    pose proof (turn_range (fresh (T:=T) C addr) t HC Ht). lia.
  - intros t s Ht Hs. apply Hinit in Hs as ->. simpl.
    pose proof (turn_range (fresh (T:=T) C addr) t HC Ht). lia.
  - intros k s Hs. by apply Hinit in Hs as ->.
  - intros k s Hs. left. by apply Hinit in Hs as ->.
  - by rewrite stored_fresh.
Qed.

Lemma sys_reachable_inv (C addr : Z) k (st : queue T * list (op T * pc T)) :
  1 <= C -> sys_reachable C addr k st -> Z.of_nat k < 2 ^ 63 ->
  par_inv (Z.of_nat k) st.1 st.2.
Proof.
  intros HC Hreach. induction Hreach as [|k st st' Hreach IH Hstep]; intros Hk.
  - by apply par_inv_fresh.
  - specialize (IH ltac:(lia)).
    replace (Z.of_nat (S k)) with (Z.of_nat k + 1) in * by lia.
    destruct Hstep as [q ths o|q ths i o p p' q' ev Hi Hstep]; simpl in *.
    + apply par_inv_call. apply (par_inv_weaken (Z.of_nat k)); [done|lia].
    + by apply (thread_step_inv (Z.of_nat k) q ths i o p p' q' ev).
Qed.

(** No step of a thread is undefined: the slot of its ticket exists, and
    an element lives there when it is moved from and when it is destroyed. *)
Lemma step_defined n q ths i o p :
  par_inv n q ths -> ths !! i = Some (o, p) -> is_Some (step p q).
Proof.
  intros Hinv Hi.
  pose proof (inv_threads _ _ _ Hinv i _ Hi) as Hok.
  assert (Hslot : forall t, is_Some (slot_at q t)) by (intros t; by eapply par_slot_at).
  destruct p; simpl; try done;
    match goal with
    | |- context [slot_at q ?t] =>
        destruct (Hslot t) as [s Hs]; rewrite Hs; simpl
    | _ => idtac
    end; try done;
    try (destruct (thread_role q o _ _ _ Hok eq_refl) as [_ Hrole];
         destruct (Hrole s Hs) as [_ Hsome]).
  - by destruct (_ =? _).
  - unfold slot_move. by destruct Hsome as [x ->].
  - unfold slot_destroy. by rewrite Hsome.
  - by destruct (_ =? _).
  - unfold slot_move. by destruct Hsome as [x ->].
  - unfold slot_destroy. by rewrite Hsome.
Qed.

(** Where no thread is between its wait and its publication, a slot is
    empty with an even turn or full with an odd turn. *)
Lemma par_inv_parity n q ths k s :
  par_inv n q ths -> slots_ q !! k = Some s ->
  (forall i th t r, ths !! i = Some th -> role_of th.2 = Some (t, r) ->
     owns r = true -> slot_index q t <> k) ->
  exists g, 0 <= g /\
    ((turn s = 2 * g /\ storage s = None) \/
     (turn s = 2 * g + 1 /\ is_Some (storage s))).
Proof.
  intros Hinv Hs Hfree.
  pose proof (par_turn _ _ _ Hinv k s Hs) as Hnn.
  destruct (par_parity _ _ _ Hinv k s Hs) as [Hpar|(i & th & t & r & Hi & Hr & Ho & Hk)];
    [|by destruct (Hfree i th t r)].
  rewrite turn_is_odd_odd in Hpar. unfold occupied in Hpar.
  exists (turn s `div` 2). split; [by apply Z.div_pos|].
  pose proof (Zmod_odd (turn s)) as Hmod. pose proof (Z.div_mod (turn s) 2 ltac:(lia)).
  destruct (storage s) as [x|]; rewrite Hpar in Hmod; [right|left]; split; eauto; lia.
Qed.

(** A thread that has returned holds no ticket. *)
Lemma returned_role p : returned p = true -> role_of p = None.
Proof. by destruct p. Qed.

(** ** Completed runs *)

Lemma pc_of_entry o : pc_of o (entry o) = true.
Proof. by destruct o. Qed.

Lemma pc_of_step o p q p' q' ev :
  step p q = Some (p', q', ev) -> pc_of o p = true -> pc_of o p' = true.
Proof.
  intros Hstep Hpc.
  destruct o, p; try discriminate Hpc; simpl in Hstep;
    repeat match type of Hstep with
      | context [slot_at ?q ?t] => destruct (slot_at q t) as [[? [?|]]|]; simpl in Hstep
      | context [Z.eqb ?a ?b] => destruct (Z.eqb a b); simpl in Hstep
      end; try discriminate Hstep; by injection Hstep as <- <- <-.
Qed.

Lemma sys_reachable_calls (C addr : Z) k (st : queue T * list (op T * pc T)) :
  sys_reachable C addr k st -> Forall (fun th => pc_of th.1 th.2 = true) st.2.
Proof.
  induction 1 as [|k st st' Hreach IH Hstep]; [by constructor|].
  destruct Hstep as [q ths o|q ths i o p p' q' ev Hi Hstep]; simpl in *.
  - apply Forall_app. split; [done|]. constructor; [|done]. apply pc_of_entry.
  - apply Forall_insert; [done|]. simpl. apply (pc_of_step o p q p' q' ev Hstep).
    by apply (Forall_lookup_1 _ _ _ _ IH Hi).
Qed.

Lemma produced_returned o (ret : retval T) :
  pc_of o (Return ret) = true -> produced (o, Return ret) = enqueued_by o ret.
Proof. by destruct o, ret as [|[]| |[]]. Qed.

Lemma consumed_returned o (ret : retval T) : consumed (o, Return ret) = dequeued_by ret.
Proof. by destruct ret as [|[]| |[]]. Qed.

Lemma returned_threads (ops : list (op T)) (rs : list (retval T)) :
  length ops = length rs ->
  Forall (fun th => pc_of th.1 th.2 = true) (zip ops (map Return rs)) ->
  concat (map produced (zip ops (map Return rs))) = enqueued ops rs /\
  concat (map consumed (zip ops (map Return rs))) = dequeued rs.
Proof.
  revert rs. induction ops as [|o ops IH]; intros [|ret rs] Hlen Hall; try done.
  simpl in *. apply Forall_cons in Hall as [Hpc Hall].
  destruct (IH rs ltac:(lia) Hall) as [-> Hcons].
  unfold dequeued in *. simpl. rewrite Hcons.
  by rewrite (produced_returned o ret Hpc), consumed_returned.
Qed.

(** ** Schedules *)

Lemma sys_do_step (st st' : queue T * list (op T * pc T)) a :
  sys_do st a = Some st' -> sys_step st st'.
Proof.
  destruct st as [q ths]. destruct a as [o|i]; simpl.
  - intros [= <-]. constructor.
  - destruct (ths !! i) as [[o p]|] eqn:Hi; simpl; [|done].
    destruct (step p q) as [[[p' q'] ev]|] eqn:Hstep; simpl; [|done].
    intros [= <-]. by eapply sys_thread.
Qed.

Lemma sys_run_reachable (C addr : Z) acts k (st st' : queue T * list (op T * pc T)) :
  sys_reachable C addr k st -> sys_run st acts = Some st' ->
  sys_reachable C addr (k + length acts) st'.
Proof.
  revert k st. induction acts as [|a acts IH]; intros k st Hreach Hrun; simpl in *.
  - injection Hrun as <-. by rewrite Nat.add_0_r.
  - destruct (sys_do st a) as [st1|] eqn:Hdo; simpl in Hrun; [|done].
    rewrite Nat.add_succ_r. apply (IH (S k) st1); [|done].
    apply (reachable_step C addr k st st1 Hreach). by apply (sys_do_step st st1 a).
Qed.

End ProtocolTheory.

(** Calls made one after the other on a freshly constructed queue: if no
    blocking call is made when it cannot proceed then every call returns;
    and whenever the calls have returned, the values put in are the values
    taken out, in the same order, followed by the values still stored. *)
Lemma run_ops_delivery (C addr : Z) (ops : list (op T)) :
  1 <= C < size_modulus ->
  Z.of_nat (length ops) < 2 ^ 63 - 1 ->
  (admissible C ops = true -> forall fuel, (6 <= fuel)%nat ->
     exists rs q' tr, run_ops fuel ops (fresh C addr) = Done (rs, q', tr)) /\
  (forall fuel rs q' tr,
     run_ops fuel ops (fresh C addr) = Done (rs, q', tr) ->
     enqueued ops rs = dequeued rs ++ contents q' /\
     dequeued rs `prefix_of` enqueued ops rs /\
     (forall k x, dequeued rs !! k = Some x -> enqueued ops rs !! k = Some x) /\
     (forall fuel' out r q'' tr',
        pop fuel' out q' = Done (r, q'', tr') ->
        exists x, r = ret_pop x /\ contents q' = x :: contents q'') /\
     (head_ q' = tail_ q' ->
        dequeued rs = enqueued ops rs /\ Permutation (enqueued ops rs) (dequeued rs))).
Proof.
  intros HC Hlen. pose proof (ring_fresh C addr HC) as Hfresh. split.
  - intros Hadm fuel Hfuel.
    destruct (admissible_fifo_run C ops [] Hadm) as (rs & l' & Hfifo).
    pose proof (ring_run_ops ops (fresh C addr) [] fuel Hfresh) as H.
    simpl in H. rewrite Hfifo in H.
    destruct H as (q' & tr & Hrun & _); [lia|done|]. by eauto.
  - intros fuel rs q' tr Hrun.
    destruct (run_ops_fifo fuel ops (fresh C addr) [] rs q' tr Hfresh) as
      (l' & Hfifo & Hring & HC' & Hp' & Hh' & Hbal); [simpl; lia|done|].
    simpl in Hh'.
    pose proof (fifo_run_order _ _ _ _ _ Hfifo) as Horder. simpl in Horder.
    rewrite (ring_contents q' l' Hring).
    split; [done|]. split; [by exists l'|]. split; [|split].
    + intros k x Hk. rewrite Horder. by apply lookup_app_l_Some.
    + intros fuel' out r q'' tr' Hpop.
      pose proof (ring_call q' l' (Pop out) (fuel' + 6) Hring ltac:(lia) ltac:(lia)) as Hcall.
      simpl in Hcall. destruct l' as [|x l'].
      * unfold pop in Hpop. by rewrite Hcall in Hpop.
      * destruct Hcall as (q2 & tr2 & Hrun2 & Hring2 & _).
        unfold pop in Hpop.
        rewrite (run_mono _ (fuel' + 6) _ _ _ Hpop ltac:(lia)) in Hrun2.
        injection Hrun2 as -> -> ->. exists x.
        by rewrite (ring_contents _ _ Hring2).
    + intros Heq. pose proof (ring_head _ _ Hring) as Hhd.
      destruct l' as [|x l']; [|simpl length in Hhd; lia].
      rewrite app_nil_r in Horder. by rewrite Horder.
Qed.

(** C1. FIFO delivery and conservation.  For every sequence of calls made
    one after the other on a freshly constructed queue (fewer than 2^63
    calls, so that the tickets do not wrap), if no blocking call is made
    when it cannot proceed then every call returns; and whenever the calls
    have returned, the values put in are exactly the values taken out, in
    the same order, followed by the values still stored, oldest first: the
    k-th value taken out is the k-th value put in, a further [pop] returns
    the oldest value still stored, nothing is created, duplicated or lost,
    and once the queue is drained the values taken out are the values put
    in.  For calls made by any number of threads, whose steps interleave in
    any way (fewer than 2^63 steps): no step is undefined, and in every
    state the values constructed in the queue are, as multisets, the values
    destroyed there and the values still stored; when every call has
    returned, the values put in are the values taken out and the values
    still stored, and the values taken out alone once no value is stored. *)
Theorem fifo_delivery_and_conservation (C addr : Z) :
  1 <= C < size_modulus ->
  (forall ops : list (op T), Z.of_nat (length ops) < 2 ^ 63 - 1 ->
     (admissible C ops = true -> forall fuel, (6 <= fuel)%nat ->
        exists rs q' tr, run_ops fuel ops (fresh C addr) = Done (rs, q', tr)) /\
     (forall fuel rs q' tr,
        run_ops fuel ops (fresh C addr) = Done (rs, q', tr) ->
        enqueued ops rs = dequeued rs ++ contents q' /\
        dequeued rs `prefix_of` enqueued ops rs /\
        (forall k x, dequeued rs !! k = Some x -> enqueued ops rs !! k = Some x) /\
        (forall fuel' out r q'' tr',
           pop fuel' out q' = Done (r, q'', tr') ->
           exists x, r = ret_pop x /\ contents q' = x :: contents q'') /\
        (head_ q' = tail_ q' ->
           dequeued rs = enqueued ops rs /\ Permutation (enqueued ops rs) (dequeued rs)))) /\
  (forall k q (ths : list (op T * pc T)),
     Z.of_nat k < 2 ^ 63 -> sys_reachable C addr k (q, ths) ->
     (forall i o p, ths !! i = Some (o, p) -> is_Some (step p q)) /\
     Permutation (concat (map produced ths)) (concat (map consumed ths) ++ stored q)) /\
  (forall k q (ops : list (op T)) rs,
     Z.of_nat k < 2 ^ 63 -> length ops = length rs ->
     sys_reachable C addr k (q, zip ops (map Return rs)) ->
     Permutation (enqueued ops rs) (dequeued rs ++ stored q) /\
     (stored q = [] -> Permutation (enqueued ops rs) (dequeued rs))).
Proof.
  intros HC. split; [|split].
  - intros ops Hlen. by apply run_ops_delivery.
  - intros k q ths Hk Hreach.
    pose proof (sys_reachable_inv C addr k (q, ths) ltac:(lia) Hreach Hk) as Hinv.
    split; [|apply (par_conserved _ _ _ Hinv)].
    intros i o p Hi. by apply (step_defined _ _ _ _ _ _ Hinv Hi).
  - intros k q ops rs Hk Hlen Hreach.
    pose proof (sys_reachable_inv C addr k _ ltac:(lia) Hreach Hk) as Hinv.
    pose proof (par_conserved _ _ _ Hinv) as Hcons. simpl in Hcons.
    destruct (returned_threads ops rs Hlen (sys_reachable_calls C addr k _ Hreach))
      as [Hprod Hcon].
    rewrite Hprod, Hcon in Hcons. split; [done|].
    intros Hempty. by rewrite Hempty, app_nil_r in Hcons.
Qed.

(** Every slot of a quiescent queue belongs to exactly one ticket of the
    window [tail_ q, tail_ q + capacity_ q). *)
Lemma ring_slot q l i s :
  ring q l -> slots_ q !! i = Some s ->
  exists t, tail_ q <= t < tail_ q + capacity_ q /\ slot_index q t = i /\
    ((t < head_ q /\ turn s = 2 * turn_ q t + 1 /\ is_Some (storage s)) \/
     (head_ q <= t /\ turn s = 2 * turn_ q t /\ storage s = None)).
Proof.
  intros [HC Hlen Ht Hh Hfit Hnw Hfull Hfree Hlive] Hs.
  pose proof (lookup_lt_Some _ _ _ Hs) as Hi.
  set (t := tail_ q + (Z.of_nat i - tail_ q) `mod` capacity_ q).
  pose proof (Z.mod_pos_bound (Z.of_nat i - tail_ q) (capacity_ q) ltac:(lia)) as Hmod.
  assert (Hidx : slot_index q t = i).
  { unfold slot_index, idx_, t. rewrite Zplus_mod_idemp_r.
    replace (tail_ q + (Z.of_nat i - tail_ q)) with (Z.of_nat i) by lia.
    rewrite Z.mod_small by lia. lia. }
  exists t. split; [lia|]. split; [done|].
  assert (Hat : slot_at q t = Some s) by (unfold slot_at; by rewrite Hidx).
  destruct (Z.lt_ge_cases t (head_ q)) as [Hlt|Hge].
  - left. split; [done|].
    destruct (lookup_lt_is_Some_2 l (Z.to_nat (t - tail_ q))) as [x Hx]; [lia|].
    pose proof (Hfull _ _ Hx) as Hfx.
    replace (tail_ q + Z.of_nat (Z.to_nat (t - tail_ q))) with t in Hfx by lia.
    rewrite Hat in Hfx. injection Hfx as ->. by eauto.
  - right. split; [done|].
    rewrite (Hfree t) in Hat by lia. by injection Hat as <-.
Qed.

Lemma even_turn_generation t :
  0 <= t -> Z.odd t = false -> exists g, 0 <= g /\ t = 2 * g.
Proof.
  intros Ht Hodd. exists (t `div` 2).
  pose proof (Z.div_mod t 2 ltac:(lia)) as H. rewrite Zmod_odd, Hodd in H.
  split; [apply Z.div_pos; lia|lia].
Qed.

Lemma odd_turn_generation t :
  0 <= t -> Z.odd t = true -> exists g, 0 <= g /\ t = 2 * g + 1.
Proof.
  intros Ht Hodd. exists (t `div` 2).
  pose proof (Z.div_mod t 2 ltac:(lia)) as H. rewrite Zmod_odd, Hodd in H.
  split; [apply Z.div_pos; lia|lia].
Qed.

(** After calls made one after the other, every slot is empty with an even
    turn or full with an odd turn, and is the slot of one ticket of the
    window [tail, tail + C). *)
Lemma run_ops_parity (C addr : Z) (ops : list (op T)) fuel rs q' tr i s :
  1 <= C < size_modulus ->
  run_ops fuel ops (fresh C addr) = Done (rs, q', tr) ->
  slots_ q' !! i = Some s ->
  (exists g, 0 <= g /\
     ((turn s = 2 * g /\ storage s = None) \/
      (turn s = 2 * g + 1 /\ is_Some (storage s)))) /\
  (is_Some (storage s) <-> Z.odd (turn s) = true) /\
  (Z.of_nat (length ops) < 2 ^ 63 ->
     exists t, tail_ q' <= t < tail_ q' + C /\ slot_index q' t = i /\
       ((t < head_ q' /\ turn s = 2 * (t `div` C) + 1 /\ is_Some (storage s)) \/
        (head_ q' <= t /\ turn s = 2 * (t `div` C) /\ storage s = None))).
Proof.
  intros HC Hrun Hs.
  pose proof (quiescent_run_ops ops (fresh C addr) fuel
                (quiescent_fresh C addr ltac:(lia))) as Hq.
  rewrite Hrun in Hq. destruct Hq as ([_ _ Hpar Hrange] & HC' & _).
  specialize (Hpar i s Hs). specialize (Hrange i s Hs).
  rewrite turn_is_odd_odd in Hpar. unfold occupied in Hpar.
  split; [|split].
  - destruct (storage s) as [x|] eqn:Hst.
    + destruct (odd_turn_generation (turn s)) as (g & Hg & Heq); [lia|done|].
      exists g. split; [done|]. right. by eauto.
    + destruct (even_turn_generation (turn s)) as (g & Hg & Heq); [lia|done|].
      exists g. split; [done|]. by left.
  - destruct (storage s) as [x|]; rewrite Hpar; split; try done;
      first [by eauto | by intros [? ?]].
  - intros Hlen.
    destruct (run_ops_fifo fuel ops (fresh C addr) [] rs q' tr
                (ring_fresh C addr HC)) as (l' & _ & Hring & HC2 & _); [simpl; lia|done|].
    destruct (ring_slot q' l' i s Hring Hs) as (t & Ht & Hidx & Hcase).
    simpl in HC2. unfold turn_ in Hcase. rewrite HC2 in Ht, Hcase. by exists t.
Qed.

(** C2. Turn parity invariant: after any sequence of [emplace], [pop],
    [try_emplace] and [try_pop] calls on a freshly constructed queue, the
    turn of every slot is [2*g] and its storage holds no element, or it is
    [2*g+1] and its storage holds an element, for a generation [g >= 0]; the
    storage holds an element exactly when the turn is odd.  While the
    tickets have not wrapped (fewer than 2^63 calls), [g] is the generation
    [t div C] of the one ticket [t] of the window [tail, tail + C) that
    uses the slot: the slot is full when [t < head] and empty otherwise.
    For calls made by any number of threads, whose steps interleave in any
    way (fewer than 2^63 steps), the same holds in every state of every
    slot but those of the calls that are between the end of their wait and
    the store that publishes the turn; so it holds of every slot when
    every call has returned. *)
Theorem turn_parity_invariant (C addr : Z) :
  1 <= C < size_modulus ->
  (forall (ops : list (op T)) fuel rs q' tr i s,
     run_ops fuel ops (fresh C addr) = Done (rs, q', tr) ->
     slots_ q' !! i = Some s ->
     (exists g, 0 <= g /\
        ((turn s = 2 * g /\ storage s = None) \/
         (turn s = 2 * g + 1 /\ is_Some (storage s)))) /\
     (is_Some (storage s) <-> Z.odd (turn s) = true) /\
     (Z.of_nat (length ops) < 2 ^ 63 ->
        exists t, tail_ q' <= t < tail_ q' + C /\ slot_index q' t = i /\
          ((t < head_ q' /\ turn s = 2 * (t `div` C) + 1 /\ is_Some (storage s)) \/
           (head_ q' <= t /\ turn s = 2 * (t `div` C) /\ storage s = None)))) /\
  (forall k q (ths : list (op T * pc T)) j s,
     Z.of_nat k < 2 ^ 63 -> sys_reachable C addr k (q, ths) ->
     slots_ q !! j = Some s ->
     (forall i th t r, ths !! i = Some th -> role_of th.2 = Some (t, r) ->
        owns r = true -> slot_index q t <> j) ->
     (exists g, 0 <= g /\
        ((turn s = 2 * g /\ storage s = None) \/
         (turn s = 2 * g + 1 /\ is_Some (storage s)))) /\
     (is_Some (storage s) <-> Z.odd (turn s) = true)) /\
  (forall k q (ths : list (op T * pc T)) j s,
     Z.of_nat k < 2 ^ 63 -> sys_reachable C addr k (q, ths) ->
     Forall (fun th => returned th.2 = true) ths ->
     slots_ q !! j = Some s ->
     (exists g, 0 <= g /\
        ((turn s = 2 * g /\ storage s = None) \/
         (turn s = 2 * g + 1 /\ is_Some (storage s)))) /\
     (is_Some (storage s) <-> Z.odd (turn s) = true)).
Proof.
  intros HC.
  assert (Hpar : forall k q (ths : list (op T * pc T)) j s,
    Z.of_nat k < 2 ^ 63 -> sys_reachable C addr k (q, ths) ->
    slots_ q !! j = Some s ->
    (forall i th t r, ths !! i = Some th -> role_of th.2 = Some (t, r) ->
       owns r = true -> slot_index q t <> j) ->
    (exists g, 0 <= g /\
       ((turn s = 2 * g /\ storage s = None) \/
        (turn s = 2 * g + 1 /\ is_Some (storage s)))) /\
    (is_Some (storage s) <-> Z.odd (turn s) = true)).
  { intros k q ths j s Hk Hreach Hs Hfree.
    pose proof (sys_reachable_inv C addr k (q, ths) ltac:(lia) Hreach Hk) as Hinv.
    destruct (par_inv_parity _ _ _ _ _ Hinv Hs Hfree) as (g & Hg & Hcase).
    split; [by exists g|].
    destruct Hcase as [[Ht Hst]|[Ht Hst]]; rewrite Ht.
    - rewrite Hst, odd_double. split; [by intros [? ?]|done].
    - by rewrite odd_double_succ. }
  split; [|split; [done|]].
  - intros ops fuel rs q' tr i s Hrun Hs. by apply (run_ops_parity C addr ops fuel rs q' tr).
  - intros k q ths j s Hk Hreach Hret Hs. apply (Hpar k q ths j s Hk Hreach Hs).
    intros i th t r Hi Hr. pose proof (Forall_lookup_1 _ _ _ _ Hret Hi) as Hth.
    simpl in Hth. by rewrite (returned_role _ Hth) in Hr.
Qed.

(** ** A thread among others: the non-blocking calls *)

Lemma exec_snoc p qs q :
  exec p (qs ++ [q])
  = match exec p qs with
    | Some p' => match step p' q with Some (p'', _, _) => Some p'' | None => None end
    | None => None
    end.
Proof.
  revert p. induction qs as [|q0 qs IH]; intros p; simpl.
  - by destruct (step p q) as [[[? ?] ?]|].
  - destruct (step p q0) as [[[p' ?] ?]|]; [apply IH|done].
Qed.

Ltac step_cases H :=
  repeat match type of H with
  | context [slot_at ?q ?t] => destruct (slot_at q t) as [[? [?|]]|]; simpl in H
  | context [Z.eqb ?a ?b] => destruct (Z.eqb_spec a b); simpl in H
  end.

Lemma step_in_try_emplace v p q p' q' ev :
  in_try_emplace v p -> step p q = Some (p', q', ev) -> in_try_emplace v p'.
Proof.
  intros Hin Hstep. destruct p as [| | | | | | | | | | | | | | | | | | | | | |[]];
    simpl in Hin; try done; subst; simpl in Hstep; step_cases Hstep;
    try discriminate; by injection Hstep as <- <- <-.
Qed.

Lemma exec_in_try_emplace v p qs p' :
  in_try_emplace v p -> exec p qs = Some p' -> in_try_emplace v p'.
Proof.
  revert p. induction qs as [|q qs IH]; intros p Hin H; simpl in H.
  - by injection H as <-.
  - destruct (step p q) as [[[p1 q1] ev]|] eqn:Hstep; [|done].
    eapply IH; [|done]. by eapply step_in_try_emplace.
Qed.

Lemma step_in_try_pop out p q p' q' ev :
  in_try_pop out p -> step p q = Some (p', q', ev) -> in_try_pop out p'.
Proof.
  intros Hin Hstep. destruct p as [| | | | | | | | | | | | | | | | | | | | | |[| |? |[] ?]];
    simpl in Hin; try done; subst; simpl in Hstep; step_cases Hstep;
    try discriminate; by injection Hstep as <- <- <-.
Qed.

Lemma exec_in_try_pop out p qs p' :
  in_try_pop out p -> exec p qs = Some p' -> in_try_pop out p'.
Proof.
  revert p. induction qs as [|q qs IH]; intros p Hin H; simpl in H.
  - by injection H as <-.
  - destruct (step p q) as [[[p1 q1] ev]|] eqn:Hstep; [|done].
    eapply IH; [|done]. by eapply step_in_try_pop.
Qed.

Lemma step_to_false v p q q' ev :
  in_try_emplace v p -> returned p = false ->
  step p q = Some (Return (ret_bool false), q', ev) ->
  p = try_emplace_reload (head_ q) v.
Proof.
  intros Hin Hret Hstep. destruct p; simpl in Hin; try done; subst;
    simpl in Hstep; step_cases Hstep; try discriminate; congruence.
Qed.

Lemma step_to_reload v p q h v' q' ev :
  in_try_emplace v p ->
  step p q = Some (try_emplace_reload h v', q', ev) ->
  p = try_emplace_check h v /\
  exists s, slot_at q h = Some s /\ turn s <> wrap (turn_ q h * 2).
Proof.
  intros Hin Hstep. destruct p; simpl in Hin; try done; subst; simpl in Hstep.
  all: try (step_cases Hstep; discriminate).
  destruct (slot_at q head) as [s|] eqn:Hs; simpl in Hstep; [|done].
  destruct (Z.eqb_spec (wrap (turn_ q head * 2)) (turn s)); [done|].
  injection Hstep as <- <- <-. split; [done|]. exists s. split; [done|congruence].
Qed.

Lemma step_to_check v p q h v' q' ev :
  in_try_emplace v p ->
  step p q = Some (try_emplace_check h v', q', ev) ->
  loads_head p = true /\ h = head_ q /\ v' = v.
Proof.
  intros Hin Hstep. destruct p; simpl in Hin; try done; subst;
    simpl in Hstep; step_cases Hstep; try discriminate;
    by injection Hstep as <- <- <-.
Qed.

Lemma step_to_pop_false out p q out' q' ev :
  in_try_pop out p -> returned p = false ->
  step p q = Some (Return (ret_try_pop false out'), q', ev) ->
  p = try_pop_reload (tail_ q) out /\ out' = out.
Proof.
  intros Hin Hret Hstep. destruct p; simpl in Hin; try done; subst;
    simpl in Hstep; step_cases Hstep; try discriminate.
  injection Hstep as <- <-. split; congruence.
Qed.

Lemma step_to_pop_reload out p q t out' q' ev :
  in_try_pop out p ->
  step p q = Some (try_pop_reload t out', q', ev) ->
  p = try_pop_check t out /\
  exists s, slot_at q t = Some s /\ turn s <> wrap (turn_ q t * 2 + 1).
Proof.
  intros Hin Hstep. destruct p; simpl in Hin; try done; subst; simpl in Hstep.
  all: try (step_cases Hstep; discriminate).
  destruct (slot_at q tail) as [s|] eqn:Hs; simpl in Hstep; [|done].
  destruct (Z.eqb_spec (wrap (turn_ q tail * 2 + 1)) (turn s)); [done|].
  injection Hstep as <- <- <-. split; [done|]. exists s. split; [done|congruence].
Qed.

Lemma step_to_pop_check out p q t out' q' ev :
  in_try_pop out p ->
  step p q = Some (try_pop_check t out', q', ev) ->
  loads_tail p = true /\ t = tail_ q /\ out' = out.
Proof.
  intros Hin Hstep. destruct p; simpl in Hin; try done; subst;
    simpl in Hstep; step_cases Hstep; try discriminate;
    by injection Hstep as <- <- <-.
Qed.

Lemma expected_turn_nowrap q h :
  1 <= capacity_ q -> 0 <= h < 2 ^ 63 ->
  wrap (turn_ q h * 2) = 2 * (h `div` capacity_ q) /\
  wrap (turn_ q h * 2 + 1) = 2 * (h `div` capacity_ q) + 1.
Proof.
  intros HC Hh. word_bounds. pose proof (turn_range q h HC ltac:(lia)) as Hr.
  rewrite !wrap_small by lia. unfold turn_. lia.
Qed.

Lemma try_emplace_failure v qs q3 p :
  exec (try_emplace_load v) qs = Some p -> returned p = false ->
  exec (try_emplace_load v) (qs ++ [q3]) = Some (Return (ret_bool false)) ->
  exists qs0 q1 q2 p1 s,
    qs = qs0 ++ [q1; q2] /\
    exec (try_emplace_load v) qs0 = Some p1 /\ loads_head p1 = true /\
    exec (try_emplace_load v) (qs0 ++ [q1]) = Some (try_emplace_check (head_ q1) v) /\
    slot_at q2 (head_ q1) = Some s /\ turn s <> wrap (turn_ q2 (head_ q1) * 2) /\
    exec (try_emplace_load v) (qs0 ++ [q1; q2]) = Some (try_emplace_reload (head_ q1) v) /\
    head_ q3 = head_ q1.
Proof.
  intros Hp Hret Hlast.
  assert (Hinit : in_try_emplace v (try_emplace_load v)) by done.
  rewrite exec_snoc, Hp in Hlast.
  destruct (step p q3) as [[[p' q'] ev]|] eqn:Hstep3; [|done].
  injection Hlast as ->.
  pose proof (step_to_false v p q3 q' ev (exec_in_try_emplace _ _ _ _ Hinit Hp)
                Hret Hstep3) as ->.
  destruct qs as [|q2 qs _] using rev_ind; [done|].
  pose proof Hp as Hp2. rewrite exec_snoc in Hp2.
  destruct (exec (try_emplace_load v) qs) as [p2|] eqn:Hq2; [|done].
  destruct (step p2 q2) as [[[p2' q2'] ev2]|] eqn:Hstep2; [|done].
  injection Hp2 as ->.
  destruct (step_to_reload v p2 q2 _ _ q2' ev2
              (exec_in_try_emplace _ _ _ _ Hinit Hq2) Hstep2) as (-> & s & Hs & Hturn).
  destruct qs as [|q1 qs0 _] using rev_ind; [done|].
  pose proof Hq2 as Hp1. rewrite exec_snoc in Hp1.
  destruct (exec (try_emplace_load v) qs0) as [p1|] eqn:Hq1; [|done].
  destruct (step p1 q1) as [[[p1' q1'] ev1]|] eqn:Hstep1; [|done].
  injection Hp1 as ->.
  destruct (step_to_check v p1 q1 _ _ q1' ev1
              (exec_in_try_emplace _ _ _ _ Hinit Hq1) Hstep1) as (Hload & Hh & _).
  exists qs0, q1, q2, p1, s. rewrite <- Hh.
  rewrite <- app_assoc in Hp. simpl in Hp.
  rewrite <- app_assoc. by repeat (split; [done|]).
Qed.

Lemma try_pop_failure out qs q3 p out' :
  exec (try_pop_load out) qs = Some p -> returned p = false ->
  exec (try_pop_load out) (qs ++ [q3]) = Some (Return (ret_try_pop false out')) ->
  exists qs0 q1 q2 p1 s,
    qs = qs0 ++ [q1; q2] /\
    exec (try_pop_load out) qs0 = Some p1 /\ loads_tail p1 = true /\
    exec (try_pop_load out) (qs0 ++ [q1]) = Some (try_pop_check (tail_ q1) out) /\
    slot_at q2 (tail_ q1) = Some s /\ turn s <> wrap (turn_ q2 (tail_ q1) * 2 + 1) /\
    exec (try_pop_load out) (qs0 ++ [q1; q2]) = Some (try_pop_reload (tail_ q1) out) /\
    tail_ q3 = tail_ q1 /\ out' = out.
Proof.
  intros Hp Hret Hlast.
  assert (Hinit : in_try_pop out (try_pop_load out)) by done.
  rewrite exec_snoc, Hp in Hlast.
  destruct (step p q3) as [[[p' q'] ev]|] eqn:Hstep3; [|done].
  injection Hlast as ->.
  destruct (step_to_pop_false out p q3 _ q' ev (exec_in_try_pop _ _ _ _ Hinit Hp)
              Hret Hstep3) as [-> ->].
  destruct qs as [|q2 qs _] using rev_ind; [done|].
  pose proof Hp as Hp2. rewrite exec_snoc in Hp2.
  destruct (exec (try_pop_load out) qs) as [p2|] eqn:Hq2; [|done].
  destruct (step p2 q2) as [[[p2' q2'] ev2]|] eqn:Hstep2; [|done].
  injection Hp2 as ->.
  destruct (step_to_pop_reload out p2 q2 _ _ q2' ev2
              (exec_in_try_pop _ _ _ _ Hinit Hq2) Hstep2) as (-> & s & Hs & Hturn).
  destruct qs as [|q1 qs0 _] using rev_ind; [done|].
  pose proof Hq2 as Hp1. rewrite exec_snoc in Hp1.
  destruct (exec (try_pop_load out) qs0) as [p1|] eqn:Hq1; [|done].
  destruct (step p1 q1) as [[[p1' q1'] ev1]|] eqn:Hstep1; [|done].
  injection Hp1 as ->.
  destruct (step_to_pop_check out p1 q1 _ _ q1' ev1
              (exec_in_try_pop _ _ _ _ Hinit Hq1) Hstep1) as (Hload & Hh & _).
  exists qs0, q1, q2, p1, s. rewrite <- Hh.
  rewrite <- app_assoc in Hp. simpl in Hp.
  rewrite <- app_assoc. by repeat (split; [done|]).
Qed.

(** C3. Non-blocking failure rule, for a thread among others (the queue
    may have changed in any way between two of its steps).  When
    [try_emplace] returns false, its last three steps were: a read of
    [head_] (the first load, a failed compare-exchange or a reload) that
    found a value [h]; the check of the slot of [h], whose turn was not the
    one expected for [h]; the reload of [head_], which found [h] again.  When
    the turn is the one expected the call goes on to the compare-exchange
    of [head_] from [h] to [h + 1]; when the compare-exchange fails, or the
    reload finds another value, the call checks again with the value found
    and does not return.  The same holds for [try_pop] with [tail_] and the
    turn expected by a consumer.  The turn expected for [h] is
    [2 * (h div capacity)] by a producer and [2 * (h div capacity) + 1] by a
    consumer, while [h < 2^63]. *)
Theorem try_failure_rule :
  (forall v qs q3 p,
     exec (try_emplace_load v) qs = Some p -> returned p = false ->
     exec (try_emplace_load v) (qs ++ [q3]) = Some (Return (ret_bool false)) ->
     exists qs0 q1 q2 p1 s,
       qs = qs0 ++ [q1; q2] /\
       exec (try_emplace_load v) qs0 = Some p1 /\ loads_head p1 = true /\
       exec (try_emplace_load v) (qs0 ++ [q1]) = Some (try_emplace_check (head_ q1) v) /\
       slot_at q2 (head_ q1) = Some s /\ turn s <> wrap (turn_ q2 (head_ q1) * 2) /\
       exec (try_emplace_load v) (qs0 ++ [q1; q2])
       = Some (try_emplace_reload (head_ q1) v) /\
       head_ q3 = head_ q1) /\
  (forall h v q s,
     slot_at q h = Some s ->
     step (try_emplace_check h v) q
     = Some (if wrap (turn_ q h * 2) =? turn s
             then try_emplace_cas h v else try_emplace_reload h v, q, [])) /\
  (forall h v q,
     step (try_emplace_cas h v) q
     = if head_ q =? h
       then Some (try_emplace_construct h v, with_head q (wrap (h + 1)), [])
       else Some (try_emplace_check (head_ q) v, q, [])) /\
  (forall h v q,
     step (try_emplace_reload h v) q
     = Some (if head_ q =? h
             then Return (ret_bool false) else try_emplace_check (head_ q) v, q, [])) /\
  (forall out qs q3 p out',
     exec (try_pop_load out) qs = Some p -> returned p = false ->
     exec (try_pop_load out) (qs ++ [q3]) = Some (Return (ret_try_pop false out')) ->
     exists qs0 q1 q2 p1 s,
       qs = qs0 ++ [q1; q2] /\
       exec (try_pop_load out) qs0 = Some p1 /\ loads_tail p1 = true /\
       exec (try_pop_load out) (qs0 ++ [q1]) = Some (try_pop_check (tail_ q1) out) /\
       slot_at q2 (tail_ q1) = Some s /\ turn s <> wrap (turn_ q2 (tail_ q1) * 2 + 1) /\
       exec (try_pop_load out) (qs0 ++ [q1; q2])
       = Some (try_pop_reload (tail_ q1) out) /\
       tail_ q3 = tail_ q1 /\ out' = out) /\
  (forall t out q s,
     slot_at q t = Some s ->
     step (try_pop_check t out) q
     = Some (if wrap (turn_ q t * 2 + 1) =? turn s
             then try_pop_cas t out else try_pop_reload t out, q, [])) /\
  (forall t out q,
     step (try_pop_cas t out) q
     = if tail_ q =? t
       then Some (try_pop_move t out, with_tail q (wrap (t + 1)), [])
       else Some (try_pop_check (tail_ q) out, q, [])) /\
  (forall t out q,
     step (try_pop_reload t out) q
     = Some (if tail_ q =? t
             then Return (ret_try_pop false out) else try_pop_check (tail_ q) out, q, [])) /\
  (forall (q : queue T) h, 1 <= capacity_ q -> 0 <= h < 2 ^ 63 ->
     wrap (turn_ q h * 2) = 2 * (h `div` capacity_ q) /\
     wrap (turn_ q h * 2 + 1) = 2 * (h `div` capacity_ q) + 1).
Proof.
  split; [exact try_emplace_failure|].
  split; [by intros h v q s Hs; simpl; rewrite Hs|].
  split; [done|]. split; [done|].
  split; [exact try_pop_failure|].
  split; [by intros t out q s Hs; simpl; rewrite Hs|].
  split; [done|]. split; [done|].
  intros q h. apply expected_turn_nowrap.
Qed.

(** ** size() and empty() *)

(** C4. [size()] is the signed difference [head_ - tail_] (as long as it
    fits a [ptrdiff_t], which it does while fewer than 2^63 tickets have
    been handed out), and [empty()] is true exactly when [size() <= 0].  The
    size is negative when a consumer has taken a ticket that no producer has
    matched yet: after the [fetch_add] of a [pop] on a fresh queue it is -1. *)
Theorem size_and_empty (q : queue T) :
  0 <= head_ q < size_modulus ->
  0 <= tail_ q < size_modulus ->
  - 2 ^ 63 <= head_ q - tail_ q < 2 ^ 63 ->
  size q = head_ q - tail_ q /\
  (empty q = true <-> size q <= 0) /\
  (forall (C addr : Z) out, 1 <= C ->
     exists q1, step (pop_fetch_add out) (fresh C addr) = Some (pop_spin 0 out, q1, []) /\
       head_ q1 = 0 /\ tail_ q1 = 1 /\ size q1 = -1 /\ empty q1 = true).
Proof.
  intros Hh Ht Hd. word_bounds. split; [|split].
  - unfold size, to_ptrdiff, wrap.
    destruct (Z.le_gt_cases 0 (head_ q - tail_ q)) as [Hpos|Hneg].
    + rewrite Z.mod_small by lia.
      destruct (Z.ltb_spec (head_ q - tail_ q) (2 ^ 63)); lia.
    + replace (head_ q - tail_ q) with (head_ q - tail_ q + size_modulus + (-1) * size_modulus) by lia.
      rewrite Z.mod_add by lia. rewrite Z.mod_small by lia.
      destruct (Z.ltb_spec (head_ q - tail_ q + size_modulus) (2 ^ 63)); lia.
  - unfold empty. apply Z.leb_le.
  - intros C addr out HC. eexists. split; [reflexivity|]. by repeat split.
Qed.

(** ** Construction *)

Lemma release_head (p n : Z) (h : heap) : release p n ((p, n) :: h) = h.
Proof. simpl. by rewrite !Z.eqb_refl. Qed.

Lemma construct_slots_in_spec (block : Z) (n : nat) :
  0 <= block ->
  construct_slots_in (T:=T) block n
  = if Z.of_nat n <=? block then Some (construct_slots n) else None.
Proof.
  intros Hblock. induction n as [|n IH].
  - simpl. change (Z.of_nat 0) with 0. by destruct (Z.leb_spec 0 block); [|lia].
  - cbn [construct_slots_in construct_slots]. rewrite IH.
    destruct (Z.leb_spec (Z.of_nat n) block), (Z.ltb_spec (Z.of_nat n) block),
      (Z.leb_spec (Z.of_nat (S n)) block); simpl; try done; lia.
Qed.

(** At [capacity = 2^64 - 1] the constructor asks the allocator for no slot
    at all, and constructs its slots outside the block it gets. *)
Lemma queue_ctor_overrun (alloc : Allocator) (h : heap) addr :
  alloc h 0 = Some addr -> addr `mod` hardware_interference_size = 0 ->
  queue_ctor (T:=T) alloc (size_modulus - 1) h = None.
Proof.
  intros Halloc Hal. unfold queue_ctor.
  replace (wrap (size_modulus - 1)) with (size_modulus - 1) by reflexivity.
  replace (wrap (size_modulus - 1 + 1)) with 0 by reflexivity.
  change (size_modulus - 1 <? 1) with false. cbv beta iota zeta.
  rewrite Halloc, Hal. cbn [Z.eqb negb]. cbv iota.
  rewrite construct_slots_in_spec by done.
  destruct (Z.leb_spec (Z.of_nat (Z.to_nat (size_modulus - 1))) 0) as [Hle|]; [|done].
  rewrite Z2Nat.id in Hle by done. pose proof size_modulus_eq. lia.
Qed.

(** C5. Construction, [capacity] being a [size_t].  With [capacity < 1]
    the constructor throws [invalid_argument] before it allocates; when the
    allocator itself throws nothing was allocated; when the allocator
    returns an address that is not a multiple of the slot alignment the
    constructor gives the block back and throws [bad_alloc]; on all three
    paths the heap is as before.  The block asked for has [capacity + 1]
    slots, the sum being computed in [size_t].  With
    [1 <= capacity < 2^64 - 1] and an aligned block the queue is constructed
    with [head_ = 0], [tail_ = 0] and [capacity] slots, each with turn 0 and
    no element.  With [capacity = 2^64 - 1] the sum wraps to 0: a block of
    no slot is asked for, and when the allocator returns one, aligned, the
    loop that constructs the [capacity] slots writes outside the block: the
    behaviour of the constructor is undefined. *)
Theorem construction_semantics (alloc : Allocator) (capacity : Z) (h : heap) :
  0 <= capacity < size_modulus ->
  (capacity < 1 ->
     queue_ctor (T:=T) alloc capacity h = Some (inl invalid_argument, h, [])) /\
  (1 <= capacity -> alloc h (wrap (capacity + 1)) = None ->
     queue_ctor (T:=T) alloc capacity h = Some (inl bad_alloc, h, [])) /\
  (forall addr, 1 <= capacity -> alloc h (wrap (capacity + 1)) = Some addr ->
     addr `mod` hardware_interference_size <> 0 ->
     queue_ctor (T:=T) alloc capacity h
     = Some (inl bad_alloc, h,
             [EvAllocate addr (wrap (capacity + 1));
              EvDeallocate addr (wrap (capacity + 1))])) /\
  (forall addr, 1 <= capacity < size_modulus - 1 ->
     alloc h (wrap (capacity + 1)) = Some addr ->
     addr `mod` hardware_interference_size = 0 ->
     wrap (capacity + 1) = capacity + 1 /\
     queue_ctor (T:=T) alloc capacity h
     = Some (inr (fresh capacity addr), (addr, capacity + 1) :: h,
             [EvAllocate addr (capacity + 1)]) /\
     head_ (fresh (T:=T) capacity addr) = 0 /\
     tail_ (fresh (T:=T) capacity addr) = 0 /\
     capacity_ (fresh (T:=T) capacity addr) = capacity /\
     length (slots_ (fresh (T:=T) capacity addr)) = Z.to_nat capacity /\
     (forall i s, slots_ (fresh (T:=T) capacity addr) !! i = Some s ->
        turn s = 0 /\ storage s = None) /\
     (forall i, (i < Z.to_nat capacity)%nat ->
        slots_ (fresh (T:=T) capacity addr) !! i = Some (Slot 0 None))) /\
  (forall addr, capacity = size_modulus - 1 ->
     alloc h (wrap (capacity + 1)) = Some addr ->
     addr `mod` hardware_interference_size = 0 ->
     wrap (capacity + 1) = 0 /\
     queue_ctor (T:=T) alloc capacity h = None).
Proof.
  intros Hrange. unfold queue_ctor. rewrite (wrap_small capacity) by done.
  cbv zeta. split; [|split; [|split; [|split]]].
  - intros Hlt. by destruct (Z.ltb_spec capacity 1); [|lia].
  - intros Hge Halloc. destruct (Z.ltb_spec capacity 1); [lia|]. by rewrite Halloc.
  - intros addr Hge Halloc Hmis. destruct (Z.ltb_spec capacity 1); [lia|].
    rewrite Halloc. destruct (Z.eqb_spec (addr `mod` hardware_interference_size) 0); [done|].
    simpl negb. cbv iota. by rewrite release_head.
  - intros addr Hge Halloc Hal. destruct (Z.ltb_spec capacity 1); [lia|].
    assert (Hw : wrap (capacity + 1) = capacity + 1) by (apply wrap_small; lia).
    rewrite Halloc, Hal. rewrite Hw. cbn [Z.eqb negb]. cbv iota.
    rewrite construct_slots_in_spec by lia.
    destruct (Z.leb_spec (Z.of_nat (Z.to_nat capacity)) (capacity + 1)); [|lia].
    split; [done|]. split; [done|].
    repeat (split; [done|]). simpl.
    split; [|split].
    + by rewrite construct_slots_replicate, length_replicate.
    + intros i s. rewrite construct_slots_replicate.
      by intros [-> _]%lookup_replicate.
    + intros i Hi. rewrite construct_slots_replicate. by apply lookup_replicate_2.
  - intros addr -> Halloc Hal.
    assert (Hw : wrap (size_modulus - 1 + 1) = 0) by reflexivity.
    split; [done|]. rewrite Hw in Halloc.
    pose proof (queue_ctor_overrun alloc h addr Halloc Hal) as Hub.
    unfold queue_ctor in Hub.
    replace (wrap (size_modulus - 1)) with (size_modulus - 1) in Hub by reflexivity.
    exact Hub.
Qed.

(** ** Destruction *)

Lemma destroy_slots_events (slots : list (slot T)) ixs evs :
  destroy_slots slots ixs = Some evs -> evs = map EvDestroy (odd_slots slots ixs).
Proof.
  revert evs. induction ixs as [|i ixs IH]; intros evs H; simpl in H.
  - by injection H as <-.
  - simpl. destruct (slots !! i) as [s|]; simpl in H; [|done].
    unfold slot_dtor in H. destruct (turn_is_odd s).
    + destruct (slot_destroy s); simpl in H; [|done].
      destruct (destroy_slots slots ixs) as [es|]; simpl in H; [|done].
      injection H as <-. simpl. f_equal. by apply IH.
    + simpl in H. destruct (destroy_slots slots ixs) as [es|]; simpl in H; [|done].
      injection H as <-. simpl. by apply IH.
Qed.

Lemma destroy_slots_defined (slots : list (slot T)) ixs :
  (forall i, In i ixs -> exists s, slots !! i = Some s /\ turn_is_odd s = occupied s) ->
  destroy_slots slots ixs = Some (map EvDestroy (odd_slots slots ixs)).
Proof.
  induction ixs as [|i ixs IH]; intros H; [done|].
  simpl. destruct (H i) as (s & Hs & Hpar); [by left|].
  rewrite Hs. simpl. rewrite IH by (intros j Hj; apply H; by right). simpl.
  unfold slot_dtor, slot_destroy. destruct (turn_is_odd s); [|done].
  unfold occupied in Hpar. by destruct (storage s).
Qed.

Lemma odd_slots_count (slots : list (slot T)) :
  length (odd_slots slots (seq 0 (length slots))) = length (List.filter turn_is_odd slots).
Proof.
  induction slots as [|x slots IH] using rev_ind; [done|].
  rewrite length_app. simpl length. rewrite Nat.add_1_r, seq_S. simpl.
  unfold odd_slots in *. rewrite !List.filter_app, !length_app. f_equal.
  - rewrite <- IH. f_equal. apply List.filter_ext_in. intros i Hi.
    apply in_seq in Hi. by rewrite lookup_app_l by lia.
  - simpl. rewrite list_lookup_middle by done. by destruct (turn_is_odd x).
Qed.

Lemma destructions_destroy ixs : destructions (map EvDestroy ixs) = length ixs.
Proof. unfold destructions. induction ixs; simpl; [done|]. by f_equal. Qed.

Lemma constructions_destroy ixs : constructions (map EvDestroy ixs) = 0%nat.
Proof. unfold constructions. by induction ixs. Qed.

Lemma queue_ctor_inr alloc (capacity : Z) (h0 h1 : heap) (q0 : queue T) tr0 :
  queue_ctor alloc capacity h0 = Some (inr q0, h1, tr0) ->
  exists C, 1 <= C < size_modulus - 1 /\ exists addr,
    q0 = fresh C addr /\ h1 = (addr, wrap (C + 1)) :: h0 /\
    tr0 = [EvAllocate addr (wrap (C + 1))] /\
    addr `mod` hardware_interference_size = 0.
Proof.
  unfold queue_ctor. pose proof (wrap_range capacity) as Hrange.
  destruct (Z.ltb_spec (wrap capacity) 1); [done|].
  pose proof (wrap_range (wrap capacity + 1)) as Hblock.
  destruct (alloc h0 (wrap (wrap capacity + 1))) as [addr|]; [|done].
  destruct (Z.eqb_spec (addr `mod` hardware_interference_size) 0); [|done].
  cbn [negb]. cbv iota. rewrite construct_slots_in_spec by lia.
  destruct (Z.leb_spec (Z.of_nat (Z.to_nat (wrap capacity))) (wrap (wrap capacity + 1)))
    as [Hle|]; [|done].
  simpl. intros [= <- <- <-]. exists (wrap capacity). split.
  - split; [done|]. rewrite Z2Nat.id in Hle by lia.
    destruct (decide (wrap capacity = size_modulus - 1)) as [Heq|]; [|lia].
    rewrite Heq in Hle. replace (wrap (size_modulus - 1 + 1)) with 0 in Hle by reflexivity.
    pose proof size_modulus_eq. lia.
  - by exists addr.
Qed.

(** C6. Destructor discipline: [~queue()] destroys the element of exactly
    the slots whose turn is odd, in the order of the indices, and of no
    other slot, and then gives the slot array back to the allocator.  After
    a successful construction and any sequence of calls that returned, the
    destructor meets no undefined behaviour (each element it destroys is
    live), the heap is as it was before the construction, and the queue has
    destroyed as many elements as it has constructed. *)
Theorem destructor_discipline :
  (forall (q : queue T) h h' evs,
     queue_dtor q h = Some (h', evs) ->
     evs = map EvDestroy (odd_slots (slots_ q) (seq 0 (Z.to_nat (capacity_ q))))
           ++ [EvDeallocate (slots_ptr q) (wrap (capacity_ q + 1))] /\
     h' = release (slots_ptr q) (wrap (capacity_ q + 1)) h) /\
  (forall alloc (C : Z) h0 (q0 : queue T) h1 tr0 ops fuel rs q tr,
     queue_ctor alloc C h0 = Some (inr q0, h1, tr0) ->
     run_ops fuel ops q0 = Done (rs, q, tr) ->
     exists evs,
       queue_dtor q h1 = Some (h0, evs) /\
       (forall i s, slots_ q !! i = Some s ->
          (In (EvDestroy i) evs <-> is_Some (storage s))) /\
       constructions (tr0 ++ tr ++ evs) = destructions (tr0 ++ tr ++ evs)).
Proof.
  split.
  - intros q h h' evs H. unfold queue_dtor in H.
    destruct (destroy_slots _ _) as [es|] eqn:Hes; simpl in H; [|done].
    injection H as <- <-. by rewrite (destroy_slots_events _ _ _ Hes).
  - intros alloc C0 h0 q0 h1 tr0 ops fuel rs q tr Hctor Hrun.
    destruct (queue_ctor_inr _ _ _ _ _ _ Hctor) as (C & [HC _] & addr & -> & -> & -> & Hal).
    pose proof (quiescent_run_ops ops (fresh C addr) fuel
                  (quiescent_fresh C addr HC)) as Hq.
    rewrite Hrun in Hq. destruct Hq as (Hq & HC' & Hp' & Hbal).
    rewrite live_count_fresh in Hbal. simpl in HC', Hp'.
    destruct Hq as [_ Hlen Hpar Hrange].
    assert (Hdestroy : destroy_slots (slots_ q) (seq 0 (Z.to_nat (capacity_ q)))
              = Some (map EvDestroy (odd_slots (slots_ q) (seq 0 (Z.to_nat (capacity_ q)))))).
    { apply destroy_slots_defined. intros i Hi. apply in_seq in Hi.
      destruct (lookup_lt_is_Some_2 (slots_ q) i) as [s Hs]; [lia|].
      exists s. split; [done|]. by eapply Hpar. }
    eexists. split; [|split].
    + unfold queue_dtor. rewrite Hdestroy, HC', Hp'. simpl. rewrite !Z.eqb_refl. done.
    + intros i s Hs. rewrite in_app_iff, in_map_iff.
      pose proof (Hpar i s Hs) as Hpi. unfold occupied in Hpi.
      pose proof (lookup_lt_Some _ _ _ Hs) as Hi.
      split.
      * intros [(j & [= ->] & Hj) | [Hd|[]]]; [|done].
        unfold odd_slots in Hj. apply filter_In in Hj as [_ Hj].
        rewrite Hs, Hpi in Hj. destruct (storage s); [by eauto|done].
      * intros [x Hx]. left. exists i. split; [done|].
        unfold odd_slots. apply filter_In. split; [apply in_seq; lia|].
        by rewrite Hs, Hpi, Hx.
    + rewrite !constructions_app, !destructions_app.
      rewrite constructions_destroy, destructions_destroy.
      rewrite HC' in Hlen. rewrite <- Hlen, odd_slots_count. unfold live_count in Hbal.
      unfold constructions, destructions in *. simpl. lia.
Qed.

(** ** Threads sharing the queue *)

Lemma step_shape p q p' q' ev :
  step p q = Some (p', q', ev) ->
  capacity_ q' = capacity_ q /\ length (slots_ q') = length (slots_ q) /\
  slots_ptr q' = slots_ptr q.
Proof.
  intros H. destruct p; simpl in H.
  all: repeat match type of H with
       | context [slot_at ?q ?t] => destruct (slot_at q t) as [[? [?|]]|]; simpl in H
       | context [Z.eqb ?a ?b] => destruct (Z.eqb a b); simpl in H
       end; try discriminate.
  all: injection H as <- <- <-; unfold with_slot, with_head, with_tail; simpl;
    by rewrite ?length_insert.
Qed.

Lemma sys_reachable_shape C addr k q (ths : list (op T * pc T)) :
  sys_reachable C addr k (q, ths) ->
  capacity_ q = C /\ length (slots_ q) = Z.to_nat C /\ slots_ptr q = addr.
Proof.
  intros H. remember (q, ths) as st eqn:Hst. revert q ths Hst.
  induction H as [|k st st' Hreach IH Hstep]; intros q ths Hst.
  - injection Hst as <- <-. simpl.
    by rewrite construct_slots_replicate, length_replicate.
  - destruct Hstep as [q0 ths0 o|q0 ths0 i o p p' q1 ev Hi Hstep].
    + injection Hst as <- <-. by eapply IH.
    + injection Hst as <- <-.
      destruct (IH q0 ths0 eq_refl) as (HC & Hlen & Hp).
      destruct (step_shape _ _ _ _ _ Hstep) as (HC' & Hlen' & Hp'). by intuition congruence.
Qed.

(** ** Elements alive and slots in use *)

Lemma count_app (f : pc T -> bool) (ths ths' : list (op T * pc T)) :
  count f (ths ++ ths') = (count f ths + count f ths')%nat.
Proof. unfold count. by rewrite List.filter_app, length_app. Qed.

Lemma count_insert (f : pc T -> bool) (ths : list (op T * pc T)) i o p o' p' :
  ths !! i = Some (o, p) ->
  (count f (<[i:=(o', p')]> ths) + (if f p then 1 else 0)
   = count f ths + (if f p' then 1 else 0))%nat.
Proof.
  intros Hi. unfold count.
  apply (filter_length_insert (fun th => f th.2) ths i (o, p) (o', p') Hi).
Qed.

Lemma count_returned (f : pc T -> bool) (ths : list (op T * pc T)) :
  (forall r, f (Return r) = false) ->
  Forall (fun th => returned th.2 = true) ths -> count f ths = 0%nat.
Proof.
  intros Hf. induction 1 as [|[o p] ths Hp _ IH]; [done|].
  unfold count in *. simpl in *. destruct p; try discriminate. by rewrite Hf.
Qed.

Lemma stored_count_fresh (C addr : Z) : stored_count (fresh (T:=T) C addr) = 0%nat.
Proof.
  unfold stored_count, fresh. simpl. rewrite construct_slots_replicate.
  induction (Z.to_nat C) as [|n IH]; [done|]. simpl. done.
Qed.

Lemma live_count_with_slot q t s s' :
  slot_at q t = Some s ->
  (live_count (with_slot q t s') + (if turn_is_odd s then 1 else 0)
   = live_count q + (if turn_is_odd s' then 1 else 0))%nat.
Proof. intros Hs. apply (filter_length_insert turn_is_odd (slots_ q) _ s s' Hs). Qed.

Lemma stored_count_with_slot q t s s' :
  slot_at q t = Some s ->
  (stored_count (with_slot q t s') + (if occupied s then 1 else 0)
   = stored_count q + (if occupied s' then 1 else 0))%nat.
Proof. intros Hs. apply (filter_length_insert occupied (slots_ q) _ s s' Hs). Qed.

(** What a step does to the elements alive, to the slots that hold one and
    to the slots whose turn is odd: a construction fills an empty slot, a
    destruction empties a full one, and the store of a turn makes an even
    turn odd after a construction and an odd turn even after a
    destruction. *)
Lemma step_balance n q (ths : list (op T * pc T)) i o p p' q' ev :
  par_inv n q ths -> n < 2 ^ 63 ->
  ths !! i = Some (o, p) -> step p q = Some (p', q', ev) ->
  (constructions ev + stored_count q = destructions ev + stored_count q')%nat /\
  (live_count q' + (if unpublished p' then 1 else 0)
     + stored_count q + (if unreleased p then 1 else 0)
   = live_count q + (if unpublished p then 1 else 0)
     + stored_count q' + (if unreleased p' then 1 else 0))%nat.
Proof.
  intros Hinv Hn Hi Hstep.
  pose proof (par_capacity _ _ _ Hinv) as HC.
  pose proof (par_head _ _ _ Hinv) as Hhd.
  pose proof (par_tail _ _ _ Hinv) as Htl.
  pose proof (inv_threads _ _ _ Hinv i _ Hi) as Hok.
  word_bounds.
  destruct p; simpl in Hstep;
    try (destruct (thread_role q o _ _ _ Hok eq_refl) as [[Ht0 Htk] Hrole]; simpl in Htk);
    repeat match type of Hstep with
      | context [slot_at ?q ?t] =>
          let s := fresh "s" in let Hs := fresh "Hs" in
          destruct (slot_at q t) as [s|] eqn:Hs; simpl in Hstep; [|discriminate Hstep];
          pose proof (fun s' => live_count_with_slot q t s s' Hs) as HL;
          pose proof (fun s' => stored_count_with_slot q t s s' Hs) as HS;
          specialize (Hrole s eq_refl); simpl in Hrole
      | context [slot_move ?s] =>
          destruct (slot_move s); simpl in Hstep; [|discriminate Hstep]
      | context [slot_destroy ?s] =>
          unfold slot_destroy in Hstep; destruct Hrole as [Hturn Hx];
          rewrite Hx in Hstep; simpl in Hstep
      | context [Z.eqb ?a ?b] => destruct (Z.eqb a b); simpl in Hstep
      end;
    injection Hstep as <- <- <-; try (by split).
  - (* emplace_construct *)
    destruct Hrole as [Hturn Hnone].
    specialize (HL (slot_construct v s)). specialize (HS (slot_construct v s)).
    unfold occupied in HS. simpl in HS. rewrite Hnone in HS.
    change (turn_is_odd (slot_construct v s)) with (turn_is_odd s) in HL.
    unfold constructions, destructions. simpl. split; lia.
  - (* emplace_store *)
    destruct Hrole as [Hturn [x Hx]].
    destruct (wrap_expected q head HC Ht0 ltac:(lia)) as (_ & He1 & _). rewrite He1.
    specialize (HL (slot_store_turn (2 * turn_ q head + 1) s)).
    specialize (HS (slot_store_turn (2 * turn_ q head + 1) s)).
    rewrite !turn_is_odd_odd in HL. simpl in HL. rewrite Hturn, odd_double, odd_double_succ in HL.
    unfold occupied in HS. simpl in HS. rewrite Hx in HS.
    unfold constructions, destructions. simpl. split; lia.
  - (* try_emplace_construct *)
    destruct Hrole as [Hturn Hnone].
    specialize (HL (slot_construct v s)). specialize (HS (slot_construct v s)).
    unfold occupied in HS. simpl in HS. rewrite Hnone in HS.
    change (turn_is_odd (slot_construct v s)) with (turn_is_odd s) in HL.
    unfold constructions, destructions. simpl. split; lia.
  - (* try_emplace_store *)
    destruct Hrole as [Hturn [x Hx]].
    destruct (wrap_expected q head HC Ht0 ltac:(lia)) as (_ & He1 & _). rewrite He1.
    specialize (HL (slot_store_turn (2 * turn_ q head + 1) s)).
    specialize (HS (slot_store_turn (2 * turn_ q head + 1) s)).
    rewrite !turn_is_odd_odd in HL. simpl in HL. rewrite Hturn, odd_double, odd_double_succ in HL.
    unfold occupied in HS. simpl in HS. rewrite Hx in HS.
    unfold constructions, destructions. simpl. split; lia.
  - (* pop_destroy *)
    specialize (HL (Slot (turn s) None)). specialize (HS (Slot (turn s) None)).
    change (turn_is_odd (Slot (turn s) None)) with (turn_is_odd s) in HL.
    unfold occupied in HS. simpl in HS. rewrite Hx in HS.
    unfold constructions, destructions. simpl. split; lia.
  - (* pop_store *)
    destruct Hrole as [Hturn Hnone].
    destruct (wrap_expected q tail HC Ht0 ltac:(lia)) as (_ & _ & He2). rewrite He2.
    specialize (HL (slot_store_turn (2 * turn_ q tail + 2) s)).
    specialize (HS (slot_store_turn (2 * turn_ q tail + 2) s)).
    assert (Hev : Z.odd (2 * turn_ q tail + 2) = false)
      by (replace (2 * turn_ q tail + 2) with (2 * (turn_ q tail + 1)) by lia;
          apply odd_double).
    rewrite !turn_is_odd_odd in HL. simpl in HL.
    rewrite Hturn, Hev, odd_double_succ in HL.
    unfold occupied in HS. simpl in HS. rewrite Hnone in HS.
    unfold constructions, destructions. simpl. split; lia.
  - (* try_pop_destroy *)
    specialize (HL (Slot (turn s) None)). specialize (HS (Slot (turn s) None)).
    change (turn_is_odd (Slot (turn s) None)) with (turn_is_odd s) in HL.
    unfold occupied in HS. simpl in HS. rewrite Hx in HS.
    unfold constructions, destructions. simpl. split; lia.
  - (* try_pop_store *)
    destruct Hrole as [Hturn Hnone].
    destruct (wrap_expected q tail HC Ht0 ltac:(lia)) as (_ & _ & He2). rewrite He2.
    specialize (HL (slot_store_turn (2 * turn_ q tail + 2) s)).
    specialize (HS (slot_store_turn (2 * turn_ q tail + 2) s)).
    assert (Hev : Z.odd (2 * turn_ q tail + 2) = false)
      by (replace (2 * turn_ q tail + 2) with (2 * (turn_ q tail + 1)) by lia;
          apply odd_double).
    rewrite !turn_is_odd_odd in HL. simpl in HL.
    rewrite Hturn, Hev, odd_double_succ in HL.
    unfold occupied in HS. simpl in HS. rewrite Hnone in HS.
    unfold constructions, destructions. simpl. split; lia.
Qed.

(** The slots whose turn is odd are those that hold an element, but for
    the slots of the calls between a construction or a destruction and the
    store of the turn. *)
Lemma slots_in_use (C addr : Z) k (st : queue T * list (op T * pc T)) :
  1 <= C -> sys_reachable C addr k st -> Z.of_nat k < 2 ^ 63 ->
  (live_count st.1 + count unpublished st.2
   = stored_count st.1 + count unreleased st.2)%nat.
Proof.
  intros HC Hreach. induction Hreach as [|k st st' Hreach IH Hstep]; intros Hk.
  - simpl. by rewrite live_count_fresh, stored_count_fresh.
  - specialize (IH ltac:(lia)).
    pose proof (sys_reachable_inv C addr k st HC Hreach ltac:(lia)) as Hinv.
    destruct Hstep as [q ths o|q ths i o p p' q' ev Hi Hstep]; simpl in *.
    + rewrite !count_app. unfold count at 2 4. simpl.
      replace (unpublished (entry o)) with false by (by destruct o).
      replace (unreleased (entry o)) with false by (by destruct o).
      simpl. lia.
    + destruct (step_balance _ q ths i o p p' q' ev Hinv ltac:(lia) Hi Hstep) as [_ Hb].
      pose proof (count_insert unpublished ths i o p o p' Hi).
      pose proof (count_insert unreleased ths i o p o p' Hi).
      destruct (unpublished p), (unpublished p'), (unreleased p), (unreleased p'); lia.
Qed.

(** Along a schedule, the elements constructed and not destroyed are those
    the slots hold. *)
Lemma sys_events_balance (C addr : Z) acts :
  forall k (st st' : queue T * list (op T * pc T)),
  1 <= C -> sys_reachable C addr k st ->
  Z.of_nat k + Z.of_nat (length acts) < 2 ^ 63 ->
  sys_run st acts = Some st' ->
  (constructions (sys_events st acts) + stored_count st.1
   = destructions (sys_events st acts) + stored_count st'.1)%nat.
Proof.
  induction acts as [|a acts IH]; intros k st st' HC Hreach Hk Hrun; simpl in *.
  - by injection Hrun as <-.
  - destruct (sys_do st a) as [st1|] eqn:Hdo; simpl in Hrun; [|done].
    assert (Hreach1 : sys_reachable C addr (S k) st1).
    { apply (reachable_step C addr k st st1 Hreach). by apply (sys_do_step st st1 a). }
    specialize (IH (S k) st1 st' HC Hreach1 ltac:(lia) Hrun).
    rewrite constructions_app, destructions_app.
    pose proof (sys_reachable_inv C addr k st HC Hreach ltac:(lia)) as Hinv.
    assert (Hstep : (constructions (events_by st a) + stored_count st.1
                     = destructions (events_by st a) + stored_count st1.1)%nat).
    { destruct st as [q ths]. destruct a as [o|i]; simpl in *.
      - by injection Hdo as <-.
      - destruct (ths !! i) as [[o p]|] eqn:Hi; simpl in *; [|done].
        destruct (step p q) as [[[p' q'] ev]|] eqn:Hstep; simpl in *; [|done].
        injection Hdo as <-. simpl.
        by destruct (step_balance _ q ths i o p p' q' ev Hinv ltac:(lia) Hi Hstep). }
    lia.
Qed.

Lemma quiescent_counts q : quiescent q -> live_count q = stored_count q.
Proof.
  intros [_ _ Hpar _]. unfold live_count, stored_count. f_equal.
  apply List.filter_ext_in. intros s Hin.
  apply list_elem_of_In, list_elem_of_lookup in Hin as [i Hi]. by eapply Hpar.
Qed.

(** C7. Capacity bound.  In every state of every interleaving of calls on a
    freshly constructed queue of capacity [C] (fewer than 2^63 steps), in
    the middle of calls as well as between them, the queue has [C] slots;
    the slots whose turn is odd are the slots that hold an element, less
    those whose element is constructed and not yet published, plus those
    whose element is destroyed and whose turn is not yet stored; neither
    number exceeds [C]; when every call has returned they are the same.
    Along every schedule, the elements constructed and not yet destroyed
    are those the slots hold, so there are never more than [C].  The same
    holds after every sequence of calls made one after the other. *)
Theorem capacity_bound (C addr : Z) :
  1 <= C ->
  (forall k q (ths : list (op T * pc T)),
     Z.of_nat k < 2 ^ 63 -> sys_reachable C addr k (q, ths) ->
     capacity_ q = C /\ Z.of_nat (length (slots_ q)) = C /\
     (live_count q + count unpublished ths
      = stored_count q + count unreleased ths)%nat /\
     Z.of_nat (live_count q) <= C /\ Z.of_nat (stored_count q) <= C /\
     (Forall (fun th => returned th.2 = true) ths -> live_count q = stored_count q)) /\
  (forall acts q (ths : list (op T * pc T)),
     Z.of_nat (length acts) < 2 ^ 63 ->
     sys_run (fresh C addr, []) acts = Some (q, ths) ->
     (constructions (sys_events (fresh C addr, []) acts)
      = destructions (sys_events (fresh C addr, []) acts) + stored_count q)%nat /\
     Z.of_nat (constructions (sys_events (fresh C addr, []) acts))
     - Z.of_nat (destructions (sys_events (fresh C addr, []) acts)) <= C) /\
  (forall ops fuel rs q tr, run_ops fuel ops (fresh C addr) = Done (rs, q, tr) ->
     capacity_ q = C /\ Z.of_nat (length (slots_ q)) = C /\
     (constructions tr = destructions tr + live_count q)%nat /\
     live_count q = stored_count q /\ Z.of_nat (live_count q) <= C).
Proof.
  intros HC. split; [|split].
  - intros k q ths Hk Hreach.
    destruct (sys_reachable_shape C addr k q ths Hreach) as (Hcap & Hlen & _).
    pose proof (filter_length_le turn_is_odd (slots_ q)) as Hl.
    pose proof (filter_length_le occupied (slots_ q)) as Hs.
    pose proof (slots_in_use C addr k (q, ths) HC Hreach Hk) as Huse. simpl in Huse.
    split; [done|]. split; [lia|]. split; [done|].
    unfold live_count, stored_count in *. split; [lia|]. split; [lia|].
    intros Hret.
    rewrite (count_returned unpublished ths) in Huse by done.
    rewrite (count_returned unreleased ths) in Huse by done. lia.
  - intros acts q ths Hlen Hrun.
    pose proof (sys_events_balance C addr acts 0 (fresh C addr, []) (q, ths) HC
                  (reachable_fresh C addr) ltac:(lia) Hrun) as Hbal.
    pose proof (sys_run_reachable C addr acts 0 _ _ (reachable_fresh C addr) Hrun) as Hreach.
    destruct (sys_reachable_shape C addr _ q ths Hreach) as (_ & Hslots & _).
    pose proof (filter_length_le occupied (slots_ q)) as Hs.
    simpl in Hbal. rewrite stored_count_fresh in Hbal.
    unfold stored_count in *. split; lia.
  - intros ops fuel rs q tr Hrun.
    pose proof (quiescent_run_ops ops (fresh C addr) fuel
                  (quiescent_fresh C addr HC)) as Hq.
    rewrite Hrun in Hq. destruct Hq as (Hq & Hcap & _ & Hbal). simpl in Hcap.
    rewrite live_count_fresh in Hbal.
    pose proof (quiescent_counts q Hq) as Hsame.
    destruct Hq as [_ Hlen _ _].
    pose proof (filter_length_le turn_is_odd (slots_ q)).
    unfold live_count in *. repeat split; lia.
Qed.

(** ** The busy-wait of the blocking calls *)

Lemma emplace_spin_exec h v qs :
  Forall (fun q0 => exists s, slot_at q0 h = Some s /\ turn s <> wrap (turn_ q0 h * 2)) qs ->
  exec (emplace_spin h v) qs = Some (emplace_spin h v).
Proof.
  induction 1 as [|q0 qs (s & Hs & Hne) _ IH]; [done|].
  simpl. rewrite Hs. simpl.
  by destruct (Z.eqb_spec (wrap (turn_ q0 h * 2)) (turn s)); [congruence|].
Qed.

Lemma pop_spin_exec t out qs :
  Forall (fun q0 => exists s, slot_at q0 t = Some s /\ turn s <> wrap (turn_ q0 t * 2 + 1)) qs ->
  exec (pop_spin t out) qs = Some (pop_spin t out).
Proof.
  induction 1 as [|q0 qs (s & Hs & Hne) _ IH]; [done|].
  simpl. rewrite Hs. simpl.
  by destruct (Z.eqb_spec (wrap (turn_ q0 t * 2 + 1)) (turn s)); [congruence|].
Qed.

(** C8. Blocking enqueue completion.  The busy-wait of [emplace] for the
    ticket [h] reads the turn of the slot of [h] and leaves the loop at the
    first read that finds the expected value, which is [2 * (h div capacity)]
    while [h < 2^63]; until then it stays in the loop; and likewise for
    [pop] with [2 * (t div capacity) + 1].  For a thread that runs alone on
    a queue reached by a sequence of calls: when the queue holds fewer than
    [capacity] elements [emplace] returns within four steps, having stored
    its element behind the others; and on any queue whose tail slot has the
    turn expected by the consumer and holds its element, [pop] returns that
    element within five steps. *)
Theorem blocking_calls_complete (C addr : Z) (ops : list (op T)) fuel0 rs q tr :
  1 <= C < size_modulus ->
  Z.of_nat (length ops) < 2 ^ 63 - 1 ->
  run_ops fuel0 ops (fresh C addr) = Done (rs, q, tr) ->
  (forall h v qs q1,
     Forall (fun q0 => exists s, slot_at q0 h = Some s /\
                                 turn s <> wrap (turn_ q0 h * 2)) qs ->
     (exists s, slot_at q1 h = Some s /\ turn s = wrap (turn_ q1 h * 2)) ->
     exec (emplace_spin h v) qs = Some (emplace_spin h v) /\
     exec (emplace_spin h v) (qs ++ [q1]) = Some (emplace_construct h v)) /\
  (forall t out qs q1,
     Forall (fun q0 => exists s, slot_at q0 t = Some s /\
                                 turn s <> wrap (turn_ q0 t * 2 + 1)) qs ->
     (exists s, slot_at q1 t = Some s /\ turn s = wrap (turn_ q1 t * 2 + 1)) ->
     exec (pop_spin t out) qs = Some (pop_spin t out) /\
     exec (pop_spin t out) (qs ++ [q1]) = Some (pop_move t out)) /\
  (forall (q0 : queue T) h, 1 <= capacity_ q0 -> 0 <= h < 2 ^ 63 ->
     wrap (turn_ q0 h * 2) = 2 * (h `div` capacity_ q0) /\
     wrap (turn_ q0 h * 2 + 1) = 2 * (h `div` capacity_ q0) + 1) /\
  (tail_ q <= head_ q -> size q < capacity_ q ->
   forall v fuel, (4 <= fuel)%nat ->
     exists q', emplace fuel v q
                = Done (ret_void, q', [EvConstruct (slot_index q (head_ q))]) /\
                contents q' = contents q ++ [v]) /\
  (forall q0 s out fuel,
     slot_at q0 (tail_ q0) = Some s ->
     turn s = wrap (turn_ q0 (tail_ q0) * 2 + 1) ->
     turn_is_odd s = occupied s ->
     (5 <= fuel)%nat ->
     exists x, storage s = Some x /\
       pop fuel out q0
       = Done (ret_pop x, after_pop q0, [EvDestroy (slot_index q0 (tail_ q0))])).
Proof.
  intros HC Hlen Hrun. split; [|split; [|split; [|split]]].
  - intros h v qs q1 Hqs (s & Hs & Ht).
    pose proof (emplace_spin_exec h v qs Hqs) as Hspin. split; [done|].
    rewrite exec_snoc, Hspin. simpl. rewrite Hs. simpl. by rewrite Ht, Z.eqb_refl.
  - intros t out qs q1 Hqs (s & Hs & Ht).
    pose proof (pop_spin_exec t out qs Hqs) as Hspin. split; [done|].
    rewrite exec_snoc, Hspin. simpl. rewrite Hs. simpl. by rewrite Ht, Z.eqb_refl.
  - intros q0 h. apply expected_turn_nowrap.
  - intros Hle Hsize v fuel Hfuel.
    destruct (run_ops_fifo fuel0 ops (fresh C addr) [] rs q tr (ring_fresh C addr HC))
      as (l & _ & Hring & HC' & _ & Hh & _); [simpl; lia|done|].
    simpl in Hh. rewrite (ring_size q l Hring) in Hsize.
    exists (after_emplace q v). split.
    + eapply emplace_returns; [by eapply ring_head_free|done|done].
    + rewrite (ring_contents q l Hring).
      apply ring_contents. apply ring_emplace; [done|done|lia].
  - intros q0 s out fuel Hs Ht Hpar Hfuel.
    assert (Hodd : turn_is_odd s = true)
      by (by rewrite turn_is_odd_odd, Ht, wrap_odd, odd_twice_succ).
    destruct s as [t [x|]]; [|by rewrite Hodd in Hpar].
    exists x. split; [done|]. by eapply pop_returns.
Qed.

(** ** Failed non-blocking calls *)

Ltac run_inv H fuel :=
  destruct fuel as [|fuel]; [discriminate H|];
  (rewrite run_step in H by done); simpl step in H; cbn beta iota in H;
  queue_simpl_in H.

Lemma try_emplace_false_inv fuel v q q' tr :
  try_emplace fuel v q = Done (ret_bool false, q', tr) -> q' = q /\ tr = [].
Proof.
  intros H. destruct (slot_at q (head_ q)) as [s|] eqn:Hs.
  - destruct (decide (turn s = wrap (turn_ q (head_ q) * 2))) as [Ht|Ht].
    + pose proof (try_emplace_returns_true (fuel + 5) q v s Hs Ht ltac:(lia)) as Hret.
      unfold try_emplace in *.
      rewrite (run_mono _ (fuel + 5) _ _ _ H ltac:(lia)) in Hret. done.
    + pose proof (try_emplace_returns_false (fuel + 3) q v s Hs Ht ltac:(lia)) as Hret.
      unfold try_emplace in *.
      rewrite (run_mono _ (fuel + 3) _ _ _ H ltac:(lia)) in Hret.
      by injection Hret as -> ->.
  - unfold try_emplace in H. run_inv H fuel. run_inv H fuel.
    rewrite Hs in H. done.
Qed.

Lemma try_pop_false_inv fuel out q out' q' tr :
  try_pop fuel out q = Done (ret_try_pop false out', q', tr) ->
  out' = out /\ q' = q /\ tr = [].
Proof.
  intros H. destruct (slot_at q (tail_ q)) as [s|] eqn:Hs.
  - destruct (decide (turn s = wrap (turn_ q (tail_ q) * 2 + 1))) as [Ht|Ht].
    + destruct s as [t [x|]].
      * pose proof (try_pop_returns_true (fuel + 6) q out t x Hs Ht ltac:(lia)) as Hret.
        unfold try_pop in *.
        rewrite (run_mono _ (fuel + 6) _ _ _ H ltac:(lia)) in Hret. done.
      * unfold try_pop in H. simpl in Ht.
        run_inv H fuel. run_inv H fuel. rewrite Hs in H. simpl in H.
        rewrite Ht, Z.eqb_refl in H.
        run_inv H fuel. rewrite Z.eqb_refl in H.
        run_inv H fuel. rewrite Hs in H. done.
    + pose proof (try_pop_returns_false (fuel + 3) q out s Hs Ht ltac:(lia)) as Hret.
      unfold try_pop in *.
      rewrite (run_mono _ (fuel + 3) _ _ _ H ltac:(lia)) in Hret.
      by injection Hret as -> -> ->.
  - unfold try_pop in H. run_inv H fuel. run_inv H fuel.
    rewrite Hs in H. done.
Qed.

Lemma step_committed_emplace v p q p' q' ev :
  in_try_emplace v p -> committed p = true ->
  step p q = Some (p', q', ev) -> committed p' = true.
Proof.
  intros Hin Hc Hstep. destruct p as [| | | | | | | | | | | | | | | | | | | | | |r];
    try destruct r as [|[]| |[] ?];
    simpl in Hin, Hc; try done; simpl in Hstep; step_cases Hstep;
    try discriminate; by injection Hstep as <- <- <-.
Qed.

Lemma step_uncommitted_emplace v p q p' q' ev :
  in_try_emplace v p -> committed p = false ->
  step p q = Some (p', q', ev) -> (q' = q /\ ev = []) \/ committed p' = true.
Proof.
  intros Hin Hc Hstep. destruct p as [| | | | | | | | | | | | | | | | | | | | | |r];
    try destruct r as [|[]| |[] ?];
    simpl in Hin, Hc; try done; simpl in Hstep; step_cases Hstep;
    try discriminate; injection Hstep as <- <- <-; by eauto.
Qed.

Lemma step_committed_pop out p q p' q' ev :
  in_try_pop out p -> committed p = true ->
  step p q = Some (p', q', ev) -> committed p' = true.
Proof.
  intros Hin Hc Hstep. destruct p as [| | | | | | | | | | | | | | | | | | | | | |r];
    try destruct r as [|[]| |[] ?];
    simpl in Hin, Hc; try done; simpl in Hstep; step_cases Hstep;
    try discriminate; by injection Hstep as <- <- <-.
Qed.

Lemma step_uncommitted_pop out p q p' q' ev :
  in_try_pop out p -> committed p = false ->
  step p q = Some (p', q', ev) -> (q' = q /\ ev = []) \/ committed p' = true.
Proof.
  intros Hin Hc Hstep. destruct p as [| | | | | | | | | | | | | | | | | | | | | |r];
    try destruct r as [|[]| |[] ?];
    simpl in Hin, Hc; try done; simpl in Hstep; step_cases Hstep;
    try discriminate; injection Hstep as <- <- <-; by eauto.
Qed.

(** A call that ends without having won its compare-exchange has left the
    queue, at each of its steps, as it found it. *)
Lemma exec_quiet (inv : pc T -> Prop) p qs p_end :
  (forall p q p' q' ev, inv p -> step p q = Some (p', q', ev) -> inv p') ->
  (forall p q p' q' ev, inv p -> committed p = true ->
     step p q = Some (p', q', ev) -> committed p' = true) ->
  (forall p q p' q' ev, inv p -> committed p = false ->
     step p q = Some (p', q', ev) -> (q' = q /\ ev = []) \/ committed p' = true) ->
  inv p -> exec p qs = Some p_end -> committed p_end = false ->
  forall qs1 q qs2, qs = qs1 ++ q :: qs2 ->
    exists p1 p2, exec p qs1 = Some p1 /\ step p1 q = Some (p2, q, []).
Proof.
  intros Hinv Hcom Hunc.
  assert (Hstay : forall ws p0 p', inv p0 -> committed p0 = true ->
            exec p0 ws = Some p' -> committed p' = true).
  { intros ws. induction ws as [|q0 qs' IH]; intros p0 p' Hp Hc H; simpl in H.
    - by injection H as <-.
    - destruct (step p0 q0) as [[[p1 q1] ev]|] eqn:Hstep; [|done].
      eapply (IH p1); [by eapply Hinv|by eapply Hcom|done]. }
  revert p. induction qs as [|q0 qs' IH]; intros p Hp Hexec Hend qs1 q qs2 Heq.
  - by destruct qs1.
  - simpl in Hexec. destruct (step p q0) as [[[p' q0'] ev]|] eqn:Hstep; [|done].
    assert (Hc : committed p = false).
    { destruct (committed p) eqn:Hc; [|done].
      assert (committed p_end = true); [|congruence].
      eapply (Hstay (q0 :: qs') p); [done..|]. simpl. by rewrite Hstep. }
    destruct qs1 as [|q1 qs1]; simpl in Heq; injection Heq as <- ->.
    + exists p, p'. split; [done|].
      destruct (Hunc _ _ _ _ _ Hp Hc Hstep) as [[-> ->]|Hc']; [done|].
      assert (committed p_end = true); [|congruence].
      eapply (Hstay _ p'); [by eapply Hinv|done|exact Hexec].
    + destruct (IH p' (Hinv _ _ _ _ _ Hp Hstep) Hexec Hend qs1 q qs2 eq_refl)
        as (p1 & p2 & He & Hs).
      exists p1, p2. split; [|done]. simpl. by rewrite Hstep.
Qed.

(** C9. Failed non-blocking calls change nothing.  When [try_pop] returns
    false the out-parameter keeps the value it had, and the queue
    ([head_], [tail_], the turn and the storage of every slot) is the one
    before the call; nothing was constructed or destroyed.  The same holds
    when [try_emplace] returns false.  Among other threads, each step of a
    call that returns false leaves the queue as it found it.  On a queue of
    capacity 1: [try_push(a)] returns true, [try_push(b)] returns false,
    [try_pop] returns true with [a], and a second [try_pop] returns false
    and leaves [a] in the out-parameter. *)
Theorem failed_try_changes_nothing :
  (forall fuel out (q : queue T) out' q' tr,
     try_pop fuel out q = Done (ret_try_pop false out', q', tr) ->
     out' = out /\ q' = q /\ tr = []) /\
  (forall fuel v (q : queue T) q' tr,
     try_emplace fuel v q = Done (ret_bool false, q', tr) ->
     q' = q /\ tr = []) /\
  (forall out qs out',
     exec (try_pop_load out) qs = Some (Return (ret_try_pop false out')) ->
     out' = out /\
     forall qs1 q qs2, qs = qs1 ++ q :: qs2 ->
       exists p1 p2, exec (try_pop_load out) qs1 = Some p1 /\
                     step p1 q = Some (p2, q, [])) /\
  (forall v qs,
     exec (try_emplace_load v) qs = Some (Return (ret_bool false)) ->
     forall qs1 q qs2, qs = qs1 ++ q :: qs2 ->
       exists p1 p2, exec (try_emplace_load v) qs1 = Some p1 /\
                     step p1 q = Some (p2, q, [])) /\
  (forall (addr : Z) (a b out0 : T),
     exists q1 q2 tr1 tr2,
       try_push 6 a (fresh 1 addr) = Done (ret_bool true, q1, tr1) /\
       try_push 6 b q1 = Done (ret_bool false, q1, []) /\
       try_pop 6 out0 q1 = Done (ret_try_pop true a, q2, tr2) /\
       try_pop 6 a q2 = Done (ret_try_pop false a, q2, []) /\
       size q1 = 1 /\ size q2 = 0).
Proof.
  split; [exact try_pop_false_inv|]. split; [exact try_emplace_false_inv|].
  split; [|split].
  - intros out qs out' Hexec.
    assert (Hinit : in_try_pop out (try_pop_load out)) by done.
    split; [exact (exec_in_try_pop _ _ _ _ Hinit Hexec)|].
    eapply (exec_quiet (in_try_pop out)); [| | |exact Hinit|exact Hexec|done].
    + intros *. apply step_in_try_pop.
    + intros *. apply step_committed_pop.
    + intros *. apply step_uncommitted_pop.
  - intros v qs Hexec.
    eapply (exec_quiet (in_try_emplace v)); [| | |done|exact Hexec|done].
    + intros *. apply step_in_try_emplace.
    + intros *. apply step_committed_emplace.
    + intros *. apply step_uncommitted_emplace.
  - intros addr a b out0.
    exists (Queue 1 addr [Slot 1 (Some a)] 1 0), (Queue 1 addr [Slot 2 None] 1 1),
      [EvConstruct 0%nat], [EvDestroy 0%nat].
    by vm_compute.
Qed.

End Theory.

(** ** Requirements on the element type *)

(** C10 (as amended). The static checks of [class queue] accept an element
    type exactly when it is nothrow destructible and nothrow copy-assignable
    or nothrow move-assignable: every type they accept has these properties,
    and a type that lacks one of them is rejected when the class is
    instantiated.  A member function compiles exactly when the class does
    and its own check passes: [push(const T &)] and [try_push(const T &)]
    assert that [T] is nothrow copy-constructible, the forwarding
    [push(P &&)] and [try_push(P &&)] are enabled for an rvalue of [T] when
    [T] is nothrow move-constructible, and [pop] and [try_pop] have no
    check of their own. *)
Theorem element_type_requirements (tt : type_traits) :
  (queue_static_assert tt = true <->
     is_nothrow_destructible tt = true /\
     (is_nothrow_copy_assignable tt = true \/ is_nothrow_move_assignable tt = true)) /\
  (queue_static_assert tt = false <->
     is_nothrow_destructible tt = false \/
     (is_nothrow_copy_assignable tt = false /\ is_nothrow_move_assignable tt = false)) /\
  (forall m, instantiates tt m = true <->
     queue_static_assert tt = true /\
     match m with
     | push_copy | try_push_copy => is_nothrow_copy_constructible tt = true
     | push_forward_rvalue | try_push_forward_rvalue =>
         is_nothrow_move_constructible tt = true
     | pop_out | try_pop_out => True
     end).
Proof.
  unfold queue_static_assert, instantiates. split; [|split].
  - rewrite andb_true_iff, orb_true_iff. tauto.
  - rewrite andb_false_iff, orb_false_iff. tauto.
  - intros m. rewrite andb_true_iff.
    destruct m; split; intros [H1 H2]; (split; [exact H1|]); done.
Qed.

(** C10 as stated fails: a type whose copy constructor may throw, with a
    nothrow copy assignment and a nothrow destructor
    ([struct X { X() noexcept; X(const X &); X &operator=(const X &) noexcept; }]),
    passes the static checks of the class and can be popped, although it is
    neither nothrow copy-constructible nor nothrow move-constructible. *)
Lemma element_type_requirements_counterexample :
  ~ (queue_static_assert throwing_copy_constructor = true ->
     is_nothrow_destructible throwing_copy_constructor = true /\
     (is_nothrow_copy_constructible throwing_copy_constructor = true \/
      is_nothrow_move_constructible throwing_copy_constructor = true)).
Proof. intros H. destruct (H eq_refl) as [_ [H'|H']]; discriminate H'. Qed.

(** ** The scenarios of the test program, on a queue of integers *)

(** * Further properties of the code *)

Section Coverage.

Context {T : Type}.
Implicit Types (q : queue T) (s : slot T) (p : pc T) (o : op T) (l : list T) (v x out : T).
Implicit Types (th : op T * pc T) (ths : list (op T * pc T)).

Ltac word_bounds := pose proof size_modulus_eq; pose proof pow63_eq.

(** ** Ticket arithmetic *)

(** X1. [idx_] and [turn_] split a ticket into the index of its slot and
    its generation, and the ticket is recovered from them; the slot is one
    of the [capacity_] slots of the array; [capacity_] tickets later the
    same slot is used again, one generation later; and the tickets in
    between use other slots. *)
Theorem ticket_arithmetic q i :
  1 <= capacity_ q -> 0 <= i ->
  turn_ q i * capacity_ q + idx_ q i = i /\
  0 <= idx_ q i < capacity_ q /\
  0 <= turn_ q i <= i /\
  (length (slots_ q) = Z.to_nat (capacity_ q) -> is_Some (slot_at q i)) /\
  idx_ q (i + capacity_ q) = idx_ q i /\
  turn_ q (i + capacity_ q) = turn_ q i + 1 /\
  (forall j, i < j < i + capacity_ q -> slot_index q j <> slot_index q i) /\
  (forall j, idx_ q j = idx_ q i -> turn_ q j = turn_ q i -> j = i).
Proof.
  intros HC Hi.
  pose proof (ticket_div_mod q i HC) as Hdm.
  pose proof (idx_range q i HC) as Hidx.
  pose proof (turn_range q i HC Hi) as Hturn.
  split; [lia|]. split; [done|]. split; [done|]. split; [|split; [|split; [|split]]].
  - intros Hlen. apply lookup_lt_is_Some. by apply slot_index_lt.
  - unfold idx_. replace (i + capacity_ q) with (i + 1 * capacity_ q) by lia.
    apply Z.mod_add. lia.
  - unfold turn_. replace (i + capacity_ q) with (i + 1 * capacity_ q) by lia.
    apply Z.div_add. lia.
  - intros j Hj. apply slot_index_ne; [done|lia|lia].
  - intros j Hidxj Hturnj. rewrite (ticket_div_mod q j HC), Hidxj, Hturnj. lia.
Qed.

(** ** A thread that runs alone *)

Lemma size_difference q :
  0 <= head_ q < 2 ^ 63 -> 0 <= tail_ q < 2 ^ 63 -> size q = head_ q - tail_ q.
Proof.
  intros Hh Ht. word_bounds. unfold size, to_ptrdiff, wrap.
  destruct (Z.le_gt_cases 0 (head_ q - tail_ q)) as [Hpos|Hneg].
  - rewrite Z.mod_small by lia.
    destruct (Z.ltb_spec (head_ q - tail_ q) (2 ^ 63)); lia.
  - replace (head_ q - tail_ q)
      with (head_ q - tail_ q + size_modulus + (-1) * size_modulus) by lia.
    rewrite Z.mod_add by lia. rewrite Z.mod_small by lia.
    destruct (Z.ltb_spec (head_ q - tail_ q + size_modulus) (2 ^ 63)); lia.
Qed.

Lemma run_ops_ring (C addr : Z) (ops : list (op T)) fuel rs q tr :
  1 <= C < size_modulus -> Z.of_nat (length ops) < 2 ^ 63 - 1 ->
  run_ops fuel ops (fresh C addr) = Done (rs, q, tr) ->
  ring q (contents q) /\ capacity_ q = C /\ head_ q + 1 < 2 ^ 63.
Proof.
  intros HC Hlen Hrun.
  destruct (run_ops_fifo fuel ops (fresh C addr) [] rs q tr (ring_fresh C addr HC))
    as (l & _ & Hring & Hcap & _ & Hhd & _); [simpl; lia|done|].
  simpl in Hcap, Hhd. rewrite (ring_contents q l Hring). split; [done|]. split; [done|lia].
Qed.

(** X2. The non-blocking calls of a thread that runs alone, on a queue
    reached by a sequence of calls: [size()] is the number of elements
    stored, between 0 and the capacity, and [empty()] tells whether there is
    none; [try_emplace] returns true and stores its element behind the
    others when fewer than [capacity] elements are stored, and returns false
    when the queue is full; [try_pop] returns true with the oldest element
    when there is one, and false when the queue is empty. *)
Theorem try_calls_alone (C addr : Z) (ops : list (op T)) fuel0 rs q tr :
  1 <= C < size_modulus -> Z.of_nat (length ops) < 2 ^ 63 - 1 ->
  run_ops fuel0 ops (fresh C addr) = Done (rs, q, tr) ->
  size q = Z.of_nat (length (contents q)) /\
  0 <= size q <= C /\
  (empty q = true <-> contents q = []) /\
  (forall v fuel, (6 <= fuel)%nat ->
     if size q <? C
     then exists q' tr', try_emplace fuel v q = Done (ret_bool true, q', tr') /\
            contents q' = contents q ++ [v] /\ size q' = size q + 1
     else try_emplace fuel v q = Done (ret_bool false, q, [])) /\
  (forall out fuel, (6 <= fuel)%nat ->
     match contents q with
     | x :: l' => exists q' tr', try_pop fuel out q = Done (ret_try_pop true x, q', tr') /\
                    contents q' = l' /\ size q' = size q - 1
     | [] => try_pop fuel out q = Done (ret_try_pop false out, q, [])
     end).
Proof.
  intros HC Hlen Hrun.
  destruct (run_ops_ring C addr ops fuel0 rs q tr HC Hlen Hrun) as (Hring & Hcap & Hhd).
  pose proof (ring_size _ _ Hring) as Hsize.
  pose proof (ring_fits _ _ Hring) as Hfits. rewrite Hcap in Hfits.
  split; [done|]. split; [lia|]. split; [|split].
  - unfold empty. rewrite Z.leb_le, Hsize.
    destruct (contents q); simpl; split; intros; try done; lia.
  - intros v fuel Hfuel.
    pose proof (ring_call q (contents q) (TryEmplace v) fuel Hring Hhd Hfuel) as Hcall.
    simpl in Hcall. rewrite Hcap, <- Hsize in Hcall.
    destruct (Z.ltb_spec (size q) C) as [Hlt|Hge].
    + destruct Hcall as (q' & tr' & Hrun' & Hring' & _). exists q', tr'.
      split; [done|]. rewrite (ring_size _ _ Hring'), (ring_contents _ _ Hring').
      split; [done|]. rewrite length_app. simpl. lia.
    + destruct Hcall as (q' & tr' & Hrun' & Hring' & _).
      assert (Hs : exists s, slot_at q (head_ q) = Some s /\
                     turn s <> wrap (turn_ q (head_ q) * 2)).
      { destruct (ring_head_full q _ Hring ltac:(lia)) as (x & Hx).
        eexists. split; [done|]. simpl. lia. }
      destruct Hs as (s & Hs & Hne).
      apply (try_emplace_returns_false fuel q v s Hs Hne). lia.
  - intros out fuel Hfuel.
    pose proof (ring_call q (contents q) (TryPop out) fuel Hring Hhd Hfuel) as Hcall.
    simpl in Hcall. destruct (contents q) as [|x l'] eqn:Hc.
    + assert (Hs : exists s, slot_at q (tail_ q) = Some s /\
                     turn s <> wrap (turn_ q (tail_ q) * 2 + 1)).
      { eexists. split; [by apply ring_tail_free|]. simpl. lia. }
      destruct Hs as (s & Hs & Hne).
      apply (try_pop_returns_false fuel q out s Hs Hne). lia.
    + destruct Hcall as (q' & tr' & Hrun' & Hring' & _). exists q', tr'.
      split; [done|]. rewrite (ring_size _ _ Hring'), (ring_contents _ _ Hring').
      split; [done|]. rewrite Hsize. simpl length. lia.
Qed.

(** X3. The blocking calls of a thread that runs alone, on a queue reached
    by a sequence of calls: [emplace] on a full queue and [pop] on an empty
    queue never return, however many steps they are given. *)
Theorem blocking_calls_alone_wait (C addr : Z) (ops : list (op T)) fuel0 rs q tr :
  1 <= C < size_modulus -> Z.of_nat (length ops) < 2 ^ 63 - 1 ->
  run_ops fuel0 ops (fresh C addr) = Done (rs, q, tr) ->
  (size q = C -> forall v fuel, emplace fuel v q = Spinning) /\
  (size q = 0 -> forall out fuel, pop fuel out q = Spinning).
Proof.
  intros HC Hlen Hrun.
  destruct (run_ops_ring C addr ops fuel0 rs q tr HC Hlen Hrun) as (Hring & Hcap & Hhd).
  pose proof (ring_size _ _ Hring) as Hsize. split.
  - intros Hfull v fuel.
    pose proof (ring_call q (contents q) (Emplace v) 6 Hring Hhd ltac:(lia)) as Hcall.
    simpl in Hcall. rewrite Hcap, <- Hsize in Hcall.
    destruct (Z.ltb_spec (size q) C); [lia|]. apply Hcall.
  - intros Hempty out fuel.
    pose proof (ring_call q (contents q) (Pop out) 6 Hring Hhd ltac:(lia)) as Hcall.
    simpl in Hcall. destruct (contents q) as [|x l']; [apply Hcall|].
    simpl length in Hsize. lia.
Qed.


(** ** Calls of several threads *)

Lemma claimed_slot_owns p t :
  claimed_slot p = Some t -> exists r, role_of p = Some (t, r) /\ owns r = true.
Proof. destruct p; simpl; intros [= <-]; by eauto. Qed.

(** X4. In every state of every interleaving, two calls never have the same
    slot claimed: between the end of its wait (or its successful
    compare-exchange) and the store that publishes the turn, a call is the
    only one to touch the storage of its slot.  The slot of a call about to
    construct holds no element, and the slot of a call about to move from
    it or to destroy holds one. *)
Theorem claimed_slots_exclusive (C addr : Z) k q ths i o p t :
  1 <= C -> Z.of_nat k < 2 ^ 63 -> sys_reachable C addr k (q, ths) ->
  ths !! i = Some (o, p) -> claimed_slot p = Some t ->
  (forall j o' p' t', ths !! j = Some (o', p') -> claimed_slot p' = Some t' ->
     slot_index q t' = slot_index q t -> j = i) /\
  0 <= t /\
  exists s, slot_at q t = Some s /\
    (took_head p = true -> t < head_ q /\ turn s = 2 * turn_ q t) /\
    (took_tail p = true -> t < tail_ q /\ turn s = 2 * turn_ q t + 1) /\
    (forall v, p = emplace_construct t v \/ p = try_emplace_construct t v ->
       storage s = None) /\
    (forall out, p = pop_move t out \/ p = try_pop_move t out \/
                 p = pop_destroy t out \/ p = try_pop_destroy t out ->
       is_Some (storage s)).
Proof.
  intros HC Hk Hreach Hi Hp.
  pose proof (sys_reachable_inv C addr k (q, ths) HC Hreach Hk) as Hinv. simpl in Hinv.
  destruct (claimed_slot_owns p t Hp) as (r & Hr & Ho).
  split.
  - intros j o' p' t' Hj Hp' Hidx.
    destruct (claimed_slot_owns p' t' Hp') as (r' & Hr' & Ho').
    by apply (owner_unique _ q ths j i (o', p') (o, p) t' t r' r Hinv).
  - destruct (par_role _ _ _ _ _ _ _ Hinv Hi Hr) as ([Ht0 Htk] & s & Hs & Hok).
    split; [done|]. exists s. split; [done|].
    destruct p; simpl in Hp, Hr; try discriminate;
      injection Hr as <- <-; simpl in Htk, Hok; destruct Hok as [Hturn Hst];
      (split; [by intros; try done|]); (split; [by intros; try done|]); split;
      try (intros ? [?|?]; congruence);
      try (intros ? [?|[?|[?|?]]]; try congruence; by try rewrite Hst).
Qed.

(** X5. A call that has claimed its slot returns within three steps of
    its own, whatever the other threads do in between: in every state of
    every interleaving its next step is defined, and takes it one step
    closer to its return. *)
Theorem claimed_calls_return (C addr : Z) k q ths i o p t :
  1 <= C -> Z.of_nat k < 2 ^ 63 -> sys_reachable C addr k (q, ths) ->
  ths !! i = Some (o, p) -> claimed_slot p = Some t ->
  (remaining p <= 3)%nat /\
  exists p' q' ev, step p q = Some (p', q', ev) /\
    S (remaining p') = remaining p /\
    (remaining p' = 0%nat -> returned p' = true) /\
    (remaining p' <> 0%nat -> claimed_slot p' = Some t).
Proof.
  intros HC Hk Hreach Hi Hp.
  pose proof (sys_reachable_inv C addr k (q, ths) HC Hreach Hk) as Hinv. simpl in Hinv.
  destruct (step_defined _ _ _ _ _ _ Hinv Hi) as [[[p' q'] ev] Hstep].
  split; [destruct p; simpl; lia|].
  exists p', q', ev. split; [done|].
  destruct p; simpl in Hp; try discriminate; injection Hp as ->; simpl in Hstep;
    repeat match type of Hstep with
      | context [slot_at ?q ?t] => destruct (slot_at q t) as [[? [?|]]|]; simpl in Hstep
      end; try discriminate Hstep; by injection Hstep as <- <- <-.
Qed.

(** ** Tickets and sizes *)

Lemma step_head p q p' q' ev :
  step p q = Some (p', q', ev) -> 0 <= head_ q -> head_ q + 1 < size_modulus ->
  head_ q' + (if took_head p then 1 else 0) = head_ q + (if took_head p' then 1 else 0).
Proof.
  intros Hstep Hh0 Hh1.
  destruct p; simpl in Hstep;
    repeat match type of Hstep with
      | context [slot_at ?q ?t] => destruct (slot_at q t) as [[? [?|]]|]; simpl in Hstep
      | context [Z.eqb ?a ?b] => destruct (Z.eqb_spec a b); simpl in Hstep
      end; try discriminate Hstep; injection Hstep as <- <- <-; simpl;
    try match goal with r : retval T |- _ => destruct r as [|[]| |[]] end;
    subst; try change (head_ (with_head ?q ?h)) with h;
    rewrite ?wrap_small by lia; simpl; lia.
Qed.

Lemma step_tail p q p' q' ev :
  step p q = Some (p', q', ev) -> 0 <= tail_ q -> tail_ q + 1 < size_modulus ->
  tail_ q' + (if took_tail p then 1 else 0) = tail_ q + (if took_tail p' then 1 else 0).
Proof.
  intros Hstep Hh0 Hh1.
  destruct p; simpl in Hstep;
    repeat match type of Hstep with
      | context [slot_at ?q ?t] => destruct (slot_at q t) as [[? [?|]]|]; simpl in Hstep
      | context [Z.eqb ?a ?b] => destruct (Z.eqb_spec a b); simpl in Hstep
      end; try discriminate Hstep; injection Hstep as <- <- <-; simpl;
    try match goal with r : retval T |- _ => destruct r as [|[]| |[]] end;
    subst; try change (tail_ (with_tail ?q ?h)) with h;
    rewrite ?wrap_small by lia; simpl; lia.
Qed.

(** Each counter is the number of calls that have taken a ticket from it. *)
Lemma tickets_counted (C addr : Z) k (st : queue T * list (op T * pc T)) :
  1 <= C -> sys_reachable C addr k st -> Z.of_nat k < 2 ^ 63 ->
  head_ st.1 = Z.of_nat (count took_head st.2) /\
  tail_ st.1 = Z.of_nat (count took_tail st.2).
Proof.
  intros HC Hreach. induction Hreach as [|k st st' Hreach IH Hstep]; intros Hk; [done|].
  specialize (IH ltac:(lia)). destruct IH as [IHh IHt].
  pose proof (sys_reachable_inv C addr k st HC Hreach ltac:(lia)) as Hinv.
  pose proof (par_head _ _ _ Hinv) as Hhd. pose proof (par_tail _ _ _ Hinv) as Htl.
  word_bounds.
  destruct Hstep as [q ths o|q ths i o p p' q' ev Hi Hstep]; simpl in *.
  - rewrite !count_app. unfold count at 2 4. simpl.
    replace (took_head (entry o)) with false by (by destruct o).
    replace (took_tail (entry o)) with false by (by destruct o).
    simpl. by rewrite !Nat.add_0_r.
  - pose proof (step_head p q p' q' ev Hstep ltac:(lia) ltac:(lia)) as Hh.
    pose proof (step_tail p q p' q' ev Hstep ltac:(lia) ltac:(lia)) as Ht.
    pose proof (count_insert took_head ths i o p o p' Hi) as Hch.
    pose proof (count_insert took_tail ths i o p o p' Hi) as Hct.
    destruct (took_head p), (took_head p'), (took_tail p), (took_tail p'); lia.
Qed.

Lemma pending_produced o p :
  pc_of o p = true ->
  (if took_head p then 1 else 0)%nat
  = ((if enqueue_pending p then 1 else 0) + length (produced (o, p)))%nat.
Proof. destruct o, p; try discriminate; try done; by destruct r as [|[]| |[]]. Qed.

Lemma pending_consumed o p :
  (if took_tail p then 1 else 0)%nat
  = ((if dequeue_pending p then 1 else 0) + length (consumed (o, p)))%nat.
Proof. destruct p; try done. by destruct r as [|[]| |[]]. Qed.

Lemma count_produced ths :
  Forall (fun th => pc_of th.1 th.2 = true) ths ->
  count took_head ths
  = (count enqueue_pending ths + length (concat (map produced ths)))%nat.
Proof.
  induction 1 as [|[o p] ths Hp _ IH]; [done|].
  unfold count in *. simpl in *. rewrite length_app.
  pose proof (pending_produced o p Hp).
  destruct (took_head p), (enqueue_pending p); simpl in *; lia.
Qed.

Lemma count_consumed ths :
  count took_tail ths
  = (count dequeue_pending ths + length (concat (map consumed ths)))%nat.
Proof.
  induction ths as [|[o p] ths IH]; [done|].
  unfold count in *. simpl in *. rewrite length_app.
  pose proof (pending_consumed o p).
  destruct (took_tail p), (dequeue_pending p); simpl in *; lia.
Qed.

Lemma stored_length q :
  length (stored q) = stored_count q /\ (length (stored q) <= length (slots_ q))%nat.
Proof.
  unfold stored, stored_count, occupied.
  induction (slots_ q) as [|s sl [IH1 IH2]]; [done|].
  simpl. destruct (storage s); simpl.
  - split; [f_equal; exact IH1|apply le_n_S; exact IH2].
  - split; [exact IH1|apply Nat.le_le_succ_r; exact IH2].
Qed.

Lemma size_among_threads_pending (C addr : Z) k q ths :
  1 <= C -> Z.of_nat k < 2 ^ 63 -> sys_reachable C addr k (q, ths) ->
  size q = Z.of_nat (length (stored q)) + Z.of_nat (count enqueue_pending ths)
           - Z.of_nat (count dequeue_pending ths) /\
  (length (stored q) <= Z.to_nat C)%nat.
Proof.
  intros HC Hk Hreach.
  destruct (tickets_counted C addr k (q, ths) HC Hreach Hk) as [Hh Ht]. simpl in Hh, Ht.
  pose proof (sys_reachable_inv C addr k (q, ths) HC Hreach Hk) as Hinv. simpl in Hinv.
  pose proof (par_head _ _ _ Hinv) as Hhd. pose proof (par_tail _ _ _ Hinv) as Htl.
  pose proof (count_produced ths (sys_reachable_calls C addr k _ Hreach)) as Hp.
  pose proof (count_consumed ths) as Hc.
  pose proof (Permutation_length (par_conserved _ _ _ Hinv)) as Hcons.
  rewrite length_app in Hcons.
  destruct (stored_length q) as [_ Hle].
  destruct (sys_reachable_shape C addr k q ths Hreach) as (_ & Hlen & _).
  split; [|lia]. rewrite size_difference by lia. lia.
Qed.

Lemma size_among_threads_returned (C addr : Z) k q ths :
  1 <= C -> Z.of_nat k < 2 ^ 63 -> sys_reachable C addr k (q, ths) ->
  Forall (fun th => returned th.2 = true) ths ->
  size q = Z.of_nat (length (stored q)) /\ 0 <= size q <= C /\
  (empty q = true <-> stored q = []).
Proof.
  intros HC Hk Hreach Hret.
  destruct (size_among_threads_pending C addr k q ths HC Hk Hreach) as [Hsize Hle].
  rewrite (count_returned enqueue_pending ths) in Hsize by done.
  rewrite (count_returned dequeue_pending ths) in Hsize by done.
  split; [lia|]. split; [lia|].
  unfold empty. rewrite Z.leb_le, Hsize.
  destruct (stored q); simpl; split; intros; try done; lia.
Qed.

(** X6. The counters among several threads.  In every state of every
    interleaving (fewer than 2^63 steps), [head_] and [tail_] are the
    numbers of calls that have taken a ticket from them, and the difference
    [head_ - tail_] in that state is the number of elements stored, plus
    the enqueueing calls that hold a ticket and have not yet constructed,
    minus the dequeueing calls that hold a ticket and have not yet
    destroyed: it is negative only while consumers hold tickets, and above
    the capacity only while producers do.  When every call has returned,
    [size()] is the number of elements stored and [empty()] tells whether
    there is none. *)
Theorem tickets_and_size (C addr : Z) k q ths :
  1 <= C -> Z.of_nat k < 2 ^ 63 -> sys_reachable C addr k (q, ths) ->
  head_ q = Z.of_nat (count took_head ths) /\
  tail_ q = Z.of_nat (count took_tail ths) /\
  head_ q - tail_ q
  = Z.of_nat (length (stored q)) + Z.of_nat (count enqueue_pending ths)
    - Z.of_nat (count dequeue_pending ths) /\
  - Z.of_nat (count dequeue_pending ths) <= head_ q - tail_ q
    <= C + Z.of_nat (count enqueue_pending ths) /\
  (Forall (fun th => returned th.2 = true) ths ->
     size q = Z.of_nat (length (stored q)) /\ 0 <= size q <= C /\
     (empty q = true <-> stored q = [])).
Proof.
  intros HC Hk Hreach.
  destruct (tickets_counted C addr k (q, ths) HC Hreach Hk) as [Hh Ht]. simpl in Hh, Ht.
  destruct (size_among_threads_pending C addr k q ths HC Hk Hreach) as [Hsize Hle].
  pose proof (sys_reachable_inv C addr k (q, ths) HC Hreach Hk) as Hinv. simpl in Hinv.
  pose proof (par_head _ _ _ Hinv) as Hhd. pose proof (par_tail _ _ _ Hinv) as Htl.
  rewrite size_difference in Hsize by lia.
  split; [done|]. split; [done|]. split; [done|]. split; [lia|].
  by apply (size_among_threads_returned C addr k q ths).
Qed.

(** ** The destructor after the threads have finished *)

Lemma returned_zip (ops : list (op T)) (rs : list (retval T)) :
  Forall (fun th : op T * pc T => returned th.2 = true) (zip ops (map Return rs)).
Proof.
  revert rs. induction ops as [|o ops IH]; intros [|r rs]; simpl; by constructor.
Qed.

Lemma returned_parity n q ths k s :
  par_inv n q ths -> Forall (fun th => returned th.2 = true) ths ->
  slots_ q !! k = Some s -> turn_is_odd s = occupied s.
Proof.
  intros Hinv Hret Hs.
  destruct (par_parity _ _ _ Hinv k s Hs) as [Hpar|(i & th & t & r & Hi & Hr & _)]; [done|].
  pose proof (Forall_lookup_1 _ _ _ _ Hret Hi) as Hth. simpl in Hth.
  by rewrite (returned_role _ Hth) in Hr.
Qed.

(** X7. The destructor after a run of several threads.  When every call of
    an interleaving has returned, [~queue()] meets no undefined behaviour:
    it destroys the element of each slot that holds one, once, and of no
    other slot, then gives the block back; with the elements the calls have
    taken out, as many elements have been destroyed as were constructed. *)
Theorem destructor_after_threads (C addr : Z) k q (ops : list (op T)) rs h :
  1 <= C -> Z.of_nat k < 2 ^ 63 -> length ops = length rs ->
  sys_reachable C addr k (q, zip ops (map Return rs)) ->
  exists ixs,
    queue_dtor q ((addr, wrap (C + 1)) :: h)
    = Some (h, map EvDestroy ixs ++ [EvDeallocate addr (wrap (C + 1))]) /\
    NoDup ixs /\
    (forall i s, slots_ q !! i = Some s -> (In i ixs <-> is_Some (storage s))) /\
    (length ixs + length (dequeued rs) = length (enqueued ops rs))%nat.
Proof.
  intros HC Hk Hlen Hreach.
  pose proof (sys_reachable_inv C addr k _ HC Hreach Hk) as Hinv. simpl in Hinv.
  destruct (sys_reachable_shape C addr k q _ Hreach) as (Hcap & Hslots & Hptr).
  pose proof (returned_zip ops rs) as Hret.
  assert (Hpar : forall i s, slots_ q !! i = Some s -> turn_is_odd s = occupied s).
  { intros i s Hs. by apply (returned_parity _ _ _ _ _ Hinv Hret Hs). }
  exists (odd_slots (slots_ q) (seq 0 (Z.to_nat C))). split; [|split; [|split]].
  - unfold queue_dtor. rewrite Hcap, Hptr.
    rewrite (destroy_slots_defined (slots_ q) (seq 0 (Z.to_nat C))).
    + simpl. by rewrite !Z.eqb_refl.
    + intros i Hi. apply in_seq in Hi.
      destruct (lookup_lt_is_Some_2 (slots_ q) i) as [s Hs]; [lia|].
      exists s. split; [done|]. by eapply Hpar.
  - unfold odd_slots. apply NoDup_ListNoDup, List.NoDup_filter, seq_NoDup.
  - intros i s Hs. pose proof (Hpar i s Hs) as Hpi. unfold occupied in Hpi.
    pose proof (lookup_lt_Some _ _ _ Hs) as Hi.
    unfold odd_slots. rewrite filter_In, in_seq, Hs, Hpi.
    destruct (storage s) as [x|]; split.
    + by eauto.
    + intros _. split; [lia|done].
    + by intros [_ ?].
    + by intros [? ?].
  - rewrite <- Hslots, odd_slots_count.
    replace (length (List.filter turn_is_odd (slots_ q))) with (length (stored q)).
    + pose proof (Permutation_length (par_conserved _ _ _ Hinv)) as Hcons.
      destruct (returned_threads ops rs Hlen (sys_reachable_calls C addr k _ Hreach))
        as [Hprod Hcon]. simpl in Hprod, Hcon, Hcons.
      rewrite Hprod, Hcon, length_app in Hcons. lia.
    + destruct (stored_length q) as [-> _]. unfold stored_count. f_equal.
      apply List.filter_ext_in. intros s Hin.
      apply list_elem_of_In, list_elem_of_lookup in Hin as [i Hs].
      symmetry. by apply (Hpar i).
Qed.

(** ** What a step leaves alone *)

(** X8. What a step of a call leaves alone.  No step changes the capacity,
    the address of the slots or their number.  A step of [emplace] or
    [try_emplace] does not write [tail_], a step of [pop] or [try_pop] does
    not write [head_]; the counters change only at a [fetch_add] and at a
    successful compare-exchange, by one.  A step writes no slot unless the
    call has claimed one, and then no other slot than that one; it
    constructs or destroys at most one element. *)
Theorem step_frame p q p' q' ev :
  step p q = Some (p', q', ev) ->
  (capacity_ q' = capacity_ q /\ slots_ptr q' = slots_ptr q /\
   length (slots_ q') = length (slots_ q)) /\
  (forall v, pc_of (Emplace v) p = true \/ pc_of (TryEmplace v) p = true ->
     tail_ q' = tail_ q) /\
  (forall out, pc_of (Pop out) p = true \/ pc_of (TryPop out) p = true ->
     head_ q' = head_ q) /\
  (head_ q' = head_ q \/
   (head_ q' = wrap (head_ q + 1) /\ took_head p = false /\ took_head p' = true)) /\
  (tail_ q' = tail_ q \/
   (tail_ q' = wrap (tail_ q + 1) /\ took_tail p = false /\ took_tail p' = true)) /\
  (claimed_slot p = None -> slots_ q' = slots_ q /\ ev = []) /\
  (forall t, claimed_slot p = Some t ->
     (forall j, j <> slot_index q t -> slots_ q' !! j = slots_ q !! j) /\
     (ev = [] \/ ev = [EvConstruct (slot_index q t)] \/ ev = [EvDestroy (slot_index q t)])).
Proof.
  intros Hstep. split; [by destruct (step_shape _ _ _ _ _ Hstep) as (? & ? & ?)|].
  destruct p; simpl in Hstep;
    repeat match type of Hstep with
      | context [slot_at ?q ?t] => destruct (slot_at q t) as [[? [?|]]|]; simpl in Hstep
      | context [Z.eqb ?a ?b] => destruct (Z.eqb_spec a b); simpl in Hstep
      end; try discriminate Hstep; injection Hstep as <- <- <-; subst;
    (split; [by intros ? [?|?]|]); (split; [by intros ? [?|?]|]);
    (split; [by (left + right)|]); (split; [by (left + right)|]);
    (split; [by intros|]); intros t0 [= <-];
    (split; [intros j Hj; unfold with_slot; simpl;
             first [done | by rewrite list_lookup_insert_ne]|]);
    by eauto.
Qed.

(** ** The allocator used where [new] does not align *)

Lemma allocate_check (sizeof_T n : Z) :
  1 <= sizeof_T -> 0 <= n ->
  (n >? size_max / sizeof_T) = (size_max <? sizeof_T * n).
Proof.
  intros Hs Hn. unfold size_max. word_bounds.
  destruct (Z.gtb_spec n ((size_modulus - 1) / sizeof_T)) as [Hgt|Hle];
    destruct (Z.ltb_spec (size_modulus - 1) (sizeof_T * n)) as [Hlt|Hge]; try done.
  - exfalso. apply Z.lt_gt in Hgt. apply Z.gt_lt in Hgt.
    pose proof (Z.mul_div_le (size_modulus - 1) sizeof_T ltac:(lia)).
    pose proof (Z.mod_pos_bound (size_modulus - 1) sizeof_T ltac:(lia)).
    pose proof (Z.div_mod (size_modulus - 1) sizeof_T ltac:(lia)). nia.
  - exfalso.
    pose proof (Z.div_le_lower_bound (size_modulus - 1) sizeof_T n ltac:(lia)) as Hd.
    pose proof (Z.div_mod (size_modulus - 1) sizeof_T ltac:(lia)).
    pose proof (Z.mod_pos_bound (size_modulus - 1) sizeof_T ltac:(lia)). nia.
Qed.

(** X9. [aligned_allocator::allocate(n)] refuses with
    [bad_array_new_length], without asking for memory, exactly when
    [sizeof(T) * n] does not fit a [size_t]; otherwise it asks for exactly
    [sizeof(T) * n] bytes at the alignment of [T] (the product has not
    wrapped), returns the block it gets and throws [bad_alloc] when it gets
    none. *)
Theorem aligned_allocate_checked (sizeof_T alignof_T : Z) memalign (n : Z) :
  1 <= sizeof_T -> 0 <= n ->
  (size_max < sizeof_T * n ->
     aligned_allocate sizeof_T alignof_T memalign n = Throws_bad_array_new_length) /\
  (sizeof_T * n <= size_max ->
     aligned_allocate sizeof_T alignof_T memalign n
     = match memalign alignof_T (sizeof_T * n) with
       | Some a => Allocated a
       | None => Throws_bad_alloc
       end) /\
  (forall a, aligned_allocate sizeof_T alignof_T memalign n = Allocated a ->
     sizeof_T * n <= size_max /\ memalign alignof_T (sizeof_T * n) = Some a).
Proof.
  intros Hs Hn. unfold aligned_allocate. rewrite (allocate_check sizeof_T n Hs Hn).
  unfold size_max. destruct (Z.ltb_spec (size_modulus - 1) (sizeof_T * n)) as [Hlt|Hge].
  - split; [done|]. split; [lia|done].
  - rewrite wrap_small by nia. split; [lia|]. split; [done|].
    intros a Hp. split; [done|]. by destruct (memalign _ _) as [a0|]; [injection Hp as ->|].
Qed.

(** X10. The constructor of a queue over [aligned_allocator], by capacity.
    While [(capacity + 1) * sizeof(slot)] fits a [size_t] the block asked
    for has that many bytes, at the alignment of a slot, and a block that
    is not aligned is given back.  When it does not fit and [capacity + 1]
    does, the constructor throws before any memory is asked for.  With
    [capacity = 2^64 - 1] the sum [capacity + 1] wraps to 0, which passes
    the check of [allocate]: a block of 0 bytes is asked for; when none is
    returned the constructor throws [bad_alloc], and when one is returned,
    aligned, the constructor constructs its slots outside it, which is
    undefined behaviour. *)
Theorem ctor_with_aligned_allocator (sizeof_slot : Z) memalign (capacity : Z) (h : heap) :
  hardware_interference_size <= sizeof_slot -> 1 <= capacity < size_modulus ->
  (sizeof_slot * (capacity + 1) <= size_max ->
     queue_ctor (T:=T) (aligned_allocator sizeof_slot memalign) capacity h
     = match memalign h hardware_interference_size (sizeof_slot * (capacity + 1)) with
       | None => Some (inl bad_alloc, h, [])
       | Some a =>
           if a mod hardware_interference_size =? 0
           then Some (inr (fresh capacity a), (a, capacity + 1) :: h,
                      [EvAllocate a (capacity + 1)])
           else Some (inl bad_alloc, h,
                      [EvAllocate a (capacity + 1); EvDeallocate a (capacity + 1)])
       end) /\
  (size_max < sizeof_slot * (capacity + 1) -> capacity < size_max ->
     exists e, queue_ctor (T:=T) (aligned_allocator sizeof_slot memalign) capacity h
               = Some (inl e, h, [])) /\
  (capacity = size_max ->
     (memalign h hardware_interference_size 0 = None ->
        queue_ctor (T:=T) (aligned_allocator sizeof_slot memalign) capacity h
        = Some (inl bad_alloc, h, [])) /\
     (forall a, memalign h hardware_interference_size 0 = Some a ->
        a mod hardware_interference_size = 0 ->
        queue_ctor (T:=T) (aligned_allocator sizeof_slot memalign) capacity h = None)).
Proof.
  intros Hs HC. unfold size_max in *. word_bounds.
  assert (H64 : hardware_interference_size = 64) by done.
  split; [|split].
  - intros Hfit. unfold queue_ctor, aligned_allocator, aligned_allocate.
    rewrite (wrap_small capacity) by lia. cbv zeta.
    destruct (Z.ltb_spec capacity 1) as [|_]; [lia|].
    rewrite (wrap_small (capacity + 1)) by nia.
    rewrite allocate_check by lia. unfold size_max.
    destruct (Z.ltb_spec (size_modulus - 1) (sizeof_slot * (capacity + 1))); [lia|].
    rewrite (wrap_small (sizeof_slot * (capacity + 1))) by nia.
    destruct (memalign h _ _) as [a|]; [|done].
    destruct (Z.eqb_spec (a mod hardware_interference_size) 0); cbn [negb]; cbv iota.
    + rewrite construct_slots_in_spec by lia.
      by destruct (Z.leb_spec (Z.of_nat (Z.to_nat capacity)) (capacity + 1)); [|lia].
    + simpl. by rewrite !Z.eqb_refl.
  - intros Hover Hlt. unfold queue_ctor, aligned_allocator, aligned_allocate.
    rewrite (wrap_small capacity) by lia. cbv zeta.
    destruct (Z.ltb_spec capacity 1) as [|_]; [lia|].
    rewrite (wrap_small (capacity + 1)) by lia.
    rewrite allocate_check by lia. unfold size_max.
    destruct (Z.ltb_spec (size_modulus - 1) (sizeof_slot * (capacity + 1))); [|lia].
    by eexists.
  - intros ->.
    assert (Hask : forall r, memalign h hardware_interference_size 0 = r ->
              aligned_allocator sizeof_slot memalign h 0 = r).
    { intros r Hr. unfold aligned_allocator, aligned_allocate.
      rewrite allocate_check by lia. unfold size_max.
      destruct (Z.ltb_spec (size_modulus - 1) (sizeof_slot * 0)); [lia|].
      rewrite Z.mul_0_r. change (wrap 0) with 0. rewrite Hr. by destruct r. }
    split.
    + intros Hnone. unfold queue_ctor.
      replace (wrap (size_modulus - 1)) with (size_modulus - 1) by reflexivity.
      replace (wrap (size_modulus - 1 + 1)) with 0 by reflexivity.
      change (size_modulus - 1 <? 1) with false. cbv beta iota zeta.
      by rewrite (Hask _ Hnone).
    + intros a Hmem Hal. apply (queue_ctor_overrun _ h a); [|done]. by apply Hask.
Qed.

(** ** Runs of blocking calls *)

Lemma blocking_returned (ops : list (op T)) (rs : list (retval T)) :
  length ops = length rs -> Forall (fun o => blocking o = true) ops ->
  Forall (fun th : op T * pc T => pc_of th.1 th.2 = true) (zip ops (map Return rs)) ->
  enqueued ops rs = pushed ops /\
  length (dequeued rs) = length (List.filter is_pop ops).
Proof.
  revert rs. induction ops as [|o ops IH]; intros [|r rs] Hlen Hb Hpc; try done.
  simpl in *. apply Forall_cons in Hb as [Hbo Hb]. apply Forall_cons in Hpc as [Hpo Hpc].
  destruct (IH rs ltac:(lia) Hb Hpc) as [IH1 IH2].
  unfold dequeued in *. simpl in *.
  destruct o, r as [|[]| |[]]; try discriminate; simpl in *; rewrite ?IH1; split; try done;
    by rewrite IH2.
Qed.

Lemma blocking_run_conserved (C addr : Z) k q (ops : list (op T)) rs :
  1 <= C -> Z.of_nat k < 2 ^ 63 -> length ops = length rs ->
  Forall (fun o => blocking o = true) ops ->
  sys_reachable C addr k (q, zip ops (map Return rs)) ->
  Permutation (pushed ops) (dequeued rs ++ stored q) /\
  length (dequeued rs) = length (List.filter is_pop ops).
Proof.
  intros HC Hk Hlen Hb Hreach.
  pose proof (sys_reachable_inv C addr k _ HC Hreach Hk) as Hinv. simpl in Hinv.
  pose proof (sys_reachable_calls C addr k _ Hreach) as Hpc. simpl in Hpc.
  destruct (returned_threads ops rs Hlen Hpc) as [Hprod Hcon].
  destruct (blocking_returned ops rs Hlen Hb Hpc) as [Henq Hdeq].
  pose proof (par_conserved _ _ _ Hinv) as Hcons.
  rewrite Hprod, Hcon, Henq in Hcons. by split.
Qed.

(** X11. Runs of blocking calls by several threads.  When every call of an
    interleaving of [emplace] and [pop] calls has returned, the values
    emplaced are those the [pop] calls have returned and those still
    stored; as many values are stored as there were more [emplace] than
    [pop] calls; with as many of each, the queue is left empty and the
    [pop] calls have returned the values emplaced, each once. *)
Theorem blocking_run_delivers (C addr : Z) k q (ops : list (op T)) rs :
  1 <= C -> Z.of_nat k < 2 ^ 63 -> length ops = length rs ->
  Forall (fun o => blocking o = true) ops ->
  sys_reachable C addr k (q, zip ops (map Return rs)) ->
  Permutation (pushed ops) (dequeued rs ++ stored q) /\
  length (pushed ops) = (length (List.filter is_pop ops) + length (stored q))%nat /\
  (length (pushed ops) = length (List.filter is_pop ops) ->
     stored q = [] /\ Permutation (dequeued rs) (pushed ops) /\
     size q = 0 /\ empty q = true).
Proof.
  intros HC Hk Hlen Hb Hreach.
  destruct (blocking_run_conserved C addr k q ops rs HC Hk Hlen Hb Hreach) as [Hcons Hdeq].
  pose proof (Permutation_length Hcons) as Hl. rewrite length_app, Hdeq in Hl.
  split; [done|]. split; [done|].
  intros Heq. assert (Hst : stored q = []) by (destruct (stored q); [done|simpl in Hl; lia]).
  rewrite Hst, app_nil_r in Hcons. split; [done|]. split; [done|].
  destruct (size_among_threads_returned C addr k q _ HC Hk Hreach (returned_zip ops rs))
    as (Hsize & _ & Hempty).
  rewrite Hst in Hsize. split; [done|]. by apply Hempty.
Qed.

(** ** Retries of the non-blocking calls *)

(** X12. Retries of the non-blocking calls, in every state of every
    interleaving (fewer than 2^63 steps).  When the compare-exchange of
    [try_emplace] fails, or its reload finds [head_] changed, the call goes
    back to its check with the value of [head_] it has just read, which is
    above the one it had: another call has taken a ticket in between.  The
    queue is left as it is.  The same holds for [try_pop] and [tail_]. *)
Theorem try_retries_progress (C addr : Z) k q ths i o p p' q' ev :
  1 <= C -> Z.of_nat k < 2 ^ 63 -> sys_reachable C addr k (q, ths) ->
  ths !! i = Some (o, p) -> step p q = Some (p', q', ev) ->
  (forall h v h' v', p = try_emplace_cas h v \/ p = try_emplace_reload h v ->
     p' = try_emplace_check h' v' ->
     h < h' /\ h' = head_ q /\ v' = v /\ q' = q /\ ev = []) /\
  (forall t out t' out', p = try_pop_cas t out \/ p = try_pop_reload t out ->
     p' = try_pop_check t' out' ->
     t < t' /\ t' = tail_ q /\ out' = out /\ q' = q /\ ev = []).
Proof.
  intros HC Hk Hreach Hi Hstep.
  pose proof (sys_reachable_inv C addr k (q, ths) HC Hreach Hk) as Hinv. simpl in Hinv.
  split.
  - intros h v h' v' Hp ->.
    assert (Hle : h <= head_ q).
    { destruct Hp as [-> | ->];
        by destruct (par_role _ _ _ _ _ _ _ Hinv Hi eq_refl) as ([_ Htk] & _). }
    destruct Hp as [-> | ->]; simpl in Hstep;
      destruct (Z.eqb_spec (head_ q) h) as [Heq|Hne]; try discriminate;
      injection Hstep as <- <- <- <-; (split; [lia|done]).
  - intros t out t' out' Hp ->.
    assert (Hle : t <= tail_ q).
    { destruct Hp as [-> | ->];
        by destruct (par_role _ _ _ _ _ _ _ Hinv Hi eq_refl) as ([_ Htk] & _). }
    destruct Hp as [-> | ->]; simpl in Hstep;
      destruct (Z.eqb_spec (tail_ q) t) as [Heq|Hne]; try discriminate;
      injection Hstep as <- <- <- <-; (split; [lia|done]).
Qed.

(** ** The assertions of the element type of the test program *)

(** The trace of a call that returns, on a queue no call is in progress
    on: nothing, or one construction in a slot that held no element, or
    one destruction in a slot that held one. *)
Lemma call_effect q o fuel ret q' tr :
  quiescent q -> run fuel (entry o) q = Done (ret, q', tr) ->
  (tr = [] /\ slots_ q' = slots_ q) \/
  (exists k s s', tr = [EvConstruct k] /\ slots_ q !! k = Some s /\ occupied s = false /\
     slots_ q' = <[k:=s']> (slots_ q) /\ occupied s' = true) \/
  (exists k s s', tr = [EvDestroy k] /\ slots_ q !! k = Some s /\ occupied s = true /\
     slots_ q' = <[k:=s']> (slots_ q) /\ occupied s' = false).
Proof.
  intros Hq Hrun.
  pose proof (run_mono fuel (fuel + 6) _ _ _ Hrun ltac:(lia)) as Hrun6.
  destruct o as [v|v|out|out]; simpl entry in *.
  - destruct (quiescent_slot_at q (head_ q) Hq) as (s & Hs & Hpar).
    destruct (decide (turn s = wrap (turn_ q (head_ q) * 2))) as [Ht|Ht];
      [|by rewrite (emplace_spins _ q v s Hs Ht : run _ _ _ = _) in Hrun6].
    rewrite (emplace_returns (fuel + 6) q v s Hs Ht ltac:(lia) : run _ _ _ = _) in Hrun6.
    injection Hrun6 as <- <- <-. right. left.
    exists (slot_index q (head_ q)), s, (Slot (wrap (turn_ q (head_ q) * 2 + 1)) (Some v)).
    split; [done|]. split; [done|]. split; [|by split].
    by rewrite <- Hpar, turn_is_odd_odd, Ht, wrap_odd, odd_twice.
  - destruct (quiescent_slot_at q (head_ q) Hq) as (s & Hs & Hpar).
    destruct (decide (turn s = wrap (turn_ q (head_ q) * 2))) as [Ht|Ht].
    + rewrite (try_emplace_returns_true (fuel + 6) q v s Hs Ht ltac:(lia) : run _ _ _ = _)
        in Hrun6.
      injection Hrun6 as <- <- <-. right. left.
      exists (slot_index q (head_ q)), s, (Slot (wrap (turn_ q (head_ q) * 2 + 1)) (Some v)).
      split; [done|]. split; [done|]. split; [|by split].
      by rewrite <- Hpar, turn_is_odd_odd, Ht, wrap_odd, odd_twice.
    + rewrite (try_emplace_returns_false (fuel + 6) q v s Hs Ht ltac:(lia) : run _ _ _ = _)
        in Hrun6.
      injection Hrun6 as <- <- <-. by left.
  - destruct (quiescent_slot_at q (tail_ q) Hq) as (s & Hs & Hpar).
    destruct (decide (turn s = wrap (turn_ q (tail_ q) * 2 + 1))) as [Ht|Ht];
      [|by rewrite (pop_spins _ q out s Hs Ht : run _ _ _ = _) in Hrun6].
    assert (Hodd : turn_is_odd s = true)
      by (by rewrite turn_is_odd_odd, Ht, wrap_odd, odd_twice_succ).
    destruct s as [t [x|]]; [|by rewrite Hodd in Hpar].
    rewrite (pop_returns (fuel + 6) q out t x Hs Ht ltac:(lia) : run _ _ _ = _) in Hrun6.
    injection Hrun6 as <- <- <-. right. right.
    exists (slot_index q (tail_ q)), (Slot t (Some x)),
           (Slot (wrap (turn_ q (tail_ q) * 2 + 2)) None).
    by repeat (split; [done|]).
  - destruct (quiescent_slot_at q (tail_ q) Hq) as (s & Hs & Hpar).
    destruct (decide (turn s = wrap (turn_ q (tail_ q) * 2 + 1))) as [Ht|Ht].
    + assert (Hodd : turn_is_odd s = true)
        by (by rewrite turn_is_odd_odd, Ht, wrap_odd, odd_twice_succ).
      destruct s as [t [x|]]; [|by rewrite Hodd in Hpar].
      rewrite (try_pop_returns_true (fuel + 6) q out t x Hs Ht ltac:(lia) : run _ _ _ = _)
        in Hrun6.
      injection Hrun6 as <- <- <-. right. right.
      exists (slot_index q (tail_ q)), (Slot t (Some x)),
             (Slot (wrap (turn_ q (tail_ q) * 2 + 2)) None).
      by repeat (split; [done|]).
    + rewrite (try_pop_returns_false (fuel + 6) q out s Hs Ht ltac:(lia) : run _ _ _ = _)
        in Hrun6.
      injection Hrun6 as <- <- <-. by left.
Qed.

Lemma test_type_replay_app live tr tr' :
  test_type_replay live (tr ++ tr')
  = test_type_replay live tr ≫= fun live' => test_type_replay live' tr'.
Proof.
  revert live. induction tr as [|[i|i|a n|a n] tr IH]; intros live; simpl; try done;
    by destruct (decide (i ∈ live)).
Qed.

(** The objects alive are those of the slots that hold an element. *)
Lemma replay_call q o fuel ret q' tr live :
  quiescent q -> run fuel (entry o) q = Done (ret, q', tr) ->
  NoDup live ->
  (forall i, i ∈ live <-> exists s, slots_ q !! i = Some s /\ occupied s = true) ->
  exists live', test_type_replay live tr = Some live' /\ NoDup live' /\
    forall i, i ∈ live' <-> exists s, slots_ q' !! i = Some s /\ occupied s = true.
Proof.
  intros Hq Hrun Hnd Hlive.
  destruct (call_effect q o fuel ret q' tr Hq Hrun)
    as [[-> Hsl]|[(k & s & s' & -> & Hs & Hocc & Hsl & Hocc')
                 |(k & s & s' & -> & Hs & Hocc & Hsl & Hocc')]]; rewrite Hsl; simpl.
  - by exists live.
  - destruct (decide (k ∈ live)) as [Hin|Hnin].
    { apply Hlive in Hin as (s0 & Hs0 & Ho0). congruence. }
    exists (k :: live). split; [done|]. split; [by apply NoDup_cons|].
    intros i. rewrite elem_of_cons, Hlive. split.
    + intros [->|(s0 & Hs0 & Ho0)].
      * exists s'. split; [|done]. apply list_lookup_insert_eq. by eapply lookup_lt_Some.
      * destruct (decide (i = k)) as [->|Hne]; [congruence|].
        exists s0. by rewrite list_lookup_insert_ne.
    + intros (s0 & Hs0 & Ho0). destruct (decide (i = k)) as [->|Hne]; [by left|right].
      exists s0. by rewrite list_lookup_insert_ne in Hs0.
  - destruct (decide (k ∈ live)) as [Hin|Hnin]; [|exfalso; apply Hnin, Hlive; by eauto].
    exists (filter (fun j => j <> k) live). split; [done|]. split; [by apply NoDup_filter|].
    intros i. rewrite list_elem_of_filter, Hlive. split.
    + intros (Hne & s0 & Hs0 & Ho0). exists s0. by rewrite list_lookup_insert_ne.
    + intros (s0 & Hs0 & Ho0). destruct (decide (i = k)) as [->|Hne].
      * rewrite list_lookup_insert_eq in Hs0 by (by eapply lookup_lt_Some). congruence.
      * split; [done|]. exists s0. by rewrite list_lookup_insert_ne in Hs0.
Qed.

Lemma replay_run_ops ops : forall q fuel rs q' tr live,
  quiescent q -> run_ops fuel ops q = Done (rs, q', tr) ->
  NoDup live ->
  (forall i, i ∈ live <-> exists s, slots_ q !! i = Some s /\ occupied s = true) ->
  quiescent q' /\
  exists live', test_type_replay live tr = Some live' /\ NoDup live' /\
    forall i, i ∈ live' <-> exists s, slots_ q' !! i = Some s /\ occupied s = true.
Proof.
  induction ops as [|o ops IH]; intros q fuel rs q' tr live Hq Hrun Hnd Hlive; simpl in Hrun.
  - injection Hrun as <- <- <-. split; [done|]. by exists live.
  - destruct (run fuel (entry o) q) as [[[r q1] tr1]| |] eqn:Hcall; try done.
    destruct (run_ops fuel ops q1) as [[[rs1 q2] tr2]| |] eqn:Hrest; try done.
    injection Hrun as <- <- <-.
    pose proof (quiescent_call q o fuel Hq) as Hq1. rewrite Hcall in Hq1.
    destruct Hq1 as (Hq1 & _).
    destruct (replay_call q o fuel r q1 tr1 live Hq Hcall Hnd Hlive)
      as (live1 & Hr1 & Hnd1 & Hlive1).
    destruct (IH q1 fuel rs1 q2 tr2 live1 Hq1 Hrest Hnd1 Hlive1)
      as (Hq2 & live2 & Hr2 & Hnd2 & Hlive2).
    split; [done|]. exists live2. split; [|done].
    rewrite test_type_replay_app, Hr1. simpl. done.
Qed.

Lemma replay_destroy ixs : forall live,
  NoDup ixs -> (forall i, i ∈ ixs -> i ∈ live) ->
  exists live', test_type_replay live (map EvDestroy ixs) = Some live' /\
    forall j, j ∈ live' <-> j ∈ live /\ j ∉ ixs.
Proof.
  induction ixs as [|k ixs IH]; intros live Hnd Hsub; simpl.
  - exists live. split; [done|]. intros j. split; [|by intros [? _]].
    intros Hj. split; [done|]. apply not_elem_of_nil.
  - apply NoDup_cons in Hnd as [Hk Hnd].
    destruct (decide (k ∈ live)) as [_|Hnin]; [|exfalso; apply Hnin, Hsub; by left].
    destruct (IH (filter (fun j => j <> k) live) Hnd) as (live' & Hr & Hlive').
    { intros i Hi. apply list_elem_of_filter. split; [by intros ->|]. apply Hsub. by right. }
    exists live'. split; [done|]. intros j.
    rewrite Hlive', list_elem_of_filter, not_elem_of_cons. tauto.
Qed.

(** X13. The assertions of [test_type].  Along the calls a thread makes
    one after the other on a freshly constructed queue, no element is
    constructed where one lives and none is destroyed where none lives; the
    objects alive are those of the slots that hold an element, as many as
    [size()] tells (fewer than 2^63 calls); and after the destructor of the
    queue none is left alive. *)
Theorem test_type_asserts (C addr : Z) (ops : list (op T)) fuel rs q tr h :
  1 <= C < size_modulus -> run_ops fuel ops (fresh C addr) = Done (rs, q, tr) ->
  (exists live, test_type_replay [] tr = Some live /\ NoDup live /\
     (forall i, i ∈ live <-> exists s, slots_ q !! i = Some s /\ is_Some (storage s)) /\
     (Z.of_nat (length ops) < 2 ^ 63 - 1 -> Z.of_nat (length live) = size q)) /\
  (exists h' evs, queue_dtor q h = Some (h', evs) /\
     test_type_replay [] (tr ++ evs) = Some []).
Proof.
  intros HC Hrun.
  destruct (replay_run_ops ops (fresh C addr) fuel rs q tr []
              (quiescent_fresh C addr ltac:(lia)) Hrun (NoDup_nil_2))
    as (Hq & live & Hreplay & Hnd & Hlive).
  { intros i. split; [by intros ?%elem_of_nil|].
    intros (s & Hs & Ho). simpl in Hs. rewrite construct_slots_replicate in Hs.
    by apply lookup_replicate in Hs as [-> _]. }
  pose proof Hq as [HCq Hlen Hpar _].
  assert (Hodd : forall i, i ∈ odd_slots (slots_ q) (seq 0 (Z.to_nat (capacity_ q)))
                           <-> i ∈ live).
  { intros i. rewrite Hlive, list_elem_of_In. unfold odd_slots.
    rewrite filter_In, in_seq. split.
    - intros [Hi Ho]. destruct (slots_ q !! i) as [s|] eqn:Hs; [|done].
      exists s. split; [done|]. by rewrite <- (Hpar i s Hs).
    - intros (s & Hs & Ho). rewrite Hs, (Hpar i s Hs). split; [|done].
      pose proof (lookup_lt_Some _ _ _ Hs). lia. }
  assert (Hndo : NoDup (odd_slots (slots_ q) (seq 0 (Z.to_nat (capacity_ q)))))
    by (unfold odd_slots; apply NoDup_ListNoDup, List.NoDup_filter, seq_NoDup).
  split.
  - exists live. split; [done|]. split; [done|]. split.
    + intros i. rewrite Hlive. unfold occupied.
      split; intros (s & Hs & Ho); exists s; (split; [done|]).
      * destruct (storage s); [by eauto|done].
      * by destruct Ho as [x ->].
    + intros Hops.
      destruct (run_ops_ring C addr ops fuel rs q tr HC Hops Hrun) as (Hring & _).
      rewrite (ring_size _ _ Hring), <- (ring_live _ _ Hring).
      f_equal. unfold live_count. rewrite <- (odd_slots_count (slots_ q)), Hlen.
      apply Permutation_length, NoDup_Permutation; [done|done|]. intros i. by rewrite Hodd.
  - exists (release (slots_ptr q) (wrap (capacity_ q + 1)) h),
           (map EvDestroy (odd_slots (slots_ q) (seq 0 (Z.to_nat (capacity_ q))))
            ++ [EvDeallocate (slots_ptr q) (wrap (capacity_ q + 1))]).
    split.
    + unfold queue_dtor. rewrite (destroy_slots_defined (slots_ q)); [done|].
      intros i Hi. apply in_seq in Hi.
      destruct (lookup_lt_is_Some_2 (slots_ q) i) as [s Hs]; [lia|].
      exists s. split; [done|]. by eapply Hpar.
    + rewrite test_type_replay_app, Hreplay. simpl. rewrite test_type_replay_app.
      destruct (replay_destroy _ live Hndo) as (live' & -> & Hlive');
        [intros i Hi; by apply Hodd|].
      simpl. f_equal. destruct live' as [|j live']; [done|].
      destruct (proj1 (Hlive' j) ltac:(by left)) as [Hj Hnj]. exfalso. by apply Hnj, Hodd.
Qed.

(** ** The addresses of the slots *)

(** X14. The slots of a constructed queue share no cache line.  The
    constructor has checked that the block is aligned to
    [hardware_interference_size], and the size of a slot is a multiple of
    it (the [static_assert] of the constructor): so every slot starts on a
    cache line of its own, and no byte of a slot is on a cache line of
    another slot. *)
Theorem slots_on_their_own_lines (alloc : Allocator) (C : Z) (h h' : heap) q tr
    (sizeof_slot : Z) :
  queue_ctor alloc C h = Some (inr q, h', tr) ->
  0 < sizeof_slot -> sizeof_slot mod hardware_interference_size = 0 ->
  (forall i, slot_address q sizeof_slot i mod hardware_interference_size = 0) /\
  (forall i a, 0 <= a < sizeof_slot ->
     cache_line (slot_address q sizeof_slot i)
     <= cache_line (slot_address q sizeof_slot i + a)
     < cache_line (slot_address q sizeof_slot (i + 1))) /\
  (forall i j a b, i < j -> 0 <= a < sizeof_slot -> 0 <= b < sizeof_slot ->
     cache_line (slot_address q sizeof_slot i + a)
     < cache_line (slot_address q sizeof_slot j + b)).
Proof.
  intros Hctor Hsz Hmod.
  destruct (queue_ctor_inr _ _ _ _ _ _ Hctor) as (C' & HC & addr & -> & _ & _ & Hal).
  assert (H64 : hardware_interference_size = 64) by done.
  unfold slot_address, cache_line. simpl slots_ptr. rewrite H64 in *.
  pose proof (Z.div_mod addr 64 ltac:(lia)) as Ha. rewrite Hal in Ha.
  pose proof (Z.div_mod sizeof_slot 64 ltac:(lia)) as Hs. rewrite Hmod in Hs.
  set (a0 := addr / 64) in *. set (m := sizeof_slot / 64) in *.
  assert (Hline : forall i a, 0 <= a < sizeof_slot ->
            (addr + i * sizeof_slot + a) / 64 = a0 + i * m + a / 64 /\ 0 <= a / 64 < m).
  { intros i a Hb.
    replace (addr + i * sizeof_slot + a) with ((a0 + i * m) * 64 + a) by lia.
    rewrite Z.div_add_l by lia. split; [done|]. split; [apply Z.div_pos; lia|].
    apply Z.div_lt_upper_bound; lia. }
  assert (Hstart : forall i, (addr + i * sizeof_slot) / 64 = a0 + i * m).
  { intros i. destruct (Hline i 0 ltac:(lia)) as [Hl _].
    rewrite Z.add_0_r in Hl. rewrite Hl. change (0 / 64) with 0. lia. }
  split; [|split].
  - intros i. replace (addr + i * sizeof_slot) with (0 + (a0 + i * m) * 64) by lia.
    by rewrite Z.mod_add.
  - intros i a Hb. destruct (Hline i a Hb) as [-> Hq]. rewrite !Hstart. nia.
  - intros i j a b Hij Hb Hb'.
    destruct (Hline i a Hb) as [-> Hq]. destruct (Hline j b Hb') as [-> Hq']. nia.
Qed.

(** ** [size()] while other threads run *)

Lemma step_counters p q p' q' ev :
  step p q = Some (p', q', ev) ->
  (head_ q' = head_ q \/ head_ q' = wrap (head_ q + 1)) /\
  (tail_ q' = tail_ q \/ tail_ q' = wrap (tail_ q + 1)).
Proof.
  intros Hstep. destruct p; simpl in Hstep;
    repeat match type of Hstep with
      | context [slot_at ?q ?t] => destruct (slot_at q t) as [[? [?|]]|]; simpl in Hstep
      | context [Z.eqb ?a ?b] => destruct (Z.eqb_spec a b); simpl in Hstep
      end; try discriminate Hstep; injection Hstep as <- <- <-; subst; simpl; by auto.
Qed.

Lemma counters_grow (C addr : Z) acts :
  forall k (st st' : queue T * list (op T * pc T)),
  1 <= C -> sys_reachable C addr k st ->
  Z.of_nat k + Z.of_nat (length acts) < 2 ^ 63 ->
  sys_run st acts = Some st' ->
  head_ st.1 <= head_ st'.1 /\ tail_ st.1 <= tail_ st'.1.
Proof.
  induction acts as [|a acts IH]; intros k st st' HC Hreach Hk Hrun; simpl in *.
  - injection Hrun as <-. lia.
  - destruct (sys_do st a) as [st1|] eqn:Hdo; simpl in Hrun; [|done].
    assert (Hreach1 : sys_reachable C addr (S k) st1).
    { apply (reachable_step C addr k st st1 Hreach). by apply (sys_do_step st st1 a). }
    specialize (IH (S k) st1 st' HC Hreach1 ltac:(lia) Hrun).
    pose proof (sys_reachable_inv C addr k st HC Hreach ltac:(lia)) as Hinv.
    pose proof (par_head _ _ _ Hinv) as Hhd. pose proof (par_tail _ _ _ Hinv) as Htl.
    word_bounds.
    enough (head_ st.1 <= head_ st1.1 /\ tail_ st.1 <= tail_ st1.1) by lia.
    destruct st as [q ths]. destruct a as [o|i]; simpl in *.
    + injection Hdo as <-. simpl. lia.
    + destruct (ths !! i) as [[o p]|] eqn:Hi; simpl in *; [|done].
      destruct (step p q) as [[[p' q'] ev]|] eqn:Hstep; simpl in *; [|done].
      injection Hdo as <-. simpl.
      destruct (step_counters p q p' q' ev Hstep) as [[-> | ->] [-> | ->]];
        rewrite ?wrap_small by lia; lia.
Qed.

(** X17. [size()] called while other threads run.  Its two loads see the
    queue in two states, the second reached from the first by steps of the
    other threads (fewer than 2^63 steps in all).  The value returned is
    the plain difference of the two counters loaded.  Both counters only
    grow, so with [head_] loaded first the value is the difference
    [head_ - tail_] of the first state less the tail tickets taken in
    between, at most the difference in either state; with [tail_] loaded
    first it is that difference plus the head tickets taken in between, at
    least the difference in either state; and when no ticket is taken in
    between it is the difference in that state, whichever load is first. *)
Theorem size_between_loads (C addr : Z) (acts1 acts2 : list (action (T:=T)))
    q1 ths1 q2 ths2 :
  1 <= C -> Z.of_nat (length acts1) + Z.of_nat (length acts2) < 2 ^ 63 ->
  sys_run (fresh C addr, []) acts1 = Some (q1, ths1) ->
  sys_run (q1, ths1) acts2 = Some (q2, ths2) ->
  head_ q1 <= head_ q2 /\ tail_ q1 <= tail_ q2 /\
  size_loads true q1 q2 = head_ q1 - tail_ q2 /\
  size_loads false q1 q2 = head_ q2 - tail_ q1 /\
  size_loads true q1 q2 = size q1 - (tail_ q2 - tail_ q1) /\
  size_loads false q1 q2 = size q1 + (head_ q2 - head_ q1) /\
  size_loads true q1 q2 <= size q1 <= size_loads false q1 q2 /\
  size_loads true q1 q2 <= size q2 <= size_loads false q1 q2 /\
  (head_ q2 = head_ q1 -> tail_ q2 = tail_ q1 ->
     forall head_first, size_loads head_first q1 q2 = size q1).
Proof.
  intros HC Hlen Hrun1 Hrun2.
  pose proof (sys_run_reachable C addr acts1 0 _ _ (reachable_fresh C addr) Hrun1) as Hr1.
  pose proof (sys_run_reachable C addr acts2 _ _ _ Hr1 Hrun2) as Hr2.
  simpl in Hr1, Hr2.
  pose proof (sys_reachable_inv C addr _ _ HC Hr1 ltac:(lia)) as Hinv1.
  pose proof (sys_reachable_inv C addr _ _ HC Hr2 ltac:(lia)) as Hinv2.
  simpl in Hinv1, Hinv2.
  pose proof (par_head _ _ _ Hinv1) as Hh1. pose proof (par_tail _ _ _ Hinv1) as Ht1.
  pose proof (par_head _ _ _ Hinv2) as Hh2. pose proof (par_tail _ _ _ Hinv2) as Ht2.
  destruct (counters_grow C addr acts2 _ _ _ HC Hr1 ltac:(lia) Hrun2) as [Hgh Hgt].
  simpl in Hgh, Hgt.
  assert (Hhf : size_loads true q1 q2 = head_ q1 - tail_ q2).
  { change (size_loads true q1 q2) with (size (with_tail q1 (tail_ q2))).
    rewrite size_difference; simpl; [done|lia|lia]. }
  assert (Htf : size_loads false q1 q2 = head_ q2 - tail_ q1).
  { change (size_loads false q1 q2) with (size (with_head q1 (head_ q2))).
    rewrite size_difference; simpl; [done|lia|lia]. }
  rewrite Hhf, Htf, (size_difference q1), (size_difference q2) by lia.
  repeat (split; [lia|]).
  intros Hh Ht [|]; [rewrite Hhf|rewrite Htf]; lia.
Qed.

End Coverage.

(** ** The fuzz test *)

Lemma fuzz_loop_spec fuel (j N m : Z) :
  1 <= m -> 0 <= j -> N + m <= size_modulus -> N - j <= Z.of_nat fuel ->
  NoDup (fuzz_loop fuel j N m) /\
  forall x, x ∈ fuzz_loop fuel j N m <-> j <= x < N /\ (x - j) mod m = 0.
Proof.
  intros Hm. revert j. induction fuel as [|fuel IH]; intros j Hj HN Hfuel; simpl.
  - split; [constructor|]. intros x. rewrite elem_of_nil. lia.
  - destruct (Z.ltb_spec j N) as [Hlt|Hge].
    + rewrite wrap_small by lia.
      destruct (IH (j + m) ltac:(lia) HN ltac:(lia)) as [IHnd IHin].
      split.
      * apply NoDup_cons. split; [|done]. rewrite IHin. lia.
      * intros x. rewrite elem_of_cons, IHin.
        replace (x - (j + m)) with (x - j + (-1) * m) by lia.
        rewrite Z.mod_add by lia.
        split.
        -- intros [->|[Hx Hmod]]; [|split; [lia|done]].
           split; [lia|]. by rewrite Z.sub_diag.
        -- intros [Hx Hmod]. destruct (decide (x = j)) as [|Hne]; [by left|right].
           split; [|done]. apply Z.mod_divide in Hmod as [c Hc]; [|lia].
           assert (1 <= c) by nia. nia.
    + split; [constructor|]. intros x. rewrite elem_of_nil. lia.
Qed.

(** The loop ends before its fuel does. *)
Lemma fuzz_loop_fuel fuel fuel' (j N m : Z) :
  1 <= m -> 0 <= j -> N + m <= size_modulus ->
  N - j <= Z.of_nat fuel -> N - j <= Z.of_nat fuel' ->
  fuzz_loop fuel j N m = fuzz_loop fuel' j N m.
Proof.
  intros Hm. revert fuel' j.
  induction fuel as [|fuel IH]; intros [|fuel'] j Hj HN Hf Hf'; simpl; try done;
    destruct (Z.ltb_spec j N) as [Hlt|Hge]; try done; try lia.
  rewrite wrap_small by lia. f_equal. apply IH; lia.
Qed.

Lemma fuzz_thread_spec (N m i x : Z) :
  1 <= m -> 0 <= i < m -> N + m <= size_modulus ->
  x ∈ fuzz_thread N m i <-> 0 <= x < N /\ x mod m = i.
Proof.
  intros Hm Hi HN. unfold fuzz_thread.
  destruct (fuzz_loop_spec (Z.to_nat N) i N m Hm ltac:(lia) HN ltac:(lia)) as [_ Hin].
  rewrite Hin. split.
  - intros [Hx Hmod]. split; [lia|].
    apply Z.mod_divide in Hmod as [c Hc]; [|lia].
    replace x with (i + c * m) by lia. rewrite Z.mod_add by lia. apply Z.mod_small. lia.
  - intros [Hx <-]. pose proof (Z.mod_pos_bound x m ltac:(lia)).
    pose proof (Z.mod_le x m ltac:(lia) ltac:(lia)). split; [lia|].
    rewrite Zminus_mod_idemp_r, Z.sub_diag. by apply Z.mod_0_l; lia.
Qed.

Lemma elem_of_concat_map {A B} (f : A -> list B) (xs : list A) (y : B) :
  y ∈ concat (map f xs) <-> exists x, x ∈ xs /\ y ∈ f x.
Proof.
  induction xs as [|x xs IH]; simpl.
  - rewrite elem_of_nil. split; [done|]. intros (x & Hx & _). by apply elem_of_nil in Hx.
  - rewrite elem_of_app, IH. split.
    + intros [Hy|(x' & Hx' & Hy)]; [exists x|exists x']; rewrite elem_of_cons; by eauto.
    + intros (x' & Hx' & Hy). apply elem_of_cons in Hx' as [->|Hx']; by eauto.
Qed.

Lemma NoDup_concat_map {A B} (f : A -> list B) (xs : list A) :
  NoDup xs -> (forall x, x ∈ xs -> NoDup (f x)) ->
  (forall x x' y, x ∈ xs -> x' ∈ xs -> y ∈ f x -> y ∈ f x' -> x = x') ->
  NoDup (concat (map f xs)).
Proof.
  induction 1 as [|x xs Hx Hnd IH]; intros Hf Hdisj; simpl; [constructor|].
  apply NoDup_app. split; [apply Hf; by left|]. split.
  - intros y Hy Hy'. apply elem_of_concat_map in Hy' as (x' & Hx' & Hy').
    apply Hx. rewrite (Hdisj x x' y); [done|by left|by right|done|done].
  - apply IH; [intros; apply Hf; by right|].
    intros x1 x2 y H1 H2. apply Hdisj; by right.
Qed.

(** Together the threads run through the values [0 .. num_ops - 1], each
    once. *)
Lemma fuzz_values_perm (N m : Z) :
  1 <= m -> 0 <= N -> N + m <= size_modulus -> fuzz_values N m ≡ₚ seqZ 0 N.
Proof.
  intros Hm HN Hb. apply NoDup_Permutation.
  - apply NoDup_concat_map; [apply NoDup_seqZ|..].
    + intros i Hi. apply elem_of_seqZ in Hi. unfold fuzz_thread.
      by destruct (fuzz_loop_spec (Z.to_nat N) i N m Hm ltac:(lia) Hb ltac:(lia)).
    + intros i i' x Hi Hi' Hx Hx'. apply elem_of_seqZ in Hi, Hi'.
      apply fuzz_thread_spec in Hx, Hx'; lia.
  - apply NoDup_seqZ.
  - intros x. unfold fuzz_values. rewrite elem_of_concat_map, elem_of_seqZ. split.
    + intros (i & Hi & Hx). apply elem_of_seqZ in Hi.
      apply fuzz_thread_spec in Hx; lia.
    + intros Hx. exists (x mod m). pose proof (Z.mod_pos_bound x m ltac:(lia)).
      split; [apply elem_of_seqZ; lia|]. apply fuzz_thread_spec; [lia..|]. lia.
Qed.

Lemma total_app (l l' : list Z) : total (l ++ l') = total l + total l'.
Proof. induction l as [|x l IH]; simpl; [done|]. unfold total in *. simpl. lia. Qed.

Lemma total_perm (l l' : list Z) : l ≡ₚ l' -> total l = total l'.
Proof.
  induction 1 as [|x l l' _ IH|x y l|l l' l'' _ IH1 _ IH2]; unfold total in *; simpl; lia.
Qed.

Lemma total_seqZ (n : nat) : 2 * total (seqZ 0 (Z.of_nat n)) = Z.of_nat n * (Z.of_nat n - 1).
Proof.
  induction n as [|n IH]; [done|].
  rewrite seqZ_S, total_app. unfold total at 2. simpl. lia.
Qed.

Lemma total_nonneg (l : list Z) : Forall (fun x => 0 <= x) l -> 0 <= total l.
Proof. induction 1; unfold total in *; simpl; lia. Qed.

Lemma wrap_add_l (a b : Z) : wrap (wrap a + b) = wrap (a + b).
Proof. unfold wrap. apply Zplus_mod_idemp_l. Qed.

Lemma wrap_add_r (a b : Z) : wrap (a + wrap b) = wrap (a + b).
Proof. unfold wrap. apply Zplus_mod_idemp_r. Qed.

Lemma thread_sum_total (vs : list Z) : thread_sum vs = wrap (total vs).
Proof.
  unfold thread_sum.
  assert (H : forall a, fold_left (fun a v => wrap (a + v)) vs (wrap a) = wrap (a + total vs)).
  { induction vs as [|v vs IH]; intros a; simpl.
    - unfold total. simpl. by rewrite Z.add_0_r.
    - unfold total in *. simpl. rewrite wrap_add_l, IH. f_equal. lia. }
  apply (H 0).
Qed.

Lemma fuzz_sum_total (vss : list (list Z)) : fuzz_sum vss = wrap (total (concat vss)).
Proof.
  unfold fuzz_sum.
  assert (H : forall a, fold_left (fun a vs => wrap (a + thread_sum vs)) vss (wrap a)
                        = wrap (a + total (concat vss))).
  { induction vss as [|vs vss IH]; intros a; simpl.
    - unfold total. simpl. by rewrite Z.add_0_r.
    - rewrite thread_sum_total, total_app, wrap_add_l, wrap_add_r, IH. f_equal. lia. }
  apply (H 0).
Qed.

(** X15. The assertion of the fuzz test.  [num_threads] producers push the
    values [0 .. num_ops - 1] between them and as many consumers pop as
    many values, adding them up; however the steps of the calls interleave,
    and whatever the capacity of the queue, when every call has returned
    the queue is empty, the values popped are the values pushed and their
    sum is [num_ops * (num_ops - 1) / 2]. *)
Theorem fuzz_test_sum (C addr num_ops num_threads : Z) k q ops rs vss :
  1 <= C -> Z.of_nat k < 2 ^ 63 ->
  1 <= num_threads -> 0 <= num_ops -> num_ops + num_threads <= size_modulus ->
  num_ops * (num_ops - 1) < size_modulus ->
  length ops = length rs -> Forall (fun o => blocking o = true) ops ->
  Permutation (pushed ops) (fuzz_values num_ops num_threads) ->
  length (List.filter is_pop ops) = length (fuzz_values num_ops num_threads) ->
  sys_reachable C addr k (q, zip ops (map Return rs)) ->
  Permutation (concat vss) (dequeued rs) ->
  Permutation (dequeued rs) (seqZ 0 num_ops) /\
  stored q = [] /\
  fuzz_sum vss = fuzz_expected num_ops /\
  fuzz_expected num_ops = num_ops * (num_ops - 1) / 2.
Proof.
  intros HC Hk Hm HN Hb Hsq Hlen Hblock Hpush Hpops Hreach Hvss.
  destruct (blocking_run_conserved C addr k q ops rs HC Hk Hlen Hblock Hreach)
    as [Hcons Hcount].
  pose proof (Permutation_length Hcons) as Hl.
  rewrite length_app, Hcount, Hpops, (Permutation_length Hpush) in Hl.
  assert (Hst : stored q = []) by (destruct (stored q); [done|simpl in Hl; lia]).
  assert (Hdeq : dequeued rs ≡ₚ pushed ops) by (by rewrite Hcons, Hst, app_nil_r).
  pose proof (fuzz_values_perm num_ops num_threads Hm HN Hb) as Hvals.
  assert (Hperm : dequeued rs ≡ₚ seqZ 0 num_ops) by (by rewrite Hdeq, Hpush).
  assert (Hexp : fuzz_expected num_ops = num_ops * (num_ops - 1) / 2).
  { unfold fuzz_expected. destruct (decide (num_ops = 0)) as [->|Hne]; [done|].
    rewrite (wrap_small (num_ops - 1)) by lia. rewrite wrap_small by nia. done. }
  split; [done|]. split; [done|]. split; [|done].
  rewrite fuzz_sum_total, (total_perm _ _ Hvss), (total_perm _ _ Hperm), Hexp.
  pose proof (total_seqZ (Z.to_nat num_ops)) as Htot. rewrite Z2Nat.id in Htot by lia.
  rewrite <- Htot, Z.mul_comm, Z.div_mul by lia.
  apply wrap_small. nia.
Qed.

(** ** Delivery in the order of the tickets *)

Section Delivery.

Context {T : Type}.
Implicit Types (q : queue T) (s : slot T) (p : pc T) (o : op T) (v x out : T).
Implicit Types (th : op T * pc T) (ths : list (op T * pc T)).
Implicit Types (made taken : list (Z * T)).

Ltac word_bounds := pose proof size_modulus_eq; pose proof pow63_eq.

Ltac step_cases Hstep :=
  repeat match type of Hstep with
    | context [slot_at ?q ?t] => destruct (slot_at q t) as [[? [?|]]|]; simpl in Hstep
    | context [Z.eqb ?a ?b] => destruct (Z.eqb_spec a b); simpl in Hstep
    end; try discriminate Hstep; injection Hstep as <- <- <-.

Lemma unbuilt_holds p t :
  unbuilt p = Some t -> exists r, role_of p = Some (t, r) /\ holds_head r = true.
Proof. destruct p; simpl; intros [= <-]; by eauto. Qed.

Lemma untaken_holds p t :
  untaken p = Some t -> exists r, role_of p = Some (t, r) /\ holds_tail r = true.
Proof. destruct p; simpl; intros [= <-]; by eauto. Qed.

Lemma step_unbuilt p q p' q' ev :
  step p q = Some (p', q', ev) -> 0 <= head_ q -> head_ q + 1 < size_modulus ->
  head_ q <= head_ q' /\
  forall t, unbuilt p' = Some t -> unbuilt p = Some t \/ t = head_ q.
Proof.
  intros Hstep Hh0 Hh1.
  destruct p; simpl in Hstep; step_cases Hstep; subst;
    try change (head_ (with_head ?q ?h)) with h; rewrite ?wrap_small by lia;
    (split; [simpl; lia|]); simpl; intros t0 [= <-]; by eauto.
Qed.

Lemma step_untaken p q p' q' ev :
  step p q = Some (p', q', ev) -> 0 <= tail_ q -> tail_ q + 1 < size_modulus ->
  tail_ q <= tail_ q' /\
  forall t, untaken p' = Some t -> untaken p = Some t \/ t = tail_ q.
Proof.
  intros Hstep Hh0 Hh1.
  destruct p; simpl in Hstep; step_cases Hstep; subst;
    try change (tail_ (with_tail ?q ?h)) with h; rewrite ?wrap_small by lia;
    (split; [simpl; lia|]); simpl; intros t0 [= <-]; by eauto.
Qed.

(** The tickets of the elements constructed, after a step. *)
Lemma made_step n q ths i o p p' q' ev made :
  par_inv n q ths -> n + 1 < 2 ^ 63 ->
  ths !! i = Some (o, p) -> step p q = Some (p', q', ev) ->
  (forall t v, (t, v) ∈ made ->
     0 <= t < head_ q /\ forall j th, ths !! j = Some th -> unbuilt th.2 <> Some t) ->
  NoDup (map fst made) ->
  (forall t v, (t, v) ∈ made ++ constructs p ->
     0 <= t < head_ q' /\
     forall j th, <[i:=(o, p')]> ths !! j = Some th -> unbuilt th.2 <> Some t) /\
  NoDup (map fst (made ++ constructs p)).
Proof.
  intros Hinv Hn Hi Hstep Hmade Hnd. word_bounds.
  pose proof (par_head _ _ _ Hinv) as Hhd.
  destruct (step_unbuilt p q p' q' ev Hstep ltac:(lia) ltac:(lia)) as [Hle Hnew].
  assert (Hold : forall t v, (t, v) ∈ made ->
            0 <= t < head_ q' /\
            forall j th, <[i:=(o, p')]> ths !! j = Some th -> unbuilt th.2 <> Some t).
  { intros t v Htv. destruct (Hmade t v Htv) as [Ht Hths]. split; [lia|].
    intros j th [(<- & <- & _)|(Hne & Hj)]%list_lookup_insert_Some; [|by eauto].
    simpl. intros Hu. destruct (Hnew t Hu) as [Hp| ->]; [|lia].
    by apply (Hths i (o, p) Hi). }
  destruct (constructs p) as [|[h v] [|? ?]] eqn:Hc;
    [rewrite app_nil_r; by split| |by destruct p].
  assert (Hp : unbuilt p = Some h /\ unbuilt p' = None).
  { destruct p; simpl in Hc; try discriminate; injection Hc as -> ->;
      simpl in Hstep; step_cases Hstep; done. }
  destruct Hp as [Hu Hu'].
  destruct (unbuilt_holds p h Hu) as (r & Hr & Hh).
  destruct (par_role _ _ _ _ _ _ _ Hinv Hi Hr) as ([Ht0 Htk] & _).
  rewrite (holds_head_producer r Hh), Hh in Htk.
  split.
  - intros t v0 [Htv|Htv]%elem_of_app; [by eauto|].
    apply list_elem_of_singleton in Htv as [= -> ->]. split; [lia|].
    intros j th [(<- & <- & _)|(Hne & Hj)]%list_lookup_insert_Some; simpl; [by rewrite Hu'|].
    intros Huj. destruct (unbuilt_holds _ _ Huj) as (rj & Hrj & Hhj). apply Hne.
    by apply (par_head_unique _ _ _ Hinv i j (o, p) th h r rj).
  - rewrite map_app. simpl. apply NoDup_app. split; [done|]. split; [|apply NoDup_singleton].
    intros t Ht Ht'. apply list_elem_of_singleton in Ht' as ->.
    apply list_elem_of_fmap in Ht as ([t' v'] & Heq & Hin). simpl in Heq. subst t'.
    destruct (Hmade h v' Hin) as [_ Hths]. by apply (Hths i (o, p) Hi).
Qed.

(** The tickets of the elements moved out, after a step. *)
Lemma taken_step n q ths i o p p' q' ev taken :
  par_inv n q ths -> n + 1 < 2 ^ 63 ->
  ths !! i = Some (o, p) -> step p q = Some (p', q', ev) ->
  (forall t x, (t, x) ∈ taken ->
     0 <= t < tail_ q /\ forall j th, ths !! j = Some th -> untaken th.2 <> Some t) ->
  NoDup (map fst taken) ->
  (forall t x, (t, x) ∈ taken ++ moves q p ->
     0 <= t < tail_ q' /\
     forall j th, <[i:=(o, p')]> ths !! j = Some th -> untaken th.2 <> Some t) /\
  NoDup (map fst (taken ++ moves q p)).
Proof.
  intros Hinv Hn Hi Hstep Htaken Hnd. word_bounds.
  pose proof (par_tail _ _ _ Hinv) as Htl.
  destruct (step_untaken p q p' q' ev Hstep ltac:(lia) ltac:(lia)) as [Hle Hnew].
  assert (Hold : forall t x, (t, x) ∈ taken ->
            0 <= t < tail_ q' /\
            forall j th, <[i:=(o, p')]> ths !! j = Some th -> untaken th.2 <> Some t).
  { intros t x Htx. destruct (Htaken t x Htx) as [Ht Hths]. split; [lia|].
    intros j th [(<- & <- & _)|(Hne & Hj)]%list_lookup_insert_Some; [|by eauto].
    simpl. intros Hu. destruct (Hnew t Hu) as [Hp| ->]; [|lia].
    by apply (Hths i (o, p) Hi). }
  destruct (moves q p) as [|[h x] [|? ?]] eqn:Hc;
    [rewrite app_nil_r; by split| |by destruct p; simpl in Hc; try destruct (_ ≫= _)].
  assert (Hp : untaken p = Some h /\ untaken p' = None).
  { destruct p; simpl in Hc; try discriminate;
      simpl in Hstep; step_cases Hstep; simpl in Hc; by injection Hc as -> ->. }
  destruct Hp as [Hu Hu'].
  destruct (untaken_holds p h Hu) as (r & Hr & Hh).
  destruct (par_role _ _ _ _ _ _ _ Hinv Hi Hr) as ([Ht0 Htk] & _).
  rewrite (holds_tail_consumer r Hh), Hh in Htk.
  split.
  - intros t x0 [Htx|Htx]%elem_of_app; [by eauto|].
    apply list_elem_of_singleton in Htx as [= -> ->]. split; [lia|].
    intros j th [(<- & <- & _)|(Hne & Hj)]%list_lookup_insert_Some; simpl; [by rewrite Hu'|].
    intros Huj. destruct (untaken_holds _ _ Huj) as (rj & Hrj & Hhj). apply Hne.
    by apply (par_tail_unique _ _ _ Hinv i j (o, p) th h r rj).
  - rewrite map_app. simpl. apply NoDup_app. split; [done|]. split; [|apply NoDup_singleton].
    intros t Ht Ht'. apply list_elem_of_singleton in Ht' as ->.
    apply list_elem_of_fmap in Ht as ([t' x'] & Heq & Hin). simpl in Heq. subst t'.
    destruct (Htaken h x' Hin) as [_ Hths]. by apply (Hths i (o, p) Hi).
Qed.

Lemma step_unclaimed p q p' q' ev :
  step p q = Some (p', q', ev) ->
  claimed_slot p = None \/ (exists t out, p = pop_move t out \/ p = try_pop_move t out) ->
  slots_ q' = slots_ q /\ capacity_ q' = capacity_ q.
Proof.
  intros Hstep Hc.
  destruct p; simpl in Hstep; step_cases Hstep; try done;
    destruct Hc as [Hc|(t0 & out0 & [Hc|Hc])]; discriminate.
Qed.

(** The elements stored and the elements constructed, after a slot is
    written. *)
Lemma slots_with_slot q made made' t0 s0 s' :
  (forall k s x, slots_ q !! k = Some s -> storage s = Some x ->
     exists t, 0 <= t /\ slot_index q t = k /\
       2 * turn_ q t <= turn s <= 2 * turn_ q t + 1 /\ (t, x) ∈ made) ->
  (forall e, e ∈ made -> e ∈ made') ->
  slot_at q t0 = Some s0 ->
  (forall x, storage s' = Some x ->
     exists t, 0 <= t /\ slot_index q t = slot_index q t0 /\
       2 * turn_ q t <= turn s' <= 2 * turn_ q t + 1 /\ (t, x) ∈ made') ->
  (forall k s x, slots_ (with_slot q t0 s') !! k = Some s -> storage s = Some x ->
     exists t, 0 <= t /\ slot_index (with_slot q t0 s') t = k /\
       2 * turn_ (with_slot q t0 s') t <= turn s <= 2 * turn_ (with_slot q t0 s') t + 1 /\ (t, x) ∈ made').
Proof.
  intros HJ Hsub Hs0 Hnew k s x Hs Hx.
  unfold with_slot in Hs. simpl in Hs.
  apply list_lookup_insert_Some in Hs as [(<- & <- & _)|(Hne & Hs)].
  - destruct (Hnew x Hx) as (t & Ht). by exists t.
  - destruct (HJ k s x Hs Hx) as (t & Ht0 & Hk & Hturn & Hin). exists t.
    split; [done|]. split; [done|]. split; [done|]. by apply Hsub.
Qed.

Lemma slots_step n q ths i o p p' q' ev made :
  par_inv n q ths -> n + 1 < 2 ^ 63 ->
  ths !! i = Some (o, p) -> step p q = Some (p', q', ev) ->
  (forall k s x, slots_ q !! k = Some s -> storage s = Some x ->
     exists t, 0 <= t /\ slot_index q t = k /\
       2 * turn_ q t <= turn s <= 2 * turn_ q t + 1 /\ (t, x) ∈ made) ->
  (forall k s x, slots_ q' !! k = Some s -> storage s = Some x ->
     exists t, 0 <= t /\ slot_index q' t = k /\
       2 * turn_ q' t <= turn s <= 2 * turn_ q' t + 1 /\ (t, x) ∈ (made ++ constructs p)).
Proof.
  intros Hinv Hn Hi Hstep HJ. word_bounds.
  pose proof (par_capacity _ _ _ Hinv) as HC.
  pose proof (par_head _ _ _ Hinv) as Hhd. pose proof (par_tail _ _ _ Hinv) as Htl.
  assert (Hsub : forall e, e ∈ made -> e ∈ made ++ constructs p)
    by (intros e He; apply elem_of_app; by left).
  assert (Hquiet : slots_ q' = slots_ q /\ capacity_ q' = capacity_ q ->
            (forall k s x, slots_ q' !! k = Some s -> storage s = Some x ->
     exists t, 0 <= t /\ slot_index q' t = k /\
       2 * turn_ q' t <= turn s <= 2 * turn_ q' t + 1 /\ (t, x) ∈ (made ++ constructs p))).
  { intros [Hsl Hcap] k s x Hs Hx. rewrite Hsl in Hs.
    destruct (HJ k s x Hs Hx) as (t & Ht0 & Hk & Hturn & Hin). exists t.
    unfold slot_index, idx_, turn_ in *. rewrite Hcap. by eauto. }
  destruct (claimed_slot p) as [t0|] eqn:Hcl;
    [|apply Hquiet, (step_unclaimed p q p' q' ev Hstep); by left].
  destruct (claimed_slot_owns p t0 Hcl) as (r & Hr & Ho).
  destruct (par_role _ _ _ _ _ _ _ Hinv Hi Hr) as ([Ht0 Htk] & s0 & Hs0 & Hok).
  destruct p; simpl in Hcl; try discriminate; injection Hcl as ->;
    simpl in Hr; injection Hr as <-; simpl in Hok, Htk; destruct Hok as [Hturn Hst];
    destruct (wrap_expected q t0 HC Ht0 ltac:(lia)) as (He0 & He1 & He2);
    simpl in Hstep; rewrite Hs0 in Hstep; simpl in Hstep.
  - (* emplace_construct *)
    injection Hstep as <- <- <-.
    apply (slots_with_slot q made _ t0 s0); try done.
    simpl. intros x [= <-]. exists t0. split; [done|]. split; [done|]. split; [lia|].
    apply elem_of_app. right. by left.
  - (* emplace_store *)
    injection Hstep as <- <- <-. rewrite He1.
    apply (slots_with_slot q made _ t0 s0); try done.
    simpl. intros x Hx.
    destruct (HJ _ s0 x Hs0 Hx) as (t & Ht & Hk & Hb & Hin). exists t.
    split; [done|]. split; [done|]. split; [lia|]. by apply Hsub.
  - (* try_emplace_construct *)
    injection Hstep as <- <- <-.
    apply (slots_with_slot q made _ t0 s0); try done.
    simpl. intros x [= <-]. exists t0. split; [done|]. split; [done|]. split; [lia|].
    apply elem_of_app. right. by left.
  - (* try_emplace_store *)
    injection Hstep as <- <- <-. rewrite He1.
    apply (slots_with_slot q made _ t0 s0); try done.
    simpl. intros x Hx.
    destruct (HJ _ s0 x Hs0 Hx) as (t & Ht & Hk & Hb & Hin). exists t.
    split; [done|]. split; [done|]. split; [lia|]. by apply Hsub.
  - (* pop_move *)
    destruct Hst as [x Hx]. unfold slot_move in Hstep. rewrite Hx in Hstep.
    injection Hstep as <- <- <-. by apply Hquiet.
  - (* pop_destroy *)
    unfold slot_destroy in Hstep. rewrite Hst in Hstep. simpl in Hstep.
    injection Hstep as <- <- <-.
    apply (slots_with_slot q made _ t0 s0); by try done.
  - (* pop_store *)
    injection Hstep as <- <- <-.
    apply (slots_with_slot q made _ t0 s0); try done.
    simpl. intros x Hx. congruence.
  - (* try_pop_move *)
    destruct Hst as [x Hx]. unfold slot_move in Hstep. rewrite Hx in Hstep.
    injection Hstep as <- <- <-. by apply Hquiet.
  - (* try_pop_destroy *)
    unfold slot_destroy in Hstep. rewrite Hst in Hstep. simpl in Hstep.
    injection Hstep as <- <- <-.
    apply (slots_with_slot q made _ t0 s0); by try done.
  - (* try_pop_store *)
    injection Hstep as <- <- <-.
    apply (slots_with_slot q made _ t0 s0); try done.
    simpl. intros x Hx. congruence.
Qed.

(** The element moved out under a ticket is the element constructed under
    it. *)
Lemma delivered_step n q ths i o p made taken :
  par_inv n q ths -> ths !! i = Some (o, p) ->
  (forall k s x, slots_ q !! k = Some s -> storage s = Some x ->
     exists t, 0 <= t /\ slot_index q t = k /\
       2 * turn_ q t <= turn s <= 2 * turn_ q t + 1 /\ (t, x) ∈ made) ->
  (forall t x, (t, x) ∈ taken -> (t, x) ∈ made) ->
  forall t x, (t, x) ∈ taken ++ moves q p -> (t, x) ∈ made ++ constructs p.
Proof.
  intros Hinv Hi HJ Hsub t x [Htx|Htx]%elem_of_app; apply elem_of_app; left; [by eauto|].
  pose proof (par_capacity _ _ _ Hinv) as HC.
  assert (Hp : exists r, role_of p = Some (t, r) /\ r = ConsTake /\
                         (slot_at q t ≫= slot_move) = Some x).
  { destruct p; simpl in Htx; try (by apply elem_of_nil in Htx);
      destruct (_ ≫= _) as [x0|] eqn:Hx; try (by apply elem_of_nil in Htx);
      apply list_elem_of_singleton in Htx as [= -> ->]; by eauto. }
  destruct Hp as (r & Hr & -> & Hx).
  destruct (par_role _ _ _ _ _ _ _ Hinv Hi Hr) as (_ & s0 & Hs0 & [Hturn _]).
  rewrite Hs0 in Hx. simpl in Hx. unfold slot_move in Hx.
  destruct (HJ _ s0 x Hs0 Hx) as (t' & Ht' & Hk & Hb & Hin).
  replace t with t'; [done|].
  apply (same_slot_gen q); [done|done|lia].
Qed.

Lemma produced_step n q ths i o p p' q' ev made :
  par_inv n q ths -> ths !! i = Some (o, p) -> step p q = Some (p', q', ev) ->
  concat (map produced ths) ≡ₚ map snd made ->
  concat (map produced (<[i:=(o, p')]> ths)) ≡ₚ map snd (made ++ constructs p).
Proof.
  intros Hinv Hi Hstep Hperm.
  pose proof (inv_threads _ _ _ Hinv i _ Hi) as Hok.
  destruct (constructs p) as [|[h v] [|? ?]] eqn:Hc; [| |by destruct p].
  - rewrite app_nil_r, (concat_map_insert_same produced ths i (o, p)); [done..|].
    destruct p; simpl in Hc; try discriminate; simpl in Hstep; step_cases Hstep; done.
  - rewrite map_app. simpl. rewrite <- Hperm, <- Permutation_cons_append.
    apply (concat_map_insert_cons produced ths i (o, p)); [done|].
    assert (Hv : pc_value p = Some v /\ produced (o, p) = [] /\
                 produced (o, p') = match value_of o with Some v => [v] | None => [] end).
    { destruct p; simpl in Hc; try discriminate; injection Hc as -> ->;
        simpl in Hstep; step_cases Hstep; done. }
    destruct Hv as (Hv & -> & ->). by rewrite (thread_value q o p v Hok Hv).
Qed.

Lemma moved_out_step q ths i o p p' q' ev taken :
  ths !! i = Some (o, p) -> step p q = Some (p', q', ev) ->
  concat (map moved_out ths) ≡ₚ map snd taken ->
  concat (map moved_out (<[i:=(o, p')]> ths)) ≡ₚ map snd (taken ++ moves q p).
Proof.
  intros Hi Hstep Hperm.
  destruct (moves q p) as [|[h x] [|? ?]] eqn:Hc;
    [| |by destruct p; simpl in Hc; try destruct (_ ≫= _)].
  - rewrite app_nil_r, (concat_map_insert_same moved_out ths i (o, p)); [done..|].
    destruct p; simpl in Hc; try discriminate; simpl in Hstep;
      repeat match type of Hstep with
        | context [slot_at ?q ?t] =>
            destruct (slot_at q t) as [[? [?|]]|]; simpl in Hstep, Hc
        | context [Z.eqb ?a ?b] => destruct (Z.eqb_spec a b); simpl in Hstep
        end; try discriminate; by injection Hstep as <- <- <-.
  - rewrite map_app. simpl. rewrite <- Hperm, <- Permutation_cons_append.
    apply (concat_map_insert_cons moved_out ths i (o, p)); [done|].
    destruct p; simpl in Hc; try discriminate; simpl in Hstep;
      destruct (slot_at q _) as [[? [?|]]|]; simpl in Hstep, Hc; try discriminate;
      injection Hc as -> ->; by injection Hstep as <- <- <-.
Qed.

Lemma hist_inv_fresh (C addr : Z) : hist_inv (fresh (T:=T) C addr) [] [] [].
Proof.
  constructor; simpl; try done; try (intros ? ? H; by apply elem_of_nil in H);
    try constructor.
  intros k s x Hs Hx. rewrite construct_slots_replicate in Hs.
  by apply lookup_replicate in Hs as [-> _].
Qed.

Lemma hist_inv_do (C addr : Z) k (st st1 : queue T * list (op T * pc T)) a made taken :
  1 <= C -> sys_reachable C addr k st -> Z.of_nat k + 1 < 2 ^ 63 ->
  hist_inv st.1 st.2 made taken -> sys_do st a = Some st1 ->
  hist_inv st1.1 st1.2 (made ++ constructed_by st a) (taken ++ moved_by st a).
Proof.
  intros HC Hreach Hk [HJ Hmade Htaken Hnd Hnd' Hsub Hprod Hmov] Hdo.
  pose proof (sys_reachable_inv C addr k st HC Hreach ltac:(lia)) as Hinv.
  destruct st as [q ths]. destruct a as [o|i]; simpl in *.
  - injection Hdo as <-. simpl. rewrite !app_nil_r.
    assert (Hnew : forall j th, (ths ++ [(o, entry o)]) !! j = Some th ->
              ths !! j = Some th \/ th = (o, entry o)).
    { intros j th [Hj|[_ Hj]]%lookup_app_Some; [by left|right].
      by apply list_lookup_singleton_Some in Hj as [_ <-]. }
    constructor; try done.
    + intros t v Htv. destruct (Hmade t v Htv) as [Ht Hths]. split; [done|].
      intros j th [Hj| ->]%Hnew; [by eauto|by destruct o].
    + intros t x Htx. destruct (Htaken t x Htx) as [Ht Hths]. split; [done|].
      intros j th [Hj| ->]%Hnew; [by eauto|by destruct o].
    + rewrite map_app, concat_app. simpl.
      replace (produced (o, entry o)) with (@nil T) by (by destruct o).
      by rewrite !app_nil_r.
    + rewrite map_app, concat_app. simpl.
      replace (moved_out (o, entry o)) with (@nil T) by (by destruct o).
      by rewrite !app_nil_r.
  - destruct (ths !! i) as [[o p]|] eqn:Hi; simpl in Hdo; [|done].
    destruct (step p q) as [[[p' q'] ev]|] eqn:Hstep; simpl in Hdo; [|done].
    injection Hdo as <-. simpl.
    destruct (made_step _ q ths i o p p' q' ev made Hinv Hk Hi Hstep Hmade Hnd)
      as [Hmade' Hnd1].
    destruct (taken_step _ q ths i o p p' q' ev taken Hinv Hk Hi Hstep Htaken Hnd')
      as [Htaken' Hnd1'].
    constructor; try done.
    + by apply (slots_step _ q ths i o p p' q' ev made Hinv Hk Hi Hstep).
    + by apply (delivered_step _ q ths i o p made taken Hinv Hi).
    + by apply (produced_step _ q ths i o p p' q' ev made Hinv Hi Hstep).
    + by apply (moved_out_step q ths i o p p' q' ev taken Hi Hstep).
Qed.

Lemma hist_inv_run (C addr : Z) acts :
  forall k (st st' : queue T * list (op T * pc T)) made taken,
  1 <= C -> sys_reachable C addr k st ->
  Z.of_nat k + Z.of_nat (length acts) < 2 ^ 63 ->
  hist_inv st.1 st.2 made taken -> sys_run st acts = Some st' ->
  hist_inv st'.1 st'.2 (made ++ constructed st acts) (taken ++ moved st acts).
Proof.
  induction acts as [|a acts IH]; intros k st st' made taken HC Hreach Hk Hinv Hrun;
    simpl in *.
  - injection Hrun as <-. by rewrite !app_nil_r.
  - destruct (sys_do st a) as [st1|] eqn:Hdo; simpl in Hrun; [|done].
    rewrite !app_assoc.
    apply (IH (S k) st1); [done| |lia| |done].
    + apply (reachable_step C addr k st st1 Hreach). by apply (sys_do_step st st1 a).
    + apply (hist_inv_do C addr k st st1 a); [done|done|lia|done|done].
Qed.

Lemma moved_out_returned (ops : list (op T)) (rs : list (retval T)) :
  concat (map moved_out (zip ops (map Return rs)))
  = concat (map consumed (zip ops (map Return rs))).
Proof.
  revert rs. induction ops as [|o ops IH]; intros [|r rs]; simpl; try done.
  by rewrite IH.
Qed.

(** X16. Delivery in the order of the tickets, however the steps of the
    threads interleave (fewer than 2^63 steps of a schedule that starts
    from a freshly constructed queue).  Each head ticket has at most one
    element constructed under it and each tail ticket at most one element
    moved out under it; the element moved out under a ticket is the element
    constructed under the same ticket, so the consumer of the k-th ticket
    of [tail_] gets the element of the producer of the k-th ticket of
    [head_]; the tickets used are below the counters; and the values the
    calls have put in and taken out are those constructed and moved out. *)
Theorem tickets_deliver (C addr : Z) (acts : list (action (T:=T))) q ths :
  1 <= C -> Z.of_nat (length acts) < 2 ^ 63 ->
  sys_run (fresh C addr, []) acts = Some (q, ths) ->
  NoDup (map fst (constructed (fresh C addr, []) acts)) /\
  NoDup (map fst (moved (fresh C addr, []) acts)) /\
  (forall t x, (t, x) ∈ moved (fresh C addr, []) acts ->
     (t, x) ∈ constructed (fresh C addr, []) acts) /\
  (forall t v, (t, v) ∈ constructed (fresh C addr, []) acts -> 0 <= t < head_ q) /\
  (forall t x, (t, x) ∈ moved (fresh C addr, []) acts -> 0 <= t < tail_ q) /\
  Permutation (concat (map produced ths)) (map snd (constructed (fresh C addr, []) acts)) /\
  Permutation (concat (map moved_out ths)) (map snd (moved (fresh C addr, []) acts)) /\
  (forall (ops : list (op T)) rs, ths = zip ops (map Return rs) -> length ops = length rs ->
     Permutation (enqueued ops rs) (map snd (constructed (fresh C addr, []) acts)) /\
     Permutation (dequeued rs) (map snd (moved (fresh C addr, []) acts))).
Proof.
  intros HC Hlen Hrun.
  pose proof (hist_inv_run C addr acts 0 (fresh C addr, []) (q, ths) [] [] HC
                (reachable_fresh C addr) ltac:(simpl; lia) (hist_inv_fresh C addr) Hrun)
    as [HJ Hmade Htaken Hnd Hnd' Hsub Hprod Hmov].
  simpl in *.
  split; [done|]. split; [done|]. split; [done|].
  split; [intros t v Htv; by destruct (Hmade t v Htv)|].
  split; [intros t x Htx; by destruct (Htaken t x Htx)|].
  split; [done|]. split; [done|].
  intros ops rs -> Hl.
  pose proof (sys_run_reachable C addr acts 0 _ _ (reachable_fresh C addr) Hrun) as Hreach.
  destruct (returned_threads ops rs Hl (sys_reachable_calls C addr _ _ Hreach))
    as [Hp Hc].
  rewrite moved_out_returned, Hc in Hmov. by rewrite Hp in Hprod.
Qed.

End Delivery.


(** The first block of the test program: a queue of capacity 11, ten
    [emplace], one [pop], then [pop] and [emplace]; the sizes are 0, 10, 9
    and 9, and the destructor destroys the nine elements left. *)
Example test_capacity_11 :
  let q0 := fresh (T:=Z) 11 4096 in
  size q0 = 0 /\ empty q0 = true /\
  match run_ops 6 (replicate 10 (Emplace 0)) q0 with
  | Done (_, q1, tr1) =>
      size q1 = 10 /\ empty q1 = false /\ constructions tr1 = 10%nat /\
      match run_ops 6 [Pop 0] q1 with
      | Done (_, q2, tr2) =>
          size q2 = 9 /\ empty q2 = false /\
          match run_ops 6 [Pop 0; Emplace 0] q2 with
          | Done (_, q3, tr3) =>
              size q3 = 9 /\ empty q3 = false /\
              match queue_dtor q3 [(4096, 12)] with
              | Some (h, evs) =>
                  h = [] /\ destructions evs = 9%nat /\
                  constructions (tr1 ++ tr2 ++ tr3 ++ evs)
                  = destructions (tr1 ++ tr2 ++ tr3 ++ evs)
              | None => False
              end
          | _ => False
          end
      | _ => False
      end
  | _ => False
  end.
Proof. vm_compute. repeat split; reflexivity. Qed.

(** [mpmc::queue<int> q(0)] throws. *)
Example test_capacity_0 (alloc : Allocator) :
  queue_ctor (T:=Z) alloc 0 [] = Some (inl invalid_argument, [], []).
Proof. reflexivity. Qed.

(** A thread among others: [try_emplace] on a full queue of capacity 1
    returns false after the load, the check and the reload. *)
Example test_try_emplace_full :
  exec (try_emplace_load 2)
       (replicate 3 (Queue 1 4096 [Slot 1 (Some 1)] 1 0))
  = Some (Return (ret_bool false)).
Proof. reflexivity. Qed.

Lemma demo_run : run_ops 6 demo_ops (fresh 2 4096) = Done (demo_rs, demo_queue, demo_trace).
Proof. by vm_compute. Qed.

Lemma demo_half_run :
  run_ops 6 [Emplace 10] (fresh 2 4096) = Done ([ret_void], demo_half, [EvConstruct 0%nat]).
Proof. by vm_compute. Qed.

Lemma demo_schedule_run :
  sys_run (fresh 2 4096, []) demo_schedule
  = Some (demo_done, [(Pop 0, Return (ret_pop 7)); (Emplace 7, Return ret_void)]).
Proof. reflexivity. Qed.

Lemma demo_done_reachable :
  sys_reachable 2 4096 13
    (demo_done, zip [Pop 0; Emplace 7] (map Return [ret_pop 7; ret_void])).
Proof.
  exact (sys_run_reachable 2 4096 demo_schedule 0 _ _ (reachable_fresh 2 4096)
           demo_schedule_run).
Qed.

Lemma fifo_delivery_and_conservation_witness :
  (exists rs q' tr, run_ops 6 demo_ops (fresh 2 4096) = Done (rs, q', tr)) /\
  enqueued demo_ops demo_rs = dequeued demo_rs ++ contents demo_queue /\
  dequeued demo_rs = enqueued demo_ops demo_rs /\
  Permutation (enqueued [Pop 0; Emplace 7] [ret_pop 7; ret_void])
              (dequeued [ret_pop 7; ret_void]).
Proof.
  destruct (fifo_delivery_and_conservation (T:=Z) 2 4096) as (Hseq & _ & Hdone).
  - rewrite size_modulus_eq. lia.
  - assert (Hlen : Z.of_nat (length demo_ops) < 2 ^ 63 - 1) by (by vm_compute).
    destruct (Hseq demo_ops Hlen) as [Hreturns Hfifo].
    split; [exact (Hreturns eq_refl 6%nat (le_n 6))|].
    destruct (Hfifo 6%nat demo_rs demo_queue demo_trace demo_run)
      as (Horder & _ & _ & _ & Hdrained).
    split; [exact Horder|]. split; [exact (proj1 (Hdrained eq_refl))|].
    assert (Hk : Z.of_nat 13 < 2 ^ 63) by (by vm_compute).
    exact (proj2 (Hdone 13%nat demo_done [Pop 0; Emplace 7] [ret_pop 7; ret_void] Hk
                    eq_refl demo_done_reachable) eq_refl).
Defined.

Lemma turn_parity_invariant_witness :
  ((exists g, 0 <= g /\
      ((turn (Slot 1 (Some 10)) = 2 * g /\ storage (Slot 1 (Some 10)) = None) \/
       (turn (Slot 1 (Some 10)) = 2 * g + 1 /\ is_Some (storage (Slot 1 (Some 10)))))) /\
   (is_Some (storage (Slot 1 (Some 10))) <-> Z.odd (turn (Slot 1 (Some 10))) = true)) /\
  (is_Some (storage (Slot 2 (@None Z))) <-> Z.odd (turn (Slot 2 (@None Z))) = true).
Proof.
  destruct (turn_parity_invariant (T:=Z) 2 4096) as (Hseq & _ & Hdone).
  - rewrite size_modulus_eq. lia.
  - split.
    + destruct (Hseq [Emplace 10] 6%nat [ret_void] demo_half
                  [EvConstruct 0%nat] 0%nat (Slot 1 (Some 10)) demo_half_run eq_refl)
        as (Hgen & Hodd & _).
      by split.
    + assert (Hk : Z.of_nat 13 < 2 ^ 63) by (by vm_compute).
      refine (proj2 (Hdone 13%nat demo_done _ 0%nat (Slot 2 None) Hk
                       demo_done_reachable _ eq_refl)).
      by repeat constructor.
Defined.

Lemma size_and_empty_witness :
  size demo_half = 1 /\ (empty demo_half = true <-> size demo_half <= 0).
Proof.
  destruct (size_and_empty demo_half) as (Hsize & Hempty & _).
  - rewrite size_modulus_eq. simpl. lia.
  - rewrite size_modulus_eq. simpl. lia.
  - simpl. lia.
  - by split.
Defined.

Lemma demo_waiting_reachable : sys_reachable 2 4096 2 demo_waiting.
Proof.
  apply (reachable_step 2 4096 1 (fresh 2 4096, [(Pop 0, pop_fetch_add 0)])).
  - apply (reachable_step 2 4096 0 (fresh 2 4096, [])); [constructor|].
    exact (sys_call (fresh 2 4096) [] (Pop 0)).
  - exact (sys_thread (fresh 2 4096) [(Pop 0, pop_fetch_add 0)] 0%nat _ _ _ _ _
             eq_refl eq_refl).
Qed.

Lemma construction_semantics_witness :
  queue_ctor (T:=Z) (fun _ _ => Some 4096) 2 []
  = Some (inr (fresh 2 4096), [(4096, 3)], [EvAllocate 4096 3]) /\
  queue_ctor (T:=Z) (fun _ _ => Some 4096) (size_modulus - 1) [] = None.
Proof.
  split.
  - destruct (construction_semantics (T:=Z) (fun _ _ => Some 4096) 2 [])
      as (_ & _ & _ & Hok & _); [by vm_compute|].
    destruct (Hok 4096) as (_ & Hctor & _); [by vm_compute|reflexivity|reflexivity|].
    exact Hctor.
  - destruct (construction_semantics (T:=Z) (fun _ _ => Some 4096) (size_modulus - 1) [])
      as (_ & _ & _ & _ & Hub); [by vm_compute|].
    exact (proj2 (Hub 4096 eq_refl eq_refl eq_refl)).
Defined.

Lemma demo_full_run : sys_run (fresh 1 4096, []) demo_full_schedule = Some demo_full.
Proof. reflexivity. Qed.

Lemma demo_full_reachable : sys_reachable 1 4096 8 demo_full.
Proof.
  exact (sys_run_reachable 1 4096 demo_full_schedule 0 _ _ (reachable_fresh 1 4096)
           demo_full_run).
Qed.

Lemma capacity_bound_witness :
  (live_count (fst demo_full) + count unpublished (snd demo_full)
   = stored_count (fst demo_full) + count unreleased (snd demo_full))%nat /\
  Z.of_nat (stored_count (fst demo_full)) <= 1 /\
  (constructions (sys_events (fresh 1 4096, []) demo_full_schedule)
   = destructions (sys_events (fresh 1 4096, []) demo_full_schedule)
     + stored_count (fst demo_full))%nat /\
  (constructions demo_trace = destructions demo_trace + live_count demo_queue)%nat.
Proof.
  destruct (capacity_bound (T:=Z) 1 4096) as (Hsys & Hacts & _); [lia|].
  destruct (capacity_bound (T:=Z) 2 4096) as (_ & _ & Hseq); [lia|].
  assert (Hk : Z.of_nat 8 < 2 ^ 63) by (by vm_compute).
  destruct (Hsys 8%nat _ _ Hk demo_full_reachable) as (_ & _ & Huse & _ & Hle & _).
  split; [exact Huse|]. split; [exact Hle|].
  split; [exact (proj1 (Hacts demo_full_schedule _ _ Hk demo_full_run))|].
  exact (proj1 (proj2 (proj2 (Hseq _ _ _ _ _ demo_run)))).
Defined.

Lemma blocking_calls_complete_witness :
  (exists q', emplace 4 20 demo_half
              = Done (ret_void, q', [EvConstruct (slot_index demo_half (head_ demo_half))]) /\
              contents q' = contents demo_half ++ [20]) /\
  (exists x, storage (Slot 1 (Some 10)) = Some x /\
     pop 5 0 demo_half
     = Done (ret_pop x, after_pop demo_half,
             [EvDestroy (slot_index demo_half (tail_ demo_half))])).
Proof.
  destruct (blocking_calls_complete 2 4096 [Emplace 10] 6 [ret_void] demo_half
              [EvConstruct 0%nat]) as (_ & _ & _ & Hemplace & Hpop).
  - rewrite size_modulus_eq. lia.
  - by vm_compute.
  - exact demo_half_run.
  - split.
    + apply Hemplace; [simpl; lia|by vm_compute|lia].
    + apply (Hpop demo_half (Slot 1 (Some 10)) 0 5%nat); [reflexivity|by vm_compute|reflexivity|lia].
Defined.

(** ** Instances of the further properties *)

Lemma demo_claimed_reachable : sys_reachable 2 4096 3 demo_claimed.
Proof.
  exact (sys_run_reachable 2 4096 demo_claim_schedule 0 _ _ (reachable_fresh 2 4096)
           eq_refl).
Qed.

Lemma fuzz_schedule_run :
  sys_run (fresh 2 4096, []) fuzz_schedule = Some (fuzz_done, zip fuzz_ops (map Return fuzz_rs)).
Proof. reflexivity. Qed.

Lemma fuzz_done_reachable :
  sys_reachable 2 4096 22 (fuzz_done, zip fuzz_ops (map Return fuzz_rs)).
Proof.
  exact (sys_run_reachable 2 4096 fuzz_schedule 0 _ _ (reachable_fresh 2 4096)
           fuzz_schedule_run).
Qed.

Lemma ticket_arithmetic_witness :
  turn_ demo_half 3 * capacity_ demo_half + idx_ demo_half 3 = 3 /\
  idx_ demo_half (3 + capacity_ demo_half) = idx_ demo_half 3.
Proof.
  destruct (ticket_arithmetic demo_half 3) as (Hsplit & _ & _ & _ & Hidx & _).
  - simpl. lia.
  - lia.
  - by split.
Defined.

Lemma try_calls_alone_witness :
  size demo_half = Z.of_nat (length (contents demo_half)) /\ 0 <= size demo_half <= 2.
Proof.
  destruct (try_calls_alone 2 4096 [Emplace 10] 6 [ret_void] demo_half
              [EvConstruct 0%nat]) as (Hsize & Hrange & _).
  - rewrite size_modulus_eq. lia.
  - by vm_compute.
  - exact demo_half_run.
  - by split.
Defined.

Lemma blocking_calls_alone_wait_witness :
  pop 10 0 (fresh 2 4096) = @Spinning (retval Z * queue Z * list event).
Proof.
  destruct (blocking_calls_alone_wait (T:=Z) 2 4096 [] 6 [] (fresh 2 4096) [])
    as [_ Hpop].
  - rewrite size_modulus_eq. lia.
  - by vm_compute.
  - reflexivity.
  - exact (Hpop eq_refl 0 10%nat).
Defined.

Lemma claimed_slots_exclusive_witness :
  exists s, slot_at (fst demo_claimed) 0 = Some s /\ storage s = None.
Proof.
  destruct (claimed_slots_exclusive 2 4096 3 (fst demo_claimed) (snd demo_claimed)
              0 (Emplace 7) (emplace_construct 0 7) 0)
    as (_ & _ & s & Hs & _ & _ & Hnone & _).
  - lia.
  - by vm_compute.
  - exact demo_claimed_reachable.
  - reflexivity.
  - reflexivity.
  - exists s. split; [exact Hs|]. apply (Hnone 7). by left.
Defined.

Lemma claimed_calls_return_witness :
  exists p' q' ev, step (emplace_construct 0 7) (fst demo_claimed) = Some (p', q', ev) /\
    S (remaining p') = 2%nat.
Proof.
  destruct (claimed_calls_return 2 4096 3 (fst demo_claimed) (snd demo_claimed)
              0 (Emplace 7) (emplace_construct 0 7) 0)
    as (_ & p' & q' & ev & Hstep & Hrem & _).
  - lia.
  - by vm_compute.
  - exact demo_claimed_reachable.
  - reflexivity.
  - reflexivity.
  - by exists p', q', ev.
Defined.

Lemma tickets_and_size_witness :
  head_ (fst demo_full) - tail_ (fst demo_full)
  = Z.of_nat (length (stored (fst demo_full)))
    + Z.of_nat (count enqueue_pending (snd demo_full))
    - Z.of_nat (count dequeue_pending (snd demo_full)) /\
  size demo_done = Z.of_nat (length (stored demo_done)).
Proof.
  split.
  - destruct (tickets_and_size 1 4096 8 (fst demo_full) (snd demo_full))
      as (_ & _ & Hdiff & _); [lia|by vm_compute|exact demo_full_reachable|].
    exact Hdiff.
  - destruct (tickets_and_size 2 4096 13 demo_done
                (zip [Pop 0; Emplace 7] (map Return [ret_pop 7; ret_void])))
      as (_ & _ & _ & _ & Hdone); [lia|by vm_compute|exact demo_done_reachable|].
    apply Hdone. by repeat constructor.
Defined.

Lemma destructor_after_threads_witness :
  exists ixs,
    queue_dtor demo_done [(4096, wrap (2 + 1))]
    = Some ([], map EvDestroy ixs ++ [EvDeallocate 4096 (wrap (2 + 1))]) /\
    (length ixs + length (dequeued [ret_pop 7; ret_void])
     = length (enqueued [Pop 0; Emplace 7] [ret_pop 7; ret_void]))%nat.
Proof.
  destruct (destructor_after_threads 2 4096 13 demo_done [Pop 0; Emplace 7]
              [ret_pop 7; ret_void] []) as (ixs & Hdtor & _ & _ & Hcount).
  - lia.
  - by vm_compute.
  - reflexivity.
  - exact demo_done_reachable.
  - by exists ixs.
Defined.

Lemma step_frame_witness :
  tail_ (with_head (fresh (T:=Z) 2 4096) (wrap (0 + 1))) = tail_ (fresh (T:=Z) 2 4096).
Proof.
  destruct (step_frame (emplace_fetch_add 7) (fresh 2 4096) (emplace_spin 0 7)
              (with_head (fresh 2 4096) (wrap (0 + 1))) []) as (_ & Htail & _).
  - reflexivity.
  - apply (Htail 7). by left.
Defined.

Lemma aligned_allocate_checked_witness :
  aligned_allocate 64 64 (fun _ _ => Some 4096) 3 = Allocated 4096 /\
  aligned_allocate 64 64 (fun _ _ => Some 4096) (2 ^ 60) = Throws_bad_array_new_length.
Proof.
  split.
  - destruct (aligned_allocate_checked 64 64 (fun _ _ => Some 4096) 3) as (_ & Hok & _).
    + lia.
    + lia.
    + apply Hok. by vm_compute.
  - destruct (aligned_allocate_checked 64 64 (fun _ _ => Some 4096) (2 ^ 60))
      as (Hno & _).
    + lia.
    + lia.
    + apply Hno. by vm_compute.
Defined.

Lemma ctor_with_aligned_allocator_witness :
  queue_ctor (T:=Z) (aligned_allocator 64 (fun _ _ _ => Some 4096)) 2 []
  = Some (inr (fresh 2 4096), [(4096, 3)], [EvAllocate 4096 3]) /\
  queue_ctor (T:=Z) (aligned_allocator 64 (fun _ _ _ => Some 4096)) size_max [] = None.
Proof.
  split.
  - destruct (ctor_with_aligned_allocator (T:=Z) 64 (fun _ _ _ => Some 4096) 2 [])
      as (Hfit & _); [by vm_compute|by vm_compute|].
    apply Hfit. by vm_compute.
  - destruct (ctor_with_aligned_allocator (T:=Z) 64 (fun _ _ _ => Some 4096) size_max [])
      as (_ & _ & Hmax); [by vm_compute|by vm_compute|].
    exact (proj2 (Hmax eq_refl) 4096 eq_refl eq_refl).
Defined.

Lemma blocking_run_delivers_witness :
  stored demo_done = [] /\ Permutation (dequeued [ret_pop 7; ret_void]) (pushed [Pop 0; Emplace 7]).
Proof.
  destruct (blocking_run_delivers 2 4096 13 demo_done [Pop 0; Emplace 7]
              [ret_pop 7; ret_void]) as (_ & _ & Hdone).
  - lia.
  - by vm_compute.
  - reflexivity.
  - by repeat constructor.
  - exact demo_done_reachable.
  - destruct (Hdone eq_refl) as (Hst & Hperm & _). by split.
Defined.

Lemma fuzz_test_sum_witness :
  fuzz_sum [[1]; [0]] = fuzz_expected 2 /\ fuzz_expected 2 = 1.
Proof.
  destruct (fuzz_test_sum 2 4096 2 2 22 fuzz_done fuzz_ops fuzz_rs [[1]; [0]])
    as (_ & _ & Hsum & Hexp).
  - lia.
  - by vm_compute.
  - lia.
  - lia.
  - by vm_compute.
  - by vm_compute.
  - reflexivity.
  - by repeat constructor.
  - apply Permutation_refl.
  - reflexivity.
  - exact fuzz_done_reachable.
  - apply Permutation_refl.
  - split; [exact Hsum|exact Hexp].
Defined.

Lemma tickets_deliver_witness :
  NoDup (map fst (moved (fresh 2 4096, []) fuzz_schedule)) /\
  Permutation (dequeued fuzz_rs) (map snd (moved (fresh 2 4096, []) fuzz_schedule)).
Proof.
  destruct (tickets_deliver 2 4096 fuzz_schedule fuzz_done (zip fuzz_ops (map Return fuzz_rs)))
    as (_ & Hnd & _ & _ & _ & _ & _ & Hdone).
  - lia.
  - by vm_compute.
  - exact fuzz_schedule_run.
  - split; [exact Hnd|]. exact (proj2 (Hdone fuzz_ops fuzz_rs eq_refl eq_refl)).
Defined.

Lemma demo_retry_reachable : sys_reachable 2 4096 5 demo_retry.
Proof.
  exact (sys_run_reachable 2 4096 demo_retry_schedule 0 _ _ (reachable_fresh 2 4096)
           eq_refl).
Qed.

Lemma try_retries_progress_witness : 0 < 1 /\ 1 = head_ (fst demo_retry).
Proof.
  destruct (try_retries_progress 2 4096 5 (fst demo_retry) (snd demo_retry) 0
              (TryEmplace 5) (try_emplace_cas 0 5) (try_emplace_check 1 5)
              (fst demo_retry) []) as [Hhead _].
  - lia.
  - by vm_compute.
  - exact demo_retry_reachable.
  - reflexivity.
  - reflexivity.
  - destruct (Hhead 0 5 1 5) as (Hlt & Heq & _); [by left|reflexivity|]. by split.
Defined.

Lemma test_type_asserts_witness :
  exists h' evs, queue_dtor demo_half [(4096, 3)] = Some (h', evs) /\
    test_type_replay [] ([EvConstruct 0%nat] ++ evs) = Some [].
Proof.
  destruct (test_type_asserts 2 4096 [Emplace 10] 6 [ret_void] demo_half
              [EvConstruct 0%nat] [(4096, 3)]) as [_ Hdtor].
  - rewrite size_modulus_eq. lia.
  - exact demo_half_run.
  - exact Hdtor.
Defined.

Lemma slots_on_their_own_lines_witness :
  cache_line (slot_address (fresh (T:=Z) 2 4096) 64 0 + 63)
  < cache_line (slot_address (fresh (T:=Z) 2 4096) 64 1 + 0).
Proof.
  destruct (slots_on_their_own_lines (T:=Z) (fun _ _ => Some 4096) 2 [] [(4096, 3)]
              (fresh 2 4096) [EvAllocate 4096 3] 64) as (_ & _ & Hlines).
  - reflexivity.
  - lia.
  - reflexivity.
  - apply Hlines; lia.
Defined.

Lemma size_between_loads_witness :
  size_loads true (fst demo_loads) (snd demo_loads) = 0 /\
  size (fst demo_loads) = 1 /\ size (snd demo_loads) = 1 /\
  size_loads false (fst demo_loads) (snd demo_loads) = 2.
Proof.
  destruct (size_between_loads 2 4096 demo_first_load demo_second_load
              (fst demo_loads) [(Emplace 7, emplace_spin 0 7)]
              (snd demo_loads)
              [(Emplace 7, emplace_spin 0 7); (Pop 0, pop_spin 0 0);
               (Emplace 8, emplace_spin 1 8)])
    as (_ & _ & Hhead & Htail & _); [lia|by vm_compute|reflexivity|reflexivity|].
  split; [exact Hhead|]. split; [reflexivity|]. split; [reflexivity|exact Htail].
Defined.
